(** * Chunked upload pipeline of the wedding photo-sharing site

    A shallow embedding of the chunked, resumable upload pipeline:

    - the server routes [chunked-upload/init], [chunked-upload/chunk],
      [chunked-upload/complete], [chunked-upload/cleanup] and
      [chunked-upload/cleanup-orphaned];
    - the client-side [ChunkedUploadManager] (queue of files, one active
      upload, chunk scheduler with retries).

    JavaScript strings are sequences of UTF-16 code units, numbers that
    are used as counters or indices are integers, [NaN] is written out
    where the code can produce it. *)

From Stdlib Require Import ZArith NArith Lia DecimalNat.
From stdpp Require Import base list strings gmap sorting.
#[local] Set Warnings "-clear-no-such-hyp".



(** ** JavaScript strings *)

(** A string is the list of its UTF-16 code units. *)
Abbreviation jsstring := (list N).

(** A literal of the source, as code units. *)
Definition lit (s : string) : jsstring :=
  (λ a, Ascii.N_of_ascii a) <$> String.list_ascii_of_string s.

Module JS.

(** [String.prototype.startsWith]. *)
Fixpoint starts_with (p s : jsstring) : bool :=
  match p, s with
  | [], _ => true
  | _ :: _, [] => false
  | a :: p', b :: s' => bool_decide (a = b) && starts_with p' s'
  end.

(** [s.split(sep)] for a non-empty separator: the pieces between the
    successive occurrences of [sep], scanning from the left.  [skip]
    counts the code units of an occurrence still to be passed over,
    [cur] holds the current piece in reverse. *)
Fixpoint split_go (sep : jsstring) (skip : nat) (cur s : jsstring)
  : list jsstring :=
  match s with
  | [] => [reverse cur]
  | c :: s' =>
      match skip with
      | S k => split_go sep k cur s'
      | O =>
          if starts_with sep s
          then reverse cur :: split_go sep (length sep - 1) [] s'
          else split_go sep 0 (c :: cur) s'
      end
  end.

Definition split (sep s : jsstring) : list jsstring := split_go sep 0 [] s.

(** [sep] occurs somewhere in [s]. *)
Fixpoint occurs (sep s : jsstring) : bool :=
  starts_with sep s ||
  match s with
  | [] => false
  | _ :: s' => occurs sep s'
  end.

(** The white space of [\s] and of [parseInt]'s leading trim
    (WhiteSpace and LineTerminator code points). *)
Definition is_space (c : N) : bool :=
  ((9 <=? c) && (c <=? 13) || (c =? 32) || (c =? 160) || (c =? 5760)
   || (8192 <=? c) && (c <=? 8202) || (c =? 8232) || (c =? 8233)
   || (c =? 8239) || (c =? 8287) || (c =? 12288) || (c =? 65279))%N.

(** [\w]: ASCII letters, digits and the underscore. *)
Definition is_word (c : N) : bool :=
  ((48 <=? c) && (c <=? 57) || (65 <=? c) && (c <=? 90)
   || (97 <=? c) && (c <=? 122) || (c =? 95))%N.

Definition digit_val (c : N) : option nat :=
  if ((48 <=? c) && (c <=? 57))%N then Some (N.to_nat (c - 48)) else None.

(** The value of the longest prefix of decimal digits; [None] when
    there is no digit at all.  [seen] records that a digit was read. *)
Fixpoint parse_digits (acc : nat) (seen : bool) (s : jsstring) : option nat :=
  match s with
  | [] => if seen then Some acc else None
  | c :: s' =>
      match digit_val c with
      | Some d => parse_digits (10 * acc + d) true s'
      | None => if seen then Some acc else None
      end
  end.

Fixpoint trim_start (s : jsstring) : jsstring :=
  match s with
  | c :: s' => if is_space c then trim_start s' else s
  | [] => []
  end.

(** [Number.parseInt(s, 10)]; [None] is [NaN].  The integer is kept
    exact (indices stay far below 2^53). *)
Definition parseInt10 (s : jsstring) : option Z :=
  match trim_start s with
  | [] => None
  | c :: r =>
      if (c =? 45)%N then (λ n, - Z.of_nat n)%Z <$> parse_digits 0 false r
      else if (c =? 43)%N then Z.of_nat <$> parse_digits 0 false r
      else Z.of_nat <$> parse_digits 0 false (c :: r)
  end.

Fixpoint uint_codes (d : Decimal.uint) : jsstring :=
  match d with
  | Decimal.Nil => []
  | Decimal.D0 d => 48%N :: uint_codes d
  | Decimal.D1 d => 49%N :: uint_codes d
  | Decimal.D2 d => 50%N :: uint_codes d
  | Decimal.D3 d => 51%N :: uint_codes d
  | Decimal.D4 d => 52%N :: uint_codes d
  | Decimal.D5 d => 53%N :: uint_codes d
  | Decimal.D6 d => 54%N :: uint_codes d
  | Decimal.D7 d => 55%N :: uint_codes d
  | Decimal.D8 d => 56%N :: uint_codes d
  | Decimal.D9 d => 57%N :: uint_codes d
  end.

(** [String(n)] of a non-negative integer: its decimal digits. *)
Definition show_nat (n : nat) : jsstring := uint_codes (Nat.to_uint n).

(** [String(n)] of a clock reading. *)
Definition show_N (n : N) : jsstring := uint_codes (N.to_uint n).

(** [String(z)] of an integer; [-0] prints as [0]. *)
Definition show_Z (z : Z) : jsstring :=
  if (z <? 0)%Z then 45%N :: show_nat (Z.abs_nat z) else show_nat (Z.to_nat z).

(** [arr[i]] on an array of strings, [undefined] read as the empty
    string (the routes only index pieces that exist). *)
Definition at_index (i : nat) (parts : list jsstring) : jsstring :=
  default [] (parts !! i).

End JS.

(** ** The temporary chunk store *)

(** Modelled from the spec: the temporary chunk store ([put], [list] and
    [del] of the blob service the routes import; the service itself is
    not part of the sources).  An object is addressed by its pathname,
    "stores the chunk at a location keyed by uploadId and chunkIndex
    such that re-sending the same pair overwrites in place"; [list]
    returns the objects whose pathname starts with the prefix; [del]
    removes one object.  The address handed to [fetch] and [del]
    ([blob.url]) is identified with the pathname, and [fetch(blob.url)]
    yields the stored bytes. *)
Record Blob := mkBlob {
  pathname : jsstring;
  uploadedAt : Z;
  body : list Byte.byte;
}.

Abbreviation Store := (list Blob).

Module BlobStore.

Fixpoint put (path : jsstring) (now : Z) (bytes : list Byte.byte)
    (st : Store) : Store :=
  match st with
  | [] => [mkBlob path now bytes]
  | b :: st' =>
      if bool_decide (pathname b = path)
      then mkBlob path now bytes :: st'
      else b :: put path now bytes st'
  end.

Definition list_prefix (prefix : jsstring) (st : Store) : list Blob :=
  filter (λ b, JS.starts_with prefix (pathname b) = true) st.

Definition del (path : jsstring) (st : Store) : Store :=
  filter (λ b, pathname b ≠ path) st.

End BlobStore.

(** What the environment decides for one request: whether a [put]
    goes through, which [del] calls go through, and what the photo
    backend answers ([None]: [uploadToGooglePhotos] throws). *)
Record Env := mkEnv {
  put_ok : bool;
  del_ok : jsstring → bool;
  uploadToGooglePhotos : list Byte.byte → jsstring → jsstring → option jsstring;
}.

(** ** The server routes *)

Module Server.

(** [!s] on a string. *)
Definition falsy (s : jsstring) : bool := bool_decide (s = []).

(** *** [chunked-upload/init] *)

Record InitRequest := mkInitRequest {
  i_filename : jsstring;
  i_contentType : jsstring;
  i_totalSize : nat;
  i_totalChunks : nat;
  i_chunkSize : nat;
  i_uploadId : jsstring;
}.

Inductive InitResponse :=
| InitMissingFields                      (* 400 *)
| Initialized (uploadId filename contentType : jsstring)
              (totalSize totalChunks : nat).

Definition init_ok (r : InitResponse) : bool :=
  match r with Initialized _ _ _ _ _ => true | _ => false end.

Definition init (r : InitRequest) : InitResponse :=
  if falsy (i_filename r) || falsy (i_contentType r)
     || (i_totalSize r =? 0) || (i_totalChunks r =? 0)
     || falsy (i_uploadId r)
  then InitMissingFields
  else Initialized (i_uploadId r) (i_filename r) (i_contentType r)
                   (i_totalSize r) (i_totalChunks r).

(** *** [chunked-upload/chunk] *)

(** The form data of a chunk request; [c_chunk = None] when the part
    is absent.  The two numbers travel as strings. *)
Record ChunkRequest := mkChunkRequest {
  c_chunk : option (list Byte.byte);
  c_uploadId : jsstring;
  c_chunkIndex : jsstring;
  c_totalChunks : jsstring;
}.

Inductive ChunkResponse :=
| ChunkMissingFields                     (* 400 *)
| ChunkFailed                            (* 500 *)
| ChunkReceived (chunkIndex : Z) (url : jsstring).

Definition chunk_ok (r : ChunkResponse) : bool :=
  match r with ChunkReceived _ _ => true | _ => false end.

(** [`uploads/${uploadId}/chunk-${chunkIndex}.bin`] *)
Definition chunk_path (uploadId : jsstring) (chunkIndex : Z) : jsstring :=
  lit "uploads/" ++ uploadId ++ lit "/chunk-" ++ JS.show_Z chunkIndex
    ++ lit ".bin".

(** The [progress] figure of the answer, which no caller reads, is
    left out. *)
Definition chunk (env : Env) (now : Z) (st : Store) (r : ChunkRequest)
  : Store * ChunkResponse :=
  match c_chunk r, JS.parseInt10 (c_chunkIndex r),
        JS.parseInt10 (c_totalChunks r) with
  | Some bytes, Some chunkIndex, Some _ =>
      if falsy (c_uploadId r) then (st, ChunkMissingFields)
      else
        let path := chunk_path (c_uploadId r) chunkIndex in
        if put_ok env
        then (BlobStore.put path now bytes st, ChunkReceived chunkIndex path)
        else (st, ChunkFailed)
  | _, _, _ => (st, ChunkMissingFields)
  end.

(** *** [chunked-upload/complete] *)

Record CompleteRequest := mkCompleteRequest {
  r_uploadId : jsstring;
  r_filename : jsstring;
  r_contentType : jsstring;
  r_totalSize : nat;
  r_totalChunks : nat;
}.

Inductive CompleteResponse :=
| CompleteMissingFields                          (* 400 *)
| NotAllChunksReceived (received expected : nat) (* 400 *)
| CompleteFailed                                 (* 500 *)
| CompleteSuccess (mediaItemId filename : jsstring) (chunksCleanedUp : nat).

Definition complete_ok (r : CompleteResponse) : bool :=
  match r with CompleteSuccess _ _ _ => true | _ => false end.

(** One call of [uploadToGooglePhotos]. *)
Record MediaUpload := mkMediaUpload {
  mu_bytes : list Byte.byte;
  mu_filename : jsstring;
  mu_contentType : jsstring;
}.

(** [`uploads/${uploadId}/chunk-`] *)
Definition chunk_prefix (uploadId : jsstring) : jsstring :=
  lit "uploads/" ++ uploadId ++ lit "/chunk-".

(** [Number.parseInt(pathname.split("chunk-")[1].split(".")[0], 10)] *)
Definition chunk_index (b : Blob) : option Z :=
  JS.parseInt10
    (JS.at_index 0 (JS.split (lit ".")
       (JS.at_index 1 (JS.split (lit "chunk-") (pathname b))))).

(** The comparator [indexA - indexB]; [None] is [NaN]. *)
Definition by_index (a b : Blob) : option Z :=
  ia ← chunk_index a; ib ← chunk_index b; Some (ia - ib)%Z.

(** [Array.prototype.sort] with a comparator: [a] goes before [b]
    when the comparator is negative, a [NaN] counts as [0], and the
    sort is stable.  Written as an insertion sort; every stable sort
    returns the same array when the comparator is a consistent
    order. *)
Definition sorts_before {A} (cmp : A → A → option Z) (a b : A) : bool :=
  match cmp a b with
  | Some v => (v <? 0)%Z
  | None => false
  end.

Fixpoint sort_insert {A} (cmp : A → A → option Z) (x : A) (l : list A)
  : list A :=
  match l with
  | [] => [x]
  | y :: l' =>
      if sorts_before cmp y x then y :: sort_insert cmp x l'
      else x :: y :: l'
  end.

Definition array_sort {A} (cmp : A → A → option Z) (l : list A) : list A :=
  foldr (sort_insert cmp) [] l.

(** The downloaded buffers copied one after the other into
    [combinedBuffer]. *)
Definition combine_buffers (buffers : list (list Byte.byte)) : list Byte.byte :=
  concat buffers.

(** [filename.replace(/[^\w\s.-]/g, "_")] *)
Definition allowed_char (c : N) : bool :=
  JS.is_word c || JS.is_space c || (c =? 46)%N || (c =? 45)%N.

Definition sanitize (filename : jsstring) : jsstring :=
  (λ c, if allowed_char c then c else 95%N) <$> filename.

(** The best-effort deletion of the chunks: a failed [del] is logged
    and leaves the object in place. *)
Definition delete_all (env : Env) (blobs : list Blob) (st : Store) : Store :=
  foldl (λ st b, if del_ok env (pathname b)
                 then BlobStore.del (pathname b) st else st) st blobs.

Record CompleteOutcome := mkCompleteOutcome {
  co_response : CompleteResponse;
  co_store : Store;
  co_uploads : list MediaUpload;   (* calls made to the photo backend *)
}.

Definition sorted_blobs (st : Store) (uploadId : jsstring) : list Blob :=
  array_sort by_index (BlobStore.list_prefix (chunk_prefix uploadId) st).

Definition complete (env : Env) (st : Store) (r : CompleteRequest)
  : CompleteOutcome :=
  if falsy (r_uploadId r) || falsy (r_filename r) || falsy (r_contentType r)
     || (r_totalChunks r =? 0)
  then mkCompleteOutcome CompleteMissingFields st []
  else
    let blobs := BlobStore.list_prefix (chunk_prefix (r_uploadId r)) st in
    if negb (length blobs =? r_totalChunks r)
    then mkCompleteOutcome
           (NotAllChunksReceived (length blobs) (r_totalChunks r)) st []
    else
      let sortedBlobs := array_sort by_index blobs in
      let combinedBuffer := combine_buffers (body <$> sortedBlobs) in
      let sanitizedFilename := sanitize (r_filename r) in
      let call := mkMediaUpload combinedBuffer sanitizedFilename
                    (r_contentType r) in
      match uploadToGooglePhotos env combinedBuffer sanitizedFilename
              (r_contentType r) with
      | None => mkCompleteOutcome CompleteFailed st [call]
      | Some mediaItemId =>
          mkCompleteOutcome
            (CompleteSuccess mediaItemId sanitizedFilename (length sortedBlobs))
            (delete_all env sortedBlobs st) [call]
      end.

End Server.

(** ** The orphan sweep *)

Module Sweep.

(** 24 hours in milliseconds *)
Definition ORPHAN_THRESHOLD : Z := 24 * 60 * 60 * 1000.

(** The [Map] from upload id to its blobs, in insertion order. *)
Abbreviation Groups := (list (jsstring * list Blob)).

(** [uploadGroups.get(uploadId)!.push(blob)], after a [set] of the
    empty array when the key is new. *)
Fixpoint group_push (uploadId : jsstring) (blob : Blob) (groups : Groups)
  : Groups :=
  match groups with
  | [] => [(uploadId, [blob])]
  | (k, bs) :: groups' =>
      if bool_decide (k = uploadId) then (k, bs ++ [blob]) :: groups'
      else (k, bs) :: group_push uploadId blob groups'
  end.

Definition path_parts (blob : Blob) : list jsstring :=
  JS.split (lit "/") (pathname blob).

(** [pathParts[1]] *)
Definition group_key (blob : Blob) : jsstring :=
  JS.at_index 1 (path_parts blob).

Definition group_blob (groups : Groups) (blob : Blob) : Groups :=
  let pathParts := path_parts blob in
  if (2 <=? length pathParts)
     && bool_decide (JS.at_index 0 pathParts = lit "uploads")
  then group_push (group_key blob) blob groups
  else groups.

Definition upload_groups (blobs : list Blob) : Groups :=
  foldl group_blob [] blobs.

(** [uploadBlobs.reduce(...)] without an initial value; [None] when
    the array is empty (the reduce throws). *)
Definition oldest_blob (uploadBlobs : list Blob) : option Blob :=
  match uploadBlobs with
  | [] => None
  | first :: rest =>
      Some (foldl (λ oldest current,
              if (uploadedAt current <? uploadedAt oldest)%Z
              then current else oldest) first rest)
  end.

Record Totals := mkTotals {
  t_store : Store;
  totalDeleted : nat;
  totalFailed : nat;
}.

(** One turn of the loop over the groups. *)
Definition sweep_group (env : Env) (now : Z) (t : Totals)
    (g : jsstring * list Blob) : Totals :=
  let uploadBlobs := g.2 in
  match oldest_blob uploadBlobs with
  | None =>
      mkTotals (t_store t) (totalDeleted t)
               (totalFailed t + length uploadBlobs)
  | Some oldestBlob =>
      let blobAge := (now - uploadedAt oldestBlob)%Z in
      if (ORPHAN_THRESHOLD <? blobAge)%Z then
        let successful :=
          length (filter (λ b, del_ok env (pathname b) = true) uploadBlobs) in
        let failed :=
          length (filter (λ b, del_ok env (pathname b) = false) uploadBlobs) in
        mkTotals (Server.delete_all env uploadBlobs (t_store t))
                 (totalDeleted t + successful) (totalFailed t + failed)
      else t
  end.

Inductive SweepResponse :=
| NoUploadChunks (deletedCount : nat)
| Swept (deletedCount failedCount uploadGroupsProcessed : nat).

Definition deletedCount (r : SweepResponse) : nat :=
  match r with NoUploadChunks d => d | Swept d _ _ => d end.

(** [failedCount] is absent from the answer when nothing is stored. *)
Definition failedCount (r : SweepResponse) : option nat :=
  match r with NoUploadChunks _ => None | Swept _ f _ => Some f end.

Definition cleanup_orphaned (env : Env) (now : Z) (st : Store)
  : Store * SweepResponse :=
  let blobs := BlobStore.list_prefix (lit "uploads/") st in
  if length blobs =? 0 then (st, NoUploadChunks 0)
  else
    let uploadGroups := upload_groups blobs in
    let t := foldl (sweep_group env now) (mkTotals st 0 0) uploadGroups in
    (t_store t, Swept (totalDeleted t) (totalFailed t) (length uploadGroups)).

End Sweep.

(** ** The client: [ChunkedUploadManager] *)

Module Client.

(** *** Data model *)

Inductive FileStatus :=
| Pending | Queued | Uploading | Paused | Completed | Error.

Inductive ChunkStatus :=
| ChunkPending | ChunkUploading | ChunkCompleted | ChunkError.

#[global] Instance FileStatus_eq_dec : EqDecision FileStatus.
Proof. solve_decision. Defined.
#[global] Instance ChunkStatus_eq_dec : EqDecision ChunkStatus.
Proof. solve_decision. Defined.

Record Chunk := mkChunk {
  index : nat;
  chunk_status : ChunkStatus;
  chunk_retries : nat;
}.

(** The browser's [File]: its name, its MIME type and its bytes. *)
Record File := mkFile {
  f_name : jsstring;
  f_type : jsstring;
  f_bytes : list Byte.byte;
}.

(** A number that may come out of a division. *)
Inductive JsNum := NaN | Infinity | Num (n : nat).

(** What ends up in [queuePosition]: an index, or the text that
    [uploadFile] passes as third argument of [updateFileStatus]. *)
Inductive QueuePosition := Position (i : nat) | Message (text : jsstring).

(** [ChunkedFile], without the preview URL and the [error] field that
    nothing assigns. *)
Record ChunkedFile := mkChunkedFile {
  id : jsstring;
  file : File;
  name : jsstring;
  size : nat;
  type : jsstring;
  totalChunks : nat;
  uploadedChunks : nat;
  status : FileStatus;
  progress : JsNum;
  retries : nat;
  chunkSize : nat;
  queuePosition : option QueuePosition;
  chunks : list Chunk;
}.

Record Options := mkOptions {
  opt_chunkSize : nat;
  maxRetries : nat;
  retryDelay : nat;
  maxConcurrentChunks : nat;
}.

Definition defaultOptions : Options :=
  mkOptions (2 * 1024 * 1024) 3 2000 3.

(** *** Requests built by the client *)

Inductive Request :=
| InitCall (r : Server.InitRequest)
| ChunkCall (r : Server.ChunkRequest)
| CompleteCall (r : Server.CompleteRequest).

Definition init_request (f : ChunkedFile) : Server.InitRequest :=
  Server.mkInitRequest (name f) (type f) (size f) (totalChunks f)
    (chunkSize f) (id f).

(** [blob.slice(start, end)] *)
Definition slice (start stop : nat) (bytes : list Byte.byte) : list Byte.byte :=
  take (stop - start) (drop start bytes).

Definition chunk_bytes (f : ChunkedFile) (chunkIndex : nat) : list Byte.byte :=
  let start := chunkIndex * chunkSize f in
  let stop := Nat.min (start + chunkSize f) (size f) in
  slice start stop (f_bytes (file f)).

Definition chunk_request (f : ChunkedFile) (chunkIndex : nat)
  : Server.ChunkRequest :=
  Server.mkChunkRequest (Some (chunk_bytes f chunkIndex)) (id f)
    (JS.show_nat chunkIndex) (JS.show_nat (totalChunks f)).

Definition complete_request (f : ChunkedFile) : Server.CompleteRequest :=
  Server.mkCompleteRequest (id f) (name f) (type f) (size f) (totalChunks f).

(** *** The event loop *)

(** How a request ends: a 2xx answer with a well-formed body, a 2xx
    answer whose body does not parse, another status with its text,
    or a rejected [fetch]. *)
Inductive Outcome :=
| Succeeds
| MalformedBody (message : jsstring)
| NotOk (text : jsstring)
| Rejects (message : jsstring).

(** What is pending in the event loop: timers with their delay and
    requests in flight.  [run] names the [uploadFile] call that
    registered the task. *)
Inductive Task :=
| ProcessQueueTimer (delay : nat)
| InitFetch (run : nat)
| LoopWake (run : nat) (delay : nat)
| ChunkFetch (run : nat) (fileId : jsstring) (chunkIndex : nat)
| ChunkRejected (run : nat) (fileId : jsstring) (chunkIndex : nat)
| RetryTimer (run : nat) (delay : nat) (chunk : Chunk)
| CompleteFetch (run : nat).

(** An entry of [results]: [null], [true] or an error. *)
Inductive ChunkResult := ResultNull | ResultTrue | ResultError.

(** Where a call of [uploadFile] is suspended, with the locals of
    [uploadChunks] while its loop runs. *)
Inductive Stage :=
| AwaitInit
| UploadingChunks (chunkQueue : list Chunk) (activeChunks : list nat)
                  (results : list ChunkResult)
| AwaitComplete.

(** A call of [processQueue] suspended in [uploadFile]: the [file]
    found on entry, and whether its [AbortController] was aborted.
    The run's number stands for its controller. *)
Record Run := mkRun {
  run_id : nat;
  run_file : ChunkedFile;
  aborted : bool;
  stage : Stage;
}.

Record Manager := mkManager {
  files : list ChunkedFile;
  options : Options;
  abortControllers : gmap jsstring nat;
  paused : bool;
  activeFileId : option jsstring;
  uploadQueue : list jsstring;
  processingQueue : bool;
  (* the event loop *)
  runs : list Run;
  tasks : list (nat * Task);
  next_id : nat;
  requests : list Request;       (* every [fetch] issued, oldest first *)
}.

Definition create (options : Options) : Manager :=
  mkManager [] options ∅ false None [] false [] [] 0 [].

(** Field updates. *)
Definition set_files (v : list ChunkedFile) (m : Manager) : Manager :=
  mkManager v (options m) (abortControllers m) (paused m) (activeFileId m)
    (uploadQueue m) (processingQueue m) (runs m) (tasks m) (next_id m)
    (requests m).
Definition set_abortControllers (v : gmap jsstring nat) (m : Manager) : Manager :=
  mkManager (files m) (options m) v (paused m) (activeFileId m)
    (uploadQueue m) (processingQueue m) (runs m) (tasks m) (next_id m)
    (requests m).
Definition set_paused (v : bool) (m : Manager) : Manager :=
  mkManager (files m) (options m) (abortControllers m) v (activeFileId m)
    (uploadQueue m) (processingQueue m) (runs m) (tasks m) (next_id m)
    (requests m).
Definition set_activeFileId (v : option jsstring) (m : Manager) : Manager :=
  mkManager (files m) (options m) (abortControllers m) (paused m) v
    (uploadQueue m) (processingQueue m) (runs m) (tasks m) (next_id m)
    (requests m).
Definition set_uploadQueue (v : list jsstring) (m : Manager) : Manager :=
  mkManager (files m) (options m) (abortControllers m) (paused m)
    (activeFileId m) v (processingQueue m) (runs m) (tasks m) (next_id m)
    (requests m).
Definition set_processingQueue (v : bool) (m : Manager) : Manager :=
  mkManager (files m) (options m) (abortControllers m) (paused m)
    (activeFileId m) (uploadQueue m) v (runs m) (tasks m) (next_id m)
    (requests m).
Definition set_runs (v : list Run) (m : Manager) : Manager :=
  mkManager (files m) (options m) (abortControllers m) (paused m)
    (activeFileId m) (uploadQueue m) (processingQueue m) v (tasks m)
    (next_id m) (requests m).
Definition set_tasks (v : list (nat * Task)) (m : Manager) : Manager :=
  mkManager (files m) (options m) (abortControllers m) (paused m)
    (activeFileId m) (uploadQueue m) (processingQueue m) (runs m) v
    (next_id m) (requests m).

(** Registers a timer or a request in flight under a fresh number. *)
Definition add_task (t : Task) (m : Manager) : Manager :=
  mkManager (files m) (options m) (abortControllers m) (paused m)
    (activeFileId m) (uploadQueue m) (processingQueue m) (runs m)
    (tasks m ++ [(next_id m, t)]) (S (next_id m)) (requests m).

Definition log_request (r : Request) (m : Manager) : Manager :=
  mkManager (files m) (options m) (abortControllers m) (paused m)
    (activeFileId m) (uploadQueue m) (processingQueue m) (runs m)
    (tasks m) (next_id m) (requests m ++ [r]).

Definition with_status (s : FileStatus) (q : option QueuePosition)
    (f : ChunkedFile) : ChunkedFile :=
  mkChunkedFile (id f) (file f) (name f) (size f) (type f) (totalChunks f)
    (uploadedChunks f) s (progress f) (retries f) (chunkSize f)
    (match q with Some _ => q | None => queuePosition f end) (chunks f).

Definition with_queuePosition (q : nat) (f : ChunkedFile) : ChunkedFile :=
  mkChunkedFile (id f) (file f) (name f) (size f) (type f) (totalChunks f)
    (uploadedChunks f) (status f) (progress f) (retries f) (chunkSize f)
    (Some (Position q)) (chunks f).

Definition with_chunks (cs : list Chunk) (uploaded : nat) (f : ChunkedFile)
  : ChunkedFile :=
  mkChunkedFile (id f) (file f) (name f) (size f) (type f) (totalChunks f)
    uploaded (status f) (progress f) (retries f) (chunkSize f)
    (queuePosition f) cs.

Definition with_progress (p : JsNum) (uploaded : nat) (f : ChunkedFile)
  : ChunkedFile :=
  mkChunkedFile (id f) (file f) (name f) (size f) (type f) (totalChunks f)
    uploaded (status f) p (retries f) (chunkSize f) (queuePosition f)
    (chunks f).

(** [this.files.map((f) => f.id === fileId ? g(f) : f)] *)
Definition map_file (fileId : jsstring) (g : ChunkedFile → ChunkedFile)
    (fs : list ChunkedFile) : list ChunkedFile :=
  (λ f, if bool_decide (id f = fileId) then g f else f) <$> fs.

(** [this.files.find((f) => f.id === fileId)] *)
Definition find_file (fileId : jsstring) (fs : list ChunkedFile)
  : option ChunkedFile :=
  List.find (λ f, bool_decide (id f = fileId)) fs.

(** Truthiness of [this.activeFileId]. *)
Definition truthy (v : option jsstring) : bool :=
  match v with
  | Some (_ :: _) => true
  | _ => false
  end.

Definition completed_count (cs : list Chunk) : nat :=
  length (filter (λ c, chunk_status c = ChunkCompleted) cs).

(** [Math.round((completed / total) * 100)], the quotient taken
    exactly. *)
Definition percent (completed total : nat) : JsNum :=
  if total =? 0 then (if completed =? 0 then NaN else Infinity)
  else Num ((200 * completed + total) / (2 * total)).

(** *** State updates of the manager *)

Definition updateFileStatus (fileId : jsstring) (s : FileStatus)
    (queuePosition : option QueuePosition) (m : Manager) : Manager :=
  set_files (map_file fileId (with_status s queuePosition) (files m)) m.

Definition set_chunk_status (s : ChunkStatus) (c : Chunk) : Chunk :=
  mkChunk (index c) s (chunk_retries c).

Definition set_chunk_retries (n : nat) (c : Chunk) : Chunk :=
  mkChunk (index c) (chunk_status c) n.

(** [chunks[chunkIndex] = { ...chunks[chunkIndex], status }] on a copy,
    then the recount of the completed chunks.  Every caller passes the
    position of a chunk of the list. *)
Definition updateChunkStatus (fileId : jsstring) (chunkIndex : nat)
    (s : ChunkStatus) (m : Manager) : Manager :=
  set_files
    (map_file fileId
       (λ f, let chunks := alter (set_chunk_status s) chunkIndex (chunks f) in
             let uploadedChunks := completed_count chunks in
             with_chunks chunks uploadedChunks f)
       (files m)) m.

Definition updateChunkRetries (fileId : jsstring) (chunkIndex : nat)
    (retries : nat) (m : Manager) : Manager :=
  set_files
    (map_file fileId
       (λ f, with_chunks (alter (set_chunk_retries retries) chunkIndex (chunks f))
               (uploadedChunks f) f)
       (files m)) m.

Definition updateFileProgress (fileId : jsstring) (m : Manager) : Manager :=
  match find_file fileId (files m) with
  | None => m
  | Some f =>
      let completedChunks := completed_count (chunks f) in
      let progress := percent completedChunks (totalChunks f) in
      set_files (map_file fileId (with_progress progress completedChunks)
                   (files m)) m
  end.

(** One turn of [queuedFiles.forEach((file, index) => ...)]. *)
Definition enqueue (index : nat) (f : ChunkedFile) (m : Manager) : Manager :=
  let m := set_uploadQueue (uploadQueue m ++ [id f]) m in
  let m := if bool_decide (status f ≠ Queued)
           then updateFileStatus (id f) Queued (Some (Position index)) m
           else m in
  set_files (map_file (id f) (with_queuePosition index) (files m)) m.

Fixpoint enqueue_all (index : nat) (queuedFiles : list ChunkedFile)
    (m : Manager) : Manager :=
  match queuedFiles with
  | [] => m
  | f :: rest => enqueue_all (S index) rest (enqueue index f m)
  end.

Definition waiting (f : ChunkedFile) : Prop :=
  status f ≠ Completed ∧ status f ≠ Error ∧ status f ≠ Uploading.

#[global] Instance waiting_dec f : Decision (waiting f).
Proof. unfold waiting. apply _. Defined.

Definition updateQueuePositions (m : Manager) : Manager :=
  let pendingFiles := filter waiting (files m) in
  let queuedFiles :=
    filter (λ f, Some (id f) ≠ activeFileId m) pendingFiles in
  let m := enqueue_all 0 queuedFiles (set_uploadQueue [] m) in
  if negb (truthy (activeFileId m)) && negb (paused m)
     && (0 <? length (uploadQueue m))
  then add_task (ProcessQueueTimer 0) m
  else m.

(** *** [processQueue] and [uploadFile] *)

(** What [processQueue] does once [uploadFile] has returned.
    [uploadFile] catches the errors of its own body, so the [catch] of
    [processQueue] is never entered. *)
Definition resume_processQueue (m : Manager) : Manager :=
  let m := set_uploadQueue (tail (uploadQueue m)) m in
  let m := set_activeFileId None m in
  let m := updateQueuePositions m in
  let m := add_task (ProcessQueueTimer 0) m in
  set_processingQueue false m.

(** [uploadFile] up to its first [await]. *)
Definition uploadFile (fileId : jsstring) (m : Manager) : Manager :=
  match find_file fileId (files m) with
  | None => resume_processQueue m
  | Some f =>
      if bool_decide (status f = Completed)
         || bool_decide (status f = Uploading)
      then resume_processQueue m
      else
        let m := updateFileStatus fileId Uploading None m in
        let controller := next_id m in
        let m := set_abortControllers
                   (<[fileId := controller]> (abortControllers m)) m in
        let m := set_runs (runs m ++ [mkRun controller f false AwaitInit]) m in
        let m := log_request (InitCall (init_request f)) m in
        add_task (InitFetch controller) m
  end.

Definition processQueue (m : Manager) : Manager :=
  if processingQueue m || paused m then m
  else if length (uploadQueue m) =? 0 then m
  else if truthy (activeFileId m) then m
  else
    match uploadQueue m with
    | [] => m
    | nextFileId :: _ =>
        if Server.falsy nextFileId then m
        else uploadFile nextFileId
               (set_activeFileId (Some nextFileId)
                  (set_processingQueue true m))
    end.

(** *** The public operations *)

(** A file handed to [addFiles], with the clock reading and the random
    suffix drawn for its id. *)
Record NewFile := mkNewFile {
  nf_file : File;
  nf_now : N;
  nf_random : jsstring;
}.

(** [`${Date.now()}-${Math.random().toString(36).substring(2, 9)}`] *)
Definition new_id (nf : NewFile) : jsstring :=
  JS.show_N (nf_now nf) ++ lit "-" ++ nf_random nf.

(** [Math.ceil(a / b)] for a positive [b]. *)
Definition ceil_div (a b : nat) : nat :=
  a / b + (if a mod b =? 0 then 0 else 1).

Definition new_chunked_file (m : Manager) (nf : NewFile) : ChunkedFile :=
  let chunkSize := opt_chunkSize (options m) in
  let size := length (f_bytes (nf_file nf)) in
  let totalChunks := ceil_div size chunkSize in
  let chunks := (λ index, mkChunk index ChunkPending 0) <$> seq 0 totalChunks in
  let initialStatus := if truthy (activeFileId m) then Queued else Pending in
  mkChunkedFile (new_id nf) (nf_file nf) (f_name (nf_file nf)) size
    (f_type (nf_file nf)) totalChunks 0 initialStatus (Num 0) 0 chunkSize
    None chunks.

Definition addFiles (fs : list NewFile) (m : Manager)
  : Manager * list ChunkedFile :=
  let chunkedFiles := new_chunked_file m <$> fs in
  let m := set_files (files m ++ chunkedFiles) m in
  (updateQueuePositions m, chunkedFiles).

(** [controller.abort()] *)
Definition abort (controller : nat) (m : Manager) : Manager :=
  set_runs
    ((λ r, if bool_decide (run_id r = controller)
           then mkRun (run_id r) (run_file r) true (stage r) else r)
       <$> runs m) m.

Definition abortUpload (fileId : jsstring) (m : Manager) : Manager :=
  let m := match abortControllers m !! fileId with
           | Some controller =>
               set_abortControllers (delete fileId (abortControllers m))
                 (abort controller m)
           | None => m
           end in
  let m := updateFileStatus fileId Pending None m in
  if bool_decide (Some fileId = activeFileId m)
  then set_activeFileId None m else m.

Definition removeFile (fileId : jsstring) (m : Manager) : Manager :=
  let m := match find_file fileId (files m) with
           | Some _ =>
               if bool_decide (Some fileId = activeFileId m)
               then set_activeFileId None (abortUpload fileId m)
               else m
           | None => m
           end in
  let m := set_files (filter (λ f, id f ≠ fileId) (files m)) m in
  let m := updateQueuePositions m in
  if negb (truthy (activeFileId m)) && negb (paused m)
  then processQueue m else m.

Definition pauseAll (m : Manager) : Manager :=
  let m := set_paused true m in
  match activeFileId m with
  | Some a => if truthy (activeFileId m)
              then updateFileStatus a Paused None m else m
  | None => m
  end.

Definition resumeAll (m : Manager) : Manager :=
  let m := set_paused false m in
  let m := match activeFileId m with
           | Some a =>
               if truthy (activeFileId m) then
                 match find_file a (files m) with
                 | Some activeFile =>
                     if bool_decide (status activeFile = Paused)
                     then updateFileStatus a Pending None m else m
                 | None => m
                 end
               else m
           | None => m
           end in
  processQueue m.

Definition startUpload (m : Manager) : Manager :=
  processQueue (updateQueuePositions (set_paused false m)).

(** [file.chunks.forEach((chunk, index) => ...)] of [retryFailed]. *)
Fixpoint reset_failed_chunks (fileId : jsstring) (index : nat)
    (cs : list Chunk) (m : Manager) : Manager :=
  match cs with
  | [] => m
  | c :: rest =>
      reset_failed_chunks fileId (S index) rest
        (if bool_decide (chunk_status c = ChunkError)
         then updateChunkStatus fileId index ChunkPending m else m)
  end.

Definition retry_file (m : Manager) (f : ChunkedFile) : Manager :=
  reset_failed_chunks (id f) 0 (chunks f)
    (updateFileStatus (id f) Pending None m).

Definition retryFailed (m : Manager) : Manager :=
  let failedFiles := filter (λ f, status f = Error) (files m) in
  let m := foldl retry_file m failedFiles in
  processQueue (updateQueuePositions m).

(** [this.abortControllers.forEach((controller) => controller.abort())] *)
Definition abort_all (m : Manager) : Manager :=
  set_runs
    ((λ r, if bool_decide (run_id r ∈ (map_to_list (abortControllers m)).*2)
           then mkRun (run_id r) (run_file r) true (stage r) else r)
       <$> runs m) m.

Definition reset_status (m : Manager) (f : ChunkedFile) : Manager :=
  if bool_decide (status f = Uploading) || bool_decide (status f = Paused)
     || bool_decide (status f = Queued)
  then updateFileStatus (id f) Pending None m else m.

Definition cancelAll (m : Manager) : Manager :=
  let m := set_abortControllers ∅ (abort_all m) in
  let m := foldl reset_status m (files m) in
  let m := set_activeFileId None m in
  updateQueuePositions m.

Definition clearCompleted (m : Manager) : Manager :=
  updateQueuePositions
    (set_files (filter (λ f, status f ≠ Completed) (files m)) m).

(** *** The suspended parts of [uploadFile], [uploadChunks] and
        [uploadChunk] *)

Definition find_run (r : nat) (m : Manager) : option Run :=
  List.find (λ run, bool_decide (run_id run = r)) (runs m).

Definition set_stage (r : nat) (s : Stage) (m : Manager) : Manager :=
  set_runs
    ((λ run, if bool_decide (run_id run = r)
             then mkRun (run_id run) (run_file run) (aborted run) s else run)
       <$> runs m) m.

(** [uploadFile] returns: its [processQueue] goes on. *)
Definition end_run (r : nat) (m : Manager) : Manager :=
  resume_processQueue (set_runs (filter (λ run, run_id run ≠ r) (runs m)) m).

(** The [catch] of [uploadFile] for an error other than an
    [AbortError]; the message lands in the [queuePosition] argument. *)
Definition fail_upload (run : Run) (message : jsstring) (m : Manager)
  : Manager :=
  let fileId := id (run_file run) in
  let m := updateFileStatus fileId Error (Some (Message message)) m in
  let m := set_abortControllers (delete fileId (abortControllers m)) m in
  end_run (run_id run) m.

(** The success path of [uploadFile] after the completion answer. *)
Definition finish_upload (run : Run) (m : Manager) : Manager :=
  let fileId := id (run_file run) in
  let m := updateFileStatus fileId Completed None m in
  let m := set_abortControllers (delete fileId (abortControllers m)) m in
  end_run (run_id run) m.

(** [uploadChunks] has returned: the completion request.  With an
    aborted signal nothing is sent and the [fetch] rejects. *)
Definition start_complete (run : Run) (m : Manager) : Manager :=
  let m := set_stage (run_id run) AwaitComplete m in
  let m := if aborted run then m
           else log_request (CompleteCall (complete_request (run_file run))) m in
  add_task (CompleteFetch (run_id run)) m.

(** [uploadChunk] up to its [await fetch]. *)
Definition uploadChunk (r : nat) (fileId : jsstring) (chunkIndex : nat)
    (m : Manager) : Manager :=
  match find_file fileId (files m) with
  | None => add_task (ChunkRejected r fileId chunkIndex) m
  | Some f =>
      let m := updateChunkStatus fileId chunkIndex ChunkUploading m in
      let m := log_request (ChunkCall (chunk_request f chunkIndex)) m in
      add_task (ChunkFetch r fileId chunkIndex) m
  end.

(** [activeChunks.add(i)] and [activeChunks.delete(i)] on the [Set]. *)
Definition set_add (i : nat) (s : list nat) : list nat :=
  if bool_decide (i ∈ s) then s else s ++ [i].
Definition set_delete (i : nat) (s : list nat) : list nat :=
  filter (λ j, j ≠ i) s.

(** The inner [while]: start chunks until the window is full. *)
Fixpoint fill (r : nat) (fileId : jsstring) (chunkQueue : list Chunk)
    (activeChunks : list nat) (m : Manager)
  : list Chunk * list nat * Manager :=
  match chunkQueue with
  | [] => ([], activeChunks, m)
  | chunk :: rest =>
      if length activeChunks <? maxConcurrentChunks (options m)
      then fill r fileId rest (set_add (index chunk) activeChunks)
             (uploadChunk r fileId (index chunk) m)
      else (chunkQueue, activeChunks, m)
  end.

Definition failed (res : ChunkResult) : Prop :=
  res ≠ ResultTrue ∧ res ≠ ResultNull.

#[global] Instance ChunkResult_eq_dec : EqDecision ChunkResult.
Proof. solve_decision. Defined.
#[global] Instance failed_dec res : Decision (failed res).
Proof. unfold failed. apply _. Defined.

(** One turn of the outer [while] of [uploadChunks], from its test to
    the 100 ms wait (after the inner loop the queue is empty or the
    window is full, so the wait is always taken), and what follows the
    loop when the test fails. *)
Definition uploadChunks_loop (run : Run) (chunkQueue : list Chunk)
    (activeChunks : list nat) (results : list ChunkResult) (m : Manager)
  : Manager :=
  if (0 <? length chunkQueue) || (0 <? length activeChunks) then
    if paused m || aborted run then start_complete run m
    else
      let '(chunkQueue, activeChunks, m) :=
        fill (run_id run) (id (run_file run)) chunkQueue activeChunks m in
      let m := set_stage (run_id run)
                 (UploadingChunks chunkQueue activeChunks results) m in
      add_task (LoopWake (run_id run) 100) m
  else
    let failedChunks := filter failed results in
    if 0 <? length failedChunks
    then fail_upload run
           (lit "Failed to upload " ++ JS.show_nat (length failedChunks)
              ++ lit " chunks") m
    else start_complete run m.

(** [uploadChunks] from its entry. *)
Definition uploadChunks (run : Run) (m : Manager) : Manager :=
  match find_file (id (run_file run)) (files m) with
  | None => start_complete run m
  | Some f =>
      let pendingChunks :=
        filter (λ c, chunk_status c ≠ ChunkCompleted) (chunks f) in
      uploadChunks_loop run pendingChunks []
        (replicate (totalChunks f) ResultNull) m
  end.

(** The locals of a run whose [uploadChunks] is still in its loop;
    once it has returned they are out of reach. *)
Definition update_locals (r : nat)
    (g : list Chunk → list nat → list ChunkResult → Stage) (m : Manager)
  : Manager :=
  match find_run r m with
  | Some run =>
      match stage run with
      | UploadingChunks q a res => set_stage r (g q a res) m
      | _ => m
      end
  | None => m
  end.

(** The fulfilment callback of [uploadChunk(...).then]. *)
Definition chunk_fulfilled (r : nat) (chunkIndex : nat) (m : Manager)
  : Manager :=
  update_locals r
    (λ q a res, UploadingChunks q (set_delete chunkIndex a)
                  (<[chunkIndex := ResultTrue]> res)) m.

(** The rejection callback: the retry decision and its timer. *)
Definition chunk_rejected (r : nat) (fileId : jsstring) (chunkIndex : nat)
    (m : Manager) : Manager :=
  let m := update_locals r
             (λ q a res, UploadingChunks q (set_delete chunkIndex a)
                           (<[chunkIndex := ResultError]> res)) m in
  match find_file fileId (files m) with
  | None => m
  | Some updatedFile =>
      match chunks updatedFile !! chunkIndex with
      | None => m
      | Some updatedChunk =>
          if chunk_retries updatedChunk <? maxRetries (options m) then
            let m := updateChunkRetries fileId chunkIndex
                       (chunk_retries updatedChunk + 1) m in
            add_task
              (RetryTimer r
                 (retryDelay (options m) * (chunk_retries updatedChunk + 1))
                 (set_chunk_retries (chunk_retries updatedChunk + 1)
                    updatedChunk)) m
          else m
      end
  end.

(** [uploadChunk] after its [fetch] has settled. *)
Definition chunk_settled (r : nat) (fileId : jsstring) (chunkIndex : nat)
    (o : Outcome) (m : Manager) : Manager :=
  match o with
  | Succeeds =>
      let m := updateChunkStatus fileId chunkIndex ChunkCompleted m in
      let m := updateFileProgress fileId m in
      chunk_fulfilled r chunkIndex m
  | MalformedBody _ =>
      let m := updateChunkStatus fileId chunkIndex ChunkCompleted m in
      let m := updateFileProgress fileId m in
      let m := updateChunkStatus fileId chunkIndex ChunkError m in
      chunk_rejected r fileId chunkIndex m
  | NotOk _ | Rejects _ =>
      let m := updateChunkStatus fileId chunkIndex ChunkError m in
      chunk_rejected r fileId chunkIndex m
  end.

(** The retry timer: [chunkQueue.push(...)] unless paused or aborted. *)
Definition retry_due (r : nat) (chunk : Chunk) (m : Manager) : Manager :=
  match find_run r m with
  | Some run =>
      if negb (paused m) && negb (aborted run)
      then update_locals r (λ q a res, UploadingChunks (q ++ [chunk]) a res) m
      else m
  | None => m
  end.

Definition init_settled (run : Run) (o : Outcome) (m : Manager) : Manager :=
  if aborted run then end_run (run_id run) m
  else
    match o with
    | Succeeds | MalformedBody _ => uploadChunks run m
    | NotOk text =>
        fail_upload run (lit "Failed to initialize upload: " ++ text) m
    | Rejects message => fail_upload run message m
    end.

Definition complete_settled (run : Run) (o : Outcome) (m : Manager)
  : Manager :=
  if aborted run then end_run (run_id run) m
  else
    match o with
    | Succeeds => finish_upload run m
    | MalformedBody message => fail_upload run message m
    | NotOk text =>
        fail_upload run (lit "Failed to complete upload: " ++ text) m
    | Rejects message => fail_upload run message m
    end.

Definition find_task (t : nat) (m : Manager) : option Task :=
  snd <$> List.find (λ e, bool_decide (e.1 = t)) (tasks m).

(** The pending task [t] runs; [o] is how its request ended (timers
    ignore it).  A number that names no pending task does nothing. *)
Definition fire (t : nat) (o : Outcome) (m : Manager) : Manager :=
  match find_task t m with
  | None => m
  | Some task =>
      let m := set_tasks (filter (λ e, e.1 ≠ t) (tasks m)) m in
      match task with
      | ProcessQueueTimer _ => processQueue m
      | InitFetch r =>
          match find_run r m with
          | Some run =>
              match stage run with
              | AwaitInit => init_settled run o m
              | _ => m
              end
          | None => m
          end
      | LoopWake r _ =>
          match find_run r m with
          | Some run =>
              match stage run with
              | UploadingChunks q a res => uploadChunks_loop run q a res m
              | _ => m
              end
          | None => m
          end
      | ChunkFetch r fileId chunkIndex => chunk_settled r fileId chunkIndex o m
      | ChunkRejected r fileId chunkIndex => chunk_rejected r fileId chunkIndex m
      | RetryTimer r _ chunk => retry_due r chunk m
      | CompleteFetch r =>
          match find_run r m with
          | Some run =>
              match stage run with
              | AwaitComplete => complete_settled run o m
              | _ => m
              end
          | None => m
          end
      end
  end.

(** *** Traces *)

Inductive Event :=
| AddFiles (fs : list NewFile)
| StartUpload
| PauseAll
| ResumeAll
| RemoveFile (fileId : jsstring)
| RetryFailed
| CancelAll
| ClearCompleted
| Fire (task : nat) (o : Outcome).

Definition step (m : Manager) (e : Event) : Manager :=
  match e with
  | AddFiles fs => (addFiles fs m).1
  | StartUpload => startUpload m
  | PauseAll => pauseAll m
  | ResumeAll => resumeAll m
  | RemoveFile fileId => removeFile fileId m
  | RetryFailed => retryFailed m
  | CancelAll => cancelAll m
  | ClearCompleted => clearCompleted m
  | Fire t o => fire t o m
  end.

Definition exec (m : Manager) (trace : list Event) : Manager :=
  foldl step m trace.

End Client.

(** ** Auxiliary definitions for the proofs *)

(** [sep] starts at one of the positions of [p] in [p ++ tail]. *)
Fixpoint occurs_early (sep p tail : jsstring) : bool :=
  match p with
  | [] => false
  | _ :: p' => JS.starts_with sep (p ++ tail) || occurs_early sep p' tail
  end.

(** The chunk requests of [f] for the indices of [sends], each with the
    time at which it reaches the chunk route, applied in that order. *)
Definition store_chunks (env : Env) (f : Client.ChunkedFile)
    (sends : list (Z * nat)) (st : Store) : Store :=
  foldl (λ st s, (Server.chunk env s.1 st (Client.chunk_request f s.2)).1)
    st sends.

(** How the client sees the answer of the completion route. *)
Definition complete_outcome (r : Server.CompleteResponse) : Client.Outcome :=
  match r with
  | Server.CompleteSuccess _ _ _ => Client.Succeeds
  | Server.CompleteMissingFields => Client.NotOk (lit "Missing required fields")
  | Server.NotAllChunksReceived _ _ => Client.NotOk (lit "Not all chunks received")
  | Server.CompleteFailed => Client.NotOk (lit "Failed to complete upload")
  end.


(** A decimal digit. *)
Definition digit (c : N) : Prop := (48 ≤ c ∧ c ≤ 57)%N.

(** A code unit is not among those of a literal. *)
Ltac absent :=
  let H := fresh in intros H%list_elem_of_In; simpl in H; lia.

(** Blob [b] holds chunk [i] of [f], under the key of the chunk route. *)
Definition holds_chunk (f : Client.ChunkedFile) (b : Blob) (i : nat) : Prop :=
  pathname b = Server.chunk_path (Client.id f) (Z.of_nat i)
  ∧ body b = Client.chunk_bytes f i.

(** The indices stored so far, in the order of their first arrival. *)
Definition arrive (idxs : list nat) (i : nat) : list nat :=
  if decide (i ∈ idxs) then idxs else idxs ++ [i].

(** The index read off a key, [0] standing for [NaN]. *)
Definition index_key (b : Blob) : Z := default 0%Z (Server.chunk_index b).

(** A file as [addFiles] builds it: its size, chunk count and chunk size
    fit its bytes. *)
Definition well_formed (f : Client.ChunkedFile) : Prop :=
  Client.size f = length (Client.f_bytes (Client.file f))
  ∧ Client.totalChunks f = Client.ceil_div (Client.size f) (Client.chunkSize f)
  ∧ 0 < Client.chunkSize f.

(** ** A small upload, for the examples *)

Module Scenario.

(** Five bytes cut into chunks of two: three chunks. *)
Definition options : Client.Options := Client.mkOptions 2 3 2000 3.

Definition photo : Client.NewFile :=
  Client.mkNewFile
    (Client.mkFile (lit "a&b.png") (lit "image/png")
       [Byte.x01; Byte.x02; Byte.x03; Byte.x04; Byte.x05])
    1700000000000 (lit "k3x9q2a").

Definition env : Env :=
  mkEnv true (λ _, true) (λ _ _ _, Some (lit "media-1")).

Definition chunked : Client.ChunkedFile :=
  Client.new_chunked_file (Client.create options) photo.

(** The chunks arrive out of order. *)
Definition sends : list (Z * nat) := [(30%Z, 2); (10%Z, 0); (20%Z, 1)].


End Scenario.

(** ** Statements about the orphan sweep *)

(** The listed blobs in the same group as [b]. *)
Definition group_members (blobs : list Blob) (b : Blob) : list Blob :=
  filter (λ b', Sweep.group_key b' = Sweep.group_key b) blobs.

(** The group of [b] is orphaned: its oldest object is older than the
    threshold. *)
Definition orphaned (now : Z) (blobs : list Blob) (b : Blob) : Prop :=
  Exists (λ oldest,
            Forall (λ b', (uploadedAt oldest ≤ uploadedAt b')%Z)
              (group_members blobs b)
            ∧ (Sweep.ORPHAN_THRESHOLD < now - uploadedAt oldest)%Z)
    (group_members blobs b).

#[global] Instance orphaned_dec now blobs b : Decision (orphaned now blobs b).
Proof. unfold orphaned. apply _. Defined.

(** What the sweep keeps of the groups while it folds over the blobs
    processed so far. *)
Definition grouped (groups : Sweep.Groups) (processed : list Blob) : Prop :=
  NoDup groups.*1
  ∧ (∀ b, b ∈ processed → Sweep.group_key b ∈ groups.*1)
  ∧ (∀ k bs, (k, bs) ∈ groups →
       bs ≠ [] ∧ bs = filter (λ b, Sweep.group_key b = k) processed).

(** ** The event loop under a clock *)

(** The manager's traces leave open which pending task runs next.  Here
    a virtual clock decides: a timer is due after its delay, a request
    settles after the latency the network gives it, the earliest task
    runs first and, among tasks due together, the one registered
    first. *)
Module Timed.

(** How long the requests take and how they end.  A chunk request is
    told apart by the file, the chunk index and the number of the
    attempt, counted from 1. *)
Record Network := mkNetwork {
  init_reply : nat * Client.Outcome;
  chunk_reply : jsstring → nat → nat → nat * Client.Outcome;
  complete_reply : nat * Client.Outcome;
}.

Record Clock := mkClock {
  manager : Client.Manager;
  now : nat;
  due : list (nat * (nat * Client.Outcome));  (* task ↦ time, outcome *)
}.

(** [r] is a chunk request for chunk [chunkIndex] of [fileId]. *)
Definition is_attempt (fileId : jsstring) (chunkIndex : nat)
    (r : Client.Request) : bool :=
  match r with
  | Client.ChunkCall c =>
      bool_decide (Server.c_uploadId c = fileId)
      && bool_decide (Server.c_chunkIndex c = JS.show_nat chunkIndex)
  | _ => false
  end.

(** The chunk requests sent so far for chunk [chunkIndex] of [fileId]. *)
Definition attempts (fileId : jsstring) (chunkIndex : nat)
    (m : Client.Manager) : nat :=
  length (List.filter (is_attempt fileId chunkIndex) (Client.requests m)).

Definition schedule (net : Network) (m : Client.Manager) (now : nat)
    (task : Client.Task) : nat * Client.Outcome :=
  match task with
  | Client.ProcessQueueTimer delay => (now + delay, Client.Succeeds)
  | Client.InitFetch _ => (now + (init_reply net).1, (init_reply net).2)
  | Client.LoopWake _ delay => (now + delay, Client.Succeeds)
  | Client.ChunkFetch _ fileId chunkIndex =>
      let reply := chunk_reply net fileId chunkIndex
                     (attempts fileId chunkIndex m) in
      (now + reply.1, reply.2)
  | Client.ChunkRejected _ _ _ => (now, Client.Succeeds)
  | Client.RetryTimer _ delay _ => (now + delay, Client.Succeeds)
  | Client.CompleteFetch _ =>
      (now + (complete_reply net).1, (complete_reply net).2)
  end.

(** The tasks registered by the last step get their due time. *)
Definition register (net : Network) (before : nat) (c : Clock) : Clock :=
  let fresh := filter (λ e, before ≤ e.1) (Client.tasks (manager c)) in
  mkClock (manager c) (now c)
    (due c
       ++ ((λ e, (e.1, schedule net (manager c) (now c) e.2)) <$> fresh)).

(** The earliest entry; the first of those due together. *)
Fixpoint earliest (entries : list (nat * (nat * Client.Outcome)))
  : option (nat * (nat * Client.Outcome)) :=
  match entries with
  | [] => None
  | e :: rest =>
      match earliest rest with
      | Some e' => if e'.2.1 <? e.2.1 then Some e' else Some e
      | None => Some e
      end
  end.

(** The user acts at the current time. *)
Definition act (net : Network) (e : Client.Event) (c : Clock) : Clock :=
  register net (Client.next_id (manager c))
    (mkClock (Client.step (manager c) e) (now c) (due c)).

(** The next pending task runs, at its due time. *)
Definition tick (net : Network) (c : Clock) : option Clock :=
  match earliest (due c) with
  | None => None
  | Some (t, (time, o)) =>
      Some (register net (Client.next_id (manager c))
              (mkClock (Client.fire t o (manager c)) time
                 (filter (λ e, e.1 ≠ t) (due c))))
  end.

(** Runs until nothing is pending, for at most [fuel] tasks. *)
Fixpoint run (net : Network) (fuel : nat) (c : Clock) : Clock :=
  match fuel with
  | 0 => c
  | S fuel' =>
      match tick net c with
      | Some c' => run net fuel' c'
      | None => c
      end
  end.

Definition start (options : Client.Options) (net : Network)
    (fs : list Client.NewFile) : Clock :=
  act net (Client.AddFiles fs) (mkClock (Client.create options) 0 []).

End Timed.

(** ** Invariants of the manager *)

(** The same ids position by position, and no file newly [Uploading]. *)
Definition calm (fs fs' : list Client.ChunkedFile) : Prop :=
  Forall2 (λ f f', Client.id f' = Client.id f
                   ∧ (Client.status f' = Client.Uploading →
                      Client.status f = Client.Uploading)) fs fs'.

(** The fields that decide which upload runs are untouched. *)
Definition same_control (m m' : Client.Manager) : Prop :=
  Client.runs m' = Client.runs m
  ∧ Client.processingQueue m' = Client.processingQueue m
  ∧ Client.activeFileId m' = Client.activeFileId m
  ∧ Client.abortControllers m' = Client.abortControllers m.

Definition no_uploading (fs : list Client.ChunkedFile) : Prop :=
  Forall (λ f, Client.status f ≠ Client.Uploading) fs.

(** The three shapes of the manager: no upload runs; one runs whose
    controller was aborted and whose [uploadFile] has yet to return;
    one runs for the active file. *)
Inductive Shape (m : Client.Manager) : Prop :=
| Idle :
    Client.runs m = [] → Client.processingQueue m = false →
    Client.activeFileId m = None → Client.abortControllers m = ∅ →
    no_uploading (Client.files m) → Shape m
| Draining r :
    Client.runs m = [r] → Client.aborted r = true →
    Client.processingQueue m = true →
    Client.activeFileId m = None → Client.abortControllers m = ∅ →
    no_uploading (Client.files m) → Shape m
| Active r :
    Client.runs m = [r] → Client.aborted r = false →
    Client.processingQueue m = true →
    Client.activeFileId m = Some (Client.id (Client.run_file r)) →
    Client.abortControllers m
      = {[ Client.id (Client.run_file r) := Client.run_id r ]} →
    Forall (λ f, Client.status f = Client.Uploading →
                 Client.id f = Client.id (Client.run_file r))
      (Client.files m) →
    Shape m.

Definition Inv (m : Client.Manager) : Prop :=
  NoDup (Client.id <$> Client.files m) ∧ Shape m.

(** The ids drawn for the files of each [addFiles] differ from one
    another and from the ids of the files under management then. *)
Fixpoint fresh_ids (m : Client.Manager) (trace : list Client.Event) : Prop :=
  match trace with
  | [] => True
  | e :: rest =>
      match e with
      | Client.AddFiles fs =>
          NoDup ((Client.id <$> Client.files m) ++ (Client.new_id <$> fs))
      | _ => True
      end
      ∧ fresh_ids (Client.step m e) rest
  end.

(** A step that touches neither the control fields nor the ids, and
    makes no file [Uploading]. *)
Definition quiet (m m' : Client.Manager) : Prop :=
  same_control m m' ∧ calm (Client.files m) (Client.files m').

(** A file marked as waiting at position [p] of the queue. *)
Definition queued_at (p : nat) (f : Client.ChunkedFile) : Client.ChunkedFile :=
  Client.with_queuePosition p (Client.with_status Client.Queued None f).

Module Trace.

Definition other : Client.NewFile :=
  Client.mkNewFile
    (Client.mkFile (lit "b.png") (lit "image/png") [Byte.x07])
    1700000000001 (lit "p0m4z7c").

Definition empty : Client.NewFile :=
  Client.mkNewFile (Client.mkFile (lit "e.png") (lit "image/png") [])
    1700000000002 (lit "w8r1t5y").

(** Two files are added; the first starts, is paused and resumed, has
    a chunk fail and is removed; once its run has returned the second
    file starts. *)
Definition busy : list Client.Event :=
  [ Client.AddFiles [Scenario.photo; other];
    Client.Fire 0 Client.Succeeds;
    Client.Fire 1 Client.Succeeds;
    Client.PauseAll;
    Client.ResumeAll;
    Client.Fire 2 (Client.Rejects (lit "Failed to fetch"));
    Client.RemoveFile (Client.new_id Scenario.photo);
    Client.Fire 5 Client.Succeeds;
    Client.Fire 7 Client.Succeeds;
    Client.Fire 8 Client.Succeeds;
    Client.StartUpload;
    Client.Fire 9 Client.Succeeds ].

(** One file is added and started; its three chunk requests are
    answered, the last one first, and the loop wakes up to send the
    completion request. *)
Definition sent : list Client.Event :=
  [ Client.AddFiles [Scenario.photo];
    Client.Fire 0 Client.Succeeds;
    Client.Fire 1 Client.Succeeds;
    Client.Fire 4 Client.Succeeds;
    Client.Fire 2 Client.Succeeds;
    Client.Fire 3 Client.Succeeds;
    Client.Fire 5 Client.Succeeds ].

(** The run of that file, suspended at the completion request. *)
Definition completing : Client.Run :=
  Client.mkRun 1 (queued_at 0 Scenario.chunked) false Client.AwaitComplete.

(** The chunk store when the send of chunk 1 was lost. *)
Definition lost : Store :=
  store_chunks Scenario.env Scenario.chunked [(30%Z, 2); (10%Z, 0)] [].

(** The answer to a chunk request arrives with its status but its
    body cannot be read: chunk 2 is received first, then the reading
    of the answer for chunk 0 fails. *)
Definition unread : list Client.Event :=
  [ Client.AddFiles [Scenario.photo];
    Client.Fire 0 Client.Succeeds;
    Client.Fire 1 Client.Succeeds;
    Client.Fire 4 Client.Succeeds;
    Client.Fire 2 (Client.MalformedBody (lit "Failed to fetch")) ].

(** Every request takes 50 ms; the first two sends of chunk 0 fail in
    transport and the third succeeds.  The other chunks succeed
    after [slow] ms. *)
Definition flaky (slow : nat) : Timed.Network :=
  Timed.mkNetwork (50, Client.Succeeds)
    (λ _ chunkIndex attempt,
       if chunkIndex =? 0
       then (50, if attempt <? 3
                 then Client.Rejects (lit "Failed to fetch")
                 else Client.Succeeds)
       else (slow, Client.Succeeds))
    (50, Client.Succeeds).

End Trace.

(** ** The count of uploaded chunks *)

(** [uploadedChunks] is the number of completed chunks of the file. *)
Definition counted (f : Client.ChunkedFile) : Prop :=
  Client.uploadedChunks f = Client.completed_count (Client.chunks f).

(** ** A store with an abandoned upload, for the examples *)

Module Orphans.

Definition hour : Z := 60 * 60 * 1000.

Definition clock : Z := 100 * hour.

(** Two chunks of an upload last touched 30 and 29 hours ago, and one
    chunk of an upload that is 2 hours old. *)
Definition stale : Store :=
  [ mkBlob (Server.chunk_path (lit "old") 0) (clock - 30 * hour) [Byte.x01];
    mkBlob (Server.chunk_path (lit "new") 0) (clock - 2 * hour) [Byte.x02];
    mkBlob (Server.chunk_path (lit "old") 1) (clock - 29 * hour) [Byte.x03] ].

End Orphans.

(** ** The cleanup route of one upload *)

Module Cleanup.

Inductive CleanupResponse :=
| UploadIdRequired                              (* 400 *)
| NoChunksToCleanUp (deletedCount : nat)
| CleanedUp (deletedCount failedCount totalChunks : nat).

(** [`uploads/${uploadId}/`] *)
Definition upload_prefix (uploadId : jsstring) : jsstring :=
  lit "uploads/" ++ uploadId ++ lit "/".

(** [chunked-upload/cleanup]: every object of the upload is deleted,
    a failed [del] is counted and leaves its object in place. *)
Definition cleanup (env : Env) (st : Store) (uploadId : jsstring)
  : Store * CleanupResponse :=
  if Server.falsy uploadId then (st, UploadIdRequired)
  else
    let blobs := BlobStore.list_prefix (upload_prefix uploadId) st in
    if length blobs =? 0 then (st, NoChunksToCleanUp 0)
    else
      let successfulDeletes :=
        length (filter (λ b, del_ok env (pathname b) = true) blobs) in
      let failedDeletes :=
        length (filter (λ b, del_ok env (pathname b) = false) blobs) in
      (Server.delete_all env blobs st,
       CleanedUp successfulDeletes failedDeletes (length blobs)).

End Cleanup.

(** ** The semaphore of the photo library *)

Module Semaphore.

(** [permits] and the queue of [resolve] callbacks, each named by the
    caller that waits on it. *)
Record Semaphore := mkSemaphore {
  permits : nat;
  waiting : list nat;
}.

(** [new Semaphore(permits)] *)
Definition create (permits : nat) : Semaphore := mkSemaphore permits [].

(** [acquire()]: [true] when the promise returned is already
    resolved. *)
Definition acquire (caller : nat) (s : Semaphore) : Semaphore * bool :=
  if 0 <? permits s
  then (mkSemaphore (permits s - 1) (waiting s), true)
  else (mkSemaphore (permits s) (waiting s ++ [caller]), false).

(** [release()], with the caller whose promise it resolves. *)
Definition release (s : Semaphore) : Semaphore * option nat :=
  match waiting s with
  | next :: rest => (mkSemaphore (permits s) rest, Some next)
  | [] => (mkSemaphore (permits s + 1) [], None)
  end.

(** The callers of [uploadToGooglePhotos] around the semaphore: a
    call arrives and acquires; a call that holds a permit leaves its
    [try] block and releases in the [finally]. *)
Inductive Event :=
| Arrive (caller : nat)
| Leave (caller : nat).

Record System := mkSystem {
  semaphore : Semaphore;
  arrived : list nat;     (* in the order of their [acquire] *)
  admitted : list nat;    (* in the order in which they got a permit *)
  holding : list nat;     (* inside the [try] block *)
}.

Definition start (permits : nat) : System :=
  mkSystem (create permits) [] [] [].

Definition step (sys : System) (e : Event) : System :=
  match e with
  | Arrive caller =>
      let '(s, now) := acquire caller (semaphore sys) in
      if now
      then mkSystem s (arrived sys ++ [caller]) (admitted sys ++ [caller])
             (holding sys ++ [caller])
      else mkSystem s (arrived sys ++ [caller]) (admitted sys) (holding sys)
  | Leave caller =>
      let '(s, woken) := release (semaphore sys) in
      let holding := filter (λ c, c ≠ caller) (holding sys) in
      match woken with
      | Some next =>
          mkSystem s (arrived sys) (admitted sys ++ [next]) (holding ++ [next])
      | None => mkSystem s (arrived sys) (admitted sys) holding
      end
  end.

Definition exec (sys : System) (trace : list Event) : System :=
  foldl step sys trace.

(** Every call arrives once, and only a call inside its [try] block
    leaves it. *)
Fixpoint disciplined (sys : System) (trace : list Event) : Prop :=
  match trace with
  | [] => True
  | e :: rest =>
      match e with
      | Arrive caller => caller ∉ arrived sys
      | Leave caller => caller ∈ holding sys
      end
      ∧ disciplined (step sys e) rest
  end.

(** What holds of the callers and the semaphore between two events. *)
Definition fair (n : nat) (sys : System) : Prop :=
  arrived sys = admitted sys ++ waiting (semaphore sys)
  ∧ NoDup (arrived sys)
  ∧ NoDup (holding sys)
  ∧ holding sys ⊆ admitted sys
  ∧ length (holding sys) + permits (semaphore sys) = n
  ∧ (waiting (semaphore sys) ≠ [] → permits (semaphore sys) = 0).

End Semaphore.

(** ** The upload token of the photo library *)

Module Photos.

(** [RATE_LIMITS] *)
Definition maxRetries : nat := 3.
Definition retryDelay : nat := 2000.

(** How one [fetch] of [getUploadToken] ends: an answer with its
    status and text, or a rejected [fetch] with its message. *)
Inductive Reply :=
| Answer (status : nat) (text : jsstring)
| NetworkError (message : jsstring).

(** What [getUploadToken] throws: the message and the [status]
    property, which only the error of a refused answer carries. *)
Record Failure := mkFailure {
  message : jsstring;
  status : option nat;
}.

(** [response.ok] *)
Definition ok (status : nat) : bool := (200 <=? status) && (status <=? 299).

Definition getUploadToken (r : Reply) : jsstring + Failure :=
  match r with
  | Answer st text =>
      if ok st then inl text
      else inr (mkFailure
                  (lit "Failed to get upload token: " ++ JS.show_nat st
                     ++ lit " " ++ text) (Some st))
  | NetworkError m => inr (mkFailure m None)
  end.

(** [error.message?.includes("429") || error.status === 429] *)
Definition rate_limited (e : Failure) : bool :=
  JS.occurs (lit "429") (message e) || bool_decide (status e = Some 429).

Inductive TokenResult :=
| UploadToken (token : jsstring)
| RateLimitExceeded            (* "Rate limit exceeded after 3 retries" *)
| Rethrown (e : Failure)
| NoUploadToken.               (* "Failed to obtain upload token" *)

(** The first [while] loop of [uploadToGooglePhotos], which runs
    while [uploadToken === null && retries <= maxRetries]: the replies
    to the successive requests, the number of retries so far and the
    turns left; the result with the delays waited. *)
Fixpoint token_loop (turns : nat) (replies : nat → Reply) (retries : nat)
  : TokenResult * list nat :=
  match turns with
  | 0 => (NoUploadToken, [])
  | S turns' =>
      match getUploadToken (replies retries) with
      | inl token =>
          (if Server.falsy token then NoUploadToken else UploadToken token, [])
      | inr e =>
          if rate_limited e then
            let retries := retries + 1 in
            if retries <=? maxRetries then
              let backoffDelay := retryDelay * 2 ^ (retries - 1) in
              let '(result, delays) := token_loop turns' replies retries in
              (result, backoffDelay :: delays)
            else (RateLimitExceeded, [])
          else (Rethrown e, [])
      end
  end.

(** The loop from [retries = 0]: it can take [maxRetries + 1] turns. *)
Definition upload_token (replies : nat → Reply) : TokenResult * list nat :=
  token_loop (maxRetries + 1) replies 0.

(** The request of turn [k] was refused for the rate limit. *)
Definition throttled (replies : nat → Reply) (k : nat) : Prop :=
  ∃ e, getUploadToken (replies k) = inr e ∧ rate_limited e = true.

End Photos.

(** ** The upload route for whole photos *)

Module Upload.

(** An entry of [formData.getAll("photos")]; [is_file] is whether it
    has an [arrayBuffer] method. *)
Record Photo := mkPhoto {
  is_file : bool;
  p_name : jsstring;
  p_type : jsstring;
  p_bytes : list Byte.byte;
}.

(** [photo.size] *)
Definition p_size (photo : Photo) : N := N.of_nat (length (p_bytes photo)).

Definition MAX_FILE_SIZE : N := 20 * 1024 * 1024.

Inductive Invalid :=
| InvalidFileObject (position : nat)
| MissingProperties (position : nat)
| ExceedsMaximumSize (name : jsstring)
| NotAnImage (name : jsstring).

(** One turn of the validation loop; [i] counts from 0. *)
Definition validate (i : nat) (photo : Photo) : option Invalid :=
  if negb (is_file photo) then Some (InvalidFileObject (i + 1))
  else if Server.falsy (p_name photo) || Server.falsy (p_type photo)
          || (p_size photo =? 0)%N
  then Some (MissingProperties (i + 1))
  else if (MAX_FILE_SIZE <? p_size photo)%N
  then Some (ExceedsMaximumSize (p_name photo))
  else if negb (JS.starts_with (lit "image/") (p_type photo))
  then Some (NotAnImage (p_name photo))
  else None.

(** The loop returns at the first photo that fails. *)
Fixpoint validate_all (i : nat) (photos : list Photo) : option Invalid :=
  match photos with
  | [] => None
  | photo :: rest =>
      match validate i photo with
      | Some e => Some e
      | None => validate_all (S i) rest
      end
  end.

Inductive UploadResult :=
| Uploaded (filename mediaItemId : jsstring)
| NotUploaded (filename : jsstring).

Definition succeeded (r : UploadResult) : bool :=
  match r with Uploaded _ _ => true | NotUploaded _ => false end.

(** One turn of the upload loop.  The photos that reach it have a
    name and a type, so the fallbacks for them are not taken. *)
Definition upload_one (env : Env) (photo : Photo) : UploadResult :=
  match uploadToGooglePhotos env (p_bytes photo) (p_name photo)
          (p_type photo) with
  | Some mediaItemId => Uploaded (p_name photo) mediaItemId
  | None => NotUploaded (p_name photo)
  end.

Inductive Response :=
| NoPhotosProvided                                 (* 400 *)
| Rejected (reason : Invalid)                      (* 400 *)
| AllFailed (details : list UploadResult)          (* 500 *)
| PartialSuccess (successful total : nat)
                 (results : list UploadResult)     (* 207 *)
| AllUploaded (total : nat) (results : list UploadResult). (* 200 *)

Definition status_code (r : Response) : nat :=
  match r with
  | NoPhotosProvided | Rejected _ => 400
  | AllFailed _ => 500
  | PartialSuccess _ _ _ => 207
  | AllUploaded _ _ => 200
  end.

Record Outcome := mkOutcome {
  response : Response;
  uploads : list Server.MediaUpload;   (* calls made to the photo backend *)
}.

Definition POST (env : Env) (photos : list Photo) : Outcome :=
  if length photos =? 0 then mkOutcome NoPhotosProvided []
  else
    match validate_all 0 photos with
    | Some e => mkOutcome (Rejected e) []
    | None =>
        let uploadResults := upload_one env <$> photos in
        let calls :=
          (λ p, Server.mkMediaUpload (p_bytes p) (p_name p) (p_type p))
            <$> photos in
        let successfulUploads := filter (λ r, succeeded r = true) uploadResults in
        let failedUploads := filter (λ r, succeeded r = false) uploadResults in
        if (0 <? length failedUploads) && (length successfulUploads =? 0)
        then mkOutcome (AllFailed failedUploads) calls
        else if 0 <? length failedUploads
        then mkOutcome (PartialSuccess (length successfulUploads)
                          (length photos) uploadResults) calls
        else mkOutcome (AllUploaded (length photos) uploadResults) calls
    end.

(** A photo that passes every test of the validation loop. *)
Definition acceptable (photo : Photo) : Prop :=
  is_file photo = true ∧ p_name photo ≠ [] ∧ p_type photo ≠ []
  ∧ p_bytes photo ≠ [] ∧ (p_size photo ≤ MAX_FILE_SIZE)%N
  ∧ JS.starts_with (lit "image/") (p_type photo) = true.

(** What the photo backend answers for a photo. *)
Definition backend (env : Env) (photo : Photo) : option jsstring :=
  uploadToGooglePhotos env (p_bytes photo) (p_name photo) (p_type photo).

End Upload.

(** ** Statements about the manager's files *)

(** The file with its status and queue position blanked: what the
    queue operations leave alone. *)
Definition content (f : Client.ChunkedFile) : Client.ChunkedFile :=
  Client.mkChunkedFile (Client.id f) (Client.file f) (Client.name f)
    (Client.size f) (Client.type f) (Client.totalChunks f)
    (Client.uploadedChunks f) Client.Pending (Client.progress f)
    (Client.retries f) (Client.chunkSize f) None (Client.chunks f).

(** Position by position the same files, except that a status may
    have moved to one of [allowed] and the queue positions may
    differ. *)
Definition restated (allowed : list Client.FileStatus)
    (fs fs' : list Client.ChunkedFile) : Prop :=
  Forall2 (λ f f', content f' = content f
                   ∧ (Client.status f' = Client.status f
                      ∨ Client.status f' ∈ allowed)) fs fs'.

(** No chunk of the file has more than [limit] retries on record. *)
Definition within_retries (limit : nat) (f : Client.ChunkedFile) : Prop :=
  Forall (λ c, Client.chunk_retries c ≤ limit) (Client.chunks f).

(** A file that [updateQueuePositions] puts in the queue: one that is
    not completed, failed or uploading, and not the active file. *)
Definition eligible (m : Client.Manager) (f : Client.ChunkedFile) : Prop :=
  Client.waiting f ∧ Some (Client.id f) ≠ Client.activeFileId m.

#[global] Instance eligible_dec m f : Decision (eligible m f).
Proof. unfold eligible. apply _. Defined.

(** The status that [cancelAll] resets to pending. *)
Definition resettable (f : Client.ChunkedFile) : Prop :=
  Client.status f = Client.Uploading ∨ Client.status f = Client.Paused
  ∨ Client.status f = Client.Queued.

#[global] Instance resettable_dec f : Decision (resettable f).
Proof. unfold resettable. apply _. Defined.

(** A file that is neither completed nor failed. *)
Definition unfinished (f : Client.ChunkedFile) : Prop :=
  Client.status f ≠ Client.Completed ∧ Client.status f ≠ Client.Error.

#[global] Instance unfinished_dec f : Decision (unfinished f).
Proof. unfold unfinished. apply _. Defined.

(** The manager works under [options] and no chunk of its files has
    more retries on record than [maxRetries] allows. *)
Definition bounded (options : Client.Options) (m : Client.Manager) : Prop :=
  Client.options m = options
  ∧ Forall (within_retries (Client.maxRetries options)) (Client.files m).

(** What [retryFailed] makes of a chunk. *)
Definition unfail (c : Client.Chunk) : Client.Chunk :=
  if decide (Client.chunk_status c = Client.ChunkError)
  then Client.set_chunk_status Client.ChunkPending c else c.

(** ** A file that failed *)

Module Retry.

(** Two files are added and the first starts; the send of its chunk 0
    fails in transport while chunks 1 and 2 are received, and the
    upload of the file ends in error. *)
Definition failed : list Client.Event :=
  [ Client.AddFiles [Scenario.photo; Trace.other];
    Client.Fire 0 Client.Succeeds;
    Client.Fire 1 Client.Succeeds;
    Client.Fire 2 (Client.Rejects (lit "Failed to fetch"));
    Client.Fire 3 Client.Succeeds;
    Client.Fire 4 Client.Succeeds;
    Client.Fire 5 Client.Succeeds ].

End Retry.

(** ** Chunk requests in flight *)


Module Overlap.

(** Two files are added and the first starts sending its three
    chunks; the manager is paused, the loop of [uploadChunks] wakes up
    and returns, and the completion request is refused while the three
    chunk requests are still on their way; after [resumeAll] the
    second file starts and sends its chunk. *)
Definition trace : list Client.Event :=
  [ Client.AddFiles [Scenario.photo; Trace.other];
    Client.Fire 0 Client.Succeeds;
    Client.Fire 1 Client.Succeeds;
    Client.PauseAll;
    Client.Fire 5 Client.Succeeds;
    Client.Fire 6 (Client.NotOk (lit "Not all chunks received"));
    Client.ResumeAll;
    Client.Fire 8 Client.Succeeds ].

End Overlap.

(** * Facts about strings *)

Section strings.
Implicit Types (sep p s t cur rest : jsstring).

Lemma starts_with_app p s : JS.starts_with p (p ++ s) = true.
Proof.
  induction p as [|a p IH]; [done|]. simpl.
  rewrite bool_decide_eq_true_2 by done. exact IH.
Qed.

Lemma starts_with_inv p s :
  JS.starts_with p s = true → ∃ t, s = p ++ t.
Proof.
  revert s. induction p as [|a p IH]; intros s H; [by exists s|].
  destruct s as [|b s]; [done|]. simpl in H.
  apply andb_prop in H as [Hab H]. apply bool_decide_eq_true_1 in Hab.
  destruct (IH _ H) as [t ->]. exists t. by subst.
Qed.

(** A match that starts inside [s] and before a code unit foreign to
    [sep] lies within [s]. *)
Lemma starts_with_fits sep s c t :
  c ∉ sep → JS.starts_with sep (s ++ c :: t) = true →
  JS.starts_with sep s = true.
Proof.
  revert s. induction sep as [|a sep IH]; intros s Hc H; [done|].
  destruct s as [|b s]; simpl in *.
  - apply andb_prop in H as [Hab _]. apply bool_decide_eq_true_1 in Hab.
    subst. set_solver.
  - apply andb_prop in H as [Hab H]. rewrite Hab. simpl.
    apply IH; [set_solver|done].
Qed.

Lemma occurs_early_app sep p q tail :
  occurs_early sep (p ++ q) tail
  = occurs_early sep p (q ++ tail) || occurs_early sep q tail.
Proof.
  induction p as [|a p IH]; [done|]. simpl.
  rewrite IH, <- (assoc_L (++)). by rewrite orb_assoc.
Qed.

Lemma occurs_early_fits sep s c t :
  c ∉ sep → JS.occurs sep s = false → occurs_early sep s (c :: t) = false.
Proof.
  intros Hc. induction s as [|a s IH]; [done|]. simpl. intros H.
  apply orb_false_elim in H as [H1 H2].
  rewrite IH by done. rewrite orb_false_r.
  destruct (JS.starts_with sep (a :: s ++ c :: t)) eqn:E; [|done].
  apply (starts_with_fits sep (a :: s) c t Hc) in E. congruence.
Qed.

Lemma occurs_early_absent sep c0 sep' p tail :
  sep = c0 :: sep' → c0 ∉ p → occurs_early sep p tail = false.
Proof.
  intros ->. induction p as [|a p IH]; [done|]. intros Hp. simpl.
  rewrite IH by set_solver. rewrite bool_decide_eq_false_2 by set_solver.
  done.
Qed.

Lemma occurs_absent c0 sep' s :
  c0 ∉ s → JS.occurs (c0 :: sep') s = false.
Proof.
  induction s as [|a s IH]; [done|]. intros Hs. simpl.
  rewrite bool_decide_eq_false_2 by set_solver. simpl.
  apply IH. set_solver.
Qed.

Lemma split_go_skip sep t cur rest :
  JS.split_go sep (length t) cur (t ++ rest) = JS.split_go sep 0 cur rest.
Proof. induction t as [|a t IH]; [by destruct rest|]. simpl. exact IH. Qed.

Lemma split_go_first sep p cur rest :
  sep ≠ [] → occurs_early sep p (sep ++ rest) = false →
  JS.split_go sep 0 cur (p ++ sep ++ rest)
  = (reverse cur ++ p) :: JS.split_go sep 0 [] rest.
Proof.
  intros Hsep. revert cur. induction p as [|a p IH]; intros cur H.
  - destruct sep as [|c sep']; [done|]. simpl.
    rewrite bool_decide_eq_true_2 by done. simpl.
    rewrite starts_with_app. rewrite Nat.sub_0_r, app_nil_r.
    by rewrite split_go_skip.
  - simpl in H. apply orb_false_elim in H as [H1 H2].
    cbn [app JS.split_go]. rewrite H1, (IH (a :: cur)) by done.
    by rewrite reverse_cons, <- (assoc_L (++)).
Qed.

Lemma split_go_none sep s cur :
  JS.occurs sep s = false → JS.split_go sep 0 cur s = [reverse cur ++ s].
Proof.
  revert cur. induction s as [|a s IH]; intros cur H.
  - by rewrite app_nil_r.
  - simpl in H. apply orb_false_elim in H as [H1 H2].
    cbn [JS.split_go]. rewrite H1, (IH (a :: cur)) by done.
    by rewrite reverse_cons, <- (assoc_L (++)).
Qed.

Lemma split_first sep p rest :
  sep ≠ [] → occurs_early sep p (sep ++ rest) = false →
  JS.split sep (p ++ sep ++ rest) = p :: JS.split sep rest.
Proof. intros. unfold JS.split. by rewrite split_go_first. Qed.

Lemma split_none sep s :
  JS.occurs sep s = false → JS.split sep s = [s].
Proof. intros. unfold JS.split. by rewrite split_go_none. Qed.

End strings.

(** * Printing and parsing chunk indices *)

Section numbers.

Lemma uint_codes_digits d : Forall digit (JS.uint_codes d).
Proof.
  induction d; simpl; constructor; try done; unfold digit; lia.
Qed.

Lemma digit_not_space c : digit c → JS.is_space c = false.
Proof.
  unfold digit, JS.is_space. intros [H1 H2].
  repeat match goal with
  | |- context [(?a <=? ?b)%N] => destruct (N.leb_spec a b)
  | |- context [(?a =? ?b)%N] => destruct (N.eqb_spec a b)
  end; try reflexivity; lia.
Qed.

Lemma parse_digits_uint_seen d acc :
  JS.parse_digits acc true (JS.uint_codes d) = Some (Nat.of_uint_acc d acc).
Proof.
  revert acc. induction d; intros acc; [done|..];
    cbn [JS.uint_codes JS.parse_digits]; unfold JS.digit_val; simpl;
    rewrite IHd; f_equal; cbn [Nat.of_uint_acc];
    rewrite Nat.tail_mul_spec; f_equal; lia.
Qed.

Lemma parse_digits_uint d acc :
  d ≠ Decimal.Nil →
  JS.parse_digits acc false (JS.uint_codes d) = Some (Nat.of_uint_acc d acc).
Proof.
  destruct d; [done|..]; intros _;
    cbn [JS.uint_codes JS.parse_digits]; unfold JS.digit_val; simpl;
    rewrite parse_digits_uint_seen; f_equal; cbn [Nat.of_uint_acc];
    rewrite Nat.tail_mul_spec; f_equal; lia.
Qed.

Lemma show_nat_digits n : Forall digit (JS.show_nat n).
Proof. apply uint_codes_digits. Qed.

Lemma to_uint_nonnil n : Nat.to_uint n ≠ Decimal.Nil.
Proof.
  intros H. pose proof (DecimalNat.Unsigned.of_to n) as E.
  rewrite H in E. simpl in E. subst n. discriminate H.
Qed.

Lemma show_nat_cons n : ∃ c r, JS.show_nat n = c :: r ∧ digit c.
Proof.
  pose proof (show_nat_digits n) as Hd. unfold JS.show_nat in *.
  pose proof (to_uint_nonnil n) as Hn.
  destruct (Nat.to_uint n); [done|..]; simpl in *;
    eexists _, _; (split; [done|]); by inversion Hd.
Qed.

(** Reading back a printed index. *)
Lemma parseInt10_show_nat n : JS.parseInt10 (JS.show_nat n) = Some (Z.of_nat n).
Proof.
  destruct (show_nat_cons n) as (c & r & E & Hc).
  unfold JS.parseInt10. rewrite E. cbn [JS.trim_start].
  rewrite digit_not_space by done.
  destruct (N.eqb_spec c 45); [unfold digit in Hc; lia|].
  destruct (N.eqb_spec c 43); [unfold digit in Hc; lia|].
  rewrite <- E. unfold JS.show_nat.
  rewrite parse_digits_uint by apply to_uint_nonnil.
  simpl. f_equal. f_equal.
  change (Nat.of_uint_acc (Nat.to_uint n) 0) with (Nat.of_uint (Nat.to_uint n)).
  apply DecimalNat.Unsigned.of_to.
Qed.

Lemma show_Z_of_nat n : JS.show_Z (Z.of_nat n) = JS.show_nat n.
Proof.
  unfold JS.show_Z. destruct (Z.ltb_spec (Z.of_nat n) 0); [lia|].
  by rewrite Nat2Z.id.
Qed.

Lemma digits_not_elem c s : Forall digit s → ¬ digit c → c ∉ s.
Proof. intros Hs Hc Hin. rewrite Forall_forall in Hs. auto. Qed.

End numbers.

(** * Storage keys *)

Section paths.

Lemma lit_uploads : lit "uploads/" = [117; 112; 108; 111; 97; 100; 115; 47]%N.
Proof. reflexivity. Qed.
Lemma lit_chunk : lit "chunk-" = [99; 104; 117; 110; 107; 45]%N.
Proof. reflexivity. Qed.
Lemma lit_slash_chunk : lit "/chunk-" = 47%N :: lit "chunk-".
Proof. reflexivity. Qed.
Lemma lit_bin : lit ".bin" = [46; 98; 105; 110]%N.
Proof. reflexivity. Qed.
Lemma lit_dot : lit "." = [46]%N.
Proof. reflexivity. Qed.

Lemma chunk_path_prefix uploadId z :
  Server.chunk_path uploadId z
  = Server.chunk_prefix uploadId ++ JS.show_Z z ++ lit ".bin".
Proof.
  unfold Server.chunk_path, Server.chunk_prefix.
  by rewrite <- !(assoc_L (++)).
Qed.

Lemma chunk_path_listed uploadId z :
  JS.starts_with (Server.chunk_prefix uploadId) (Server.chunk_path uploadId z)
  = true.
Proof. rewrite chunk_path_prefix. apply starts_with_app. Qed.

Lemma split_go_nonempty sep skip cur s : JS.split_go sep skip cur s ≠ [].
Proof.
  revert skip cur. induction s as [|a s IH]; intros skip cur; [done|].
  simpl. destruct skip; [|apply IH].
  destruct (JS.starts_with sep (a :: s)); [done|apply IH].
Qed.

Lemma printed_index_tail n : (99%N : N) ∉ JS.show_nat n ++ lit ".bin".
Proof.
  rewrite lit_bin. intros [H|H]%elem_of_app.
  - revert H. apply digits_not_elem; [apply show_nat_digits|].
    unfold digit. lia.
  - apply list_elem_of_In in H. simpl in H. lia.
Qed.

(** The index parsed from the key under which the chunk route stores
    chunk [i] is [i]. *)
Lemma chunk_index_path uploadId i t b :
  JS.occurs (lit "chunk-") uploadId = false →
  Server.chunk_index (mkBlob (Server.chunk_path uploadId (Z.of_nat i)) t b)
  = Some (Z.of_nat i).
Proof.
  intros Hid. unfold Server.chunk_index, Server.chunk_path. cbn [pathname].
  rewrite show_Z_of_nat, lit_slash_chunk.
  change (lit "uploads/" ++ uploadId ++ (47%N :: lit "chunk-")
            ++ JS.show_nat i ++ lit ".bin")
    with (lit "uploads/" ++ uploadId ++ [47%N] ++ lit "chunk-"
            ++ JS.show_nat i ++ lit ".bin").
  rewrite !(assoc_L (++) _ _ (lit "chunk-" ++ _)).
  rewrite split_first.
  - rewrite (split_none (lit "chunk-")).
    2:{ rewrite lit_chunk. apply occurs_absent, printed_index_tail. }
    unfold JS.at_index at 2. simpl.
    rewrite lit_dot, lit_bin.
    change [46%N; 98%N; 105%N; 110%N] with ([46%N] ++ [98%N; 105%N; 110%N]).
    rewrite split_first; [| done |].
    + unfold JS.at_index. simpl. apply parseInt10_show_nat.
    + eapply occurs_early_absent; [done|].
      apply digits_not_elem; [apply show_nat_digits|]. unfold digit. lia.
  - by rewrite lit_chunk.
  - rewrite !occurs_early_app.
    rewrite lit_chunk, lit_uploads.
    apply orb_false_intro; [|apply orb_false_intro].
    + eapply occurs_early_absent; [done|]. absent.
    + apply occurs_early_fits; [absent|]. by rewrite <- lit_chunk.
    + eapply occurs_early_absent; [done|]. absent.
Qed.

End paths.

(** * The chunk store *)

Section store.
Implicit Types (st : Store) (path pre : jsstring).

Lemma put_list_prefix pre path t b st :
  BlobStore.list_prefix pre (BlobStore.put path t b st)
  = if JS.starts_with pre path
    then BlobStore.put path t b (BlobStore.list_prefix pre st)
    else BlobStore.list_prefix pre st.
Proof.
  unfold BlobStore.list_prefix.
  induction st as [|b0 st IH]; simpl.
  - rewrite filter_cons, filter_nil. simpl.
    destruct (JS.starts_with pre path); by case_decide.
  - case_bool_decide as E.
    + rewrite !filter_cons. simpl. rewrite E.
      destruct (JS.starts_with pre path) eqn:Hp; repeat case_decide;
        try done. simpl. by rewrite bool_decide_eq_true_2.
    + rewrite !filter_cons, IH.
      destruct (JS.starts_with pre path) eqn:Hp; repeat case_decide;
        try done. simpl. by rewrite bool_decide_eq_false_2.
Qed.


Lemma put_pathnames_absent path t b st :
  path ∉ pathname <$> st →
  pathname <$> BlobStore.put path t b st = (pathname <$> st) ++ [path].
Proof.
  induction st as [|b0 st IH]; simpl; [done|].
  intros Hin. case_bool_decide as E; simpl; [set_solver|].
  f_equal. apply IH. set_solver.
Qed.



Lemma put_lookup path t b st :
  NoDup (pathname <$> st) →
  ∀ x, x ∈ BlobStore.put path t b st →
       pathname x = path → x = mkBlob path t b.
Proof.
  induction st as [|b0 st IH]; simpl; intros Hnd x Hx Hp.
  - by apply list_elem_of_singleton in Hx.
  - apply NoDup_cons in Hnd as [Hb0 Hnd]. case_bool_decide as E.
    + apply elem_of_cons in Hx as [->|Hx]; [done|].
      exfalso. apply Hb0. rewrite E, <- Hp. by apply list_elem_of_fmap_2.
    + apply elem_of_cons in Hx as [->|Hx]; [done|]. by apply IH.
Qed.

End store.

(** * [Array.prototype.sort] *)

Section sort.
Context {A : Type} (cmp : A → A → option Z) (key : A → Z) (P : A → Prop).
Hypothesis cmp_key : ∀ a b, P a → P b → cmp a b = Some (key a - key b)%Z.

Lemma sort_insert_perm x l : Server.sort_insert cmp x l ≡ₚ x :: l.
Proof.
  induction l as [|y l IH]; simpl; [done|].
  destruct (Server.sorts_before cmp y x); [|done].
  rewrite IH. apply Permutation_swap.
Qed.

Lemma array_sort_perm l : Server.array_sort cmp l ≡ₚ l.
Proof.
  induction l as [|x l IH]; simpl; [done|].
  by rewrite sort_insert_perm, IH.
Qed.

Lemma sort_insert_sorted x l :
  P x → Forall P l → StronglySorted (λ a b : A, (key a ≤ key b)%Z) l →
  StronglySorted (λ a b : A, (key a ≤ key b)%Z) (Server.sort_insert cmp x l).
Proof.
  intros Hx Hl Hs. induction Hs as [|y l Hs IH Hy]; simpl.
  - repeat constructor.
  - apply Forall_cons in Hl as [Py Hl].
    unfold Server.sorts_before. rewrite (cmp_key y x) by done.
    destruct (Z.ltb_spec (key y - key x) 0).
    + constructor; [by apply IH|].
      rewrite sort_insert_perm. constructor; [simpl; lia|done].
    + constructor; [by constructor|].
      constructor; [simpl; lia|].
      eapply Forall_impl; [exact Hy|]. intros; simpl in *. lia.
Qed.

Lemma array_sort_sorted l :
  Forall P l → StronglySorted (λ a b : A, (key a ≤ key b)%Z) (Server.array_sort cmp l).
Proof.
  induction l as [|x l IH]; simpl; intros Hl; [constructor|].
  apply Forall_cons in Hl as [Px Hl].
  apply sort_insert_sorted; [done| |by apply IH].
  by rewrite array_sort_perm.
Qed.

Lemma array_sort_keys l :
  Forall P l → StronglySorted Z.le (key <$> Server.array_sort cmp l).
Proof.
  intros Hl. eapply (StronglySorted_fmap key (λ a b : A, (key a ≤ key b)%Z) Z.le); [done|].
  by apply array_sort_sorted.
Qed.

End sort.

Lemma seq_sorted n k : StronglySorted Z.le (Z.of_nat <$> seq k n).
Proof.
  revert k. induction n as [|n IH]; intros k; simpl; constructor; [apply IH|].
  apply Forall_fmap, Forall_forall. intros i Hi%elem_of_seq. simpl. lia.
Qed.

(** A sorted list of keys that is a rearrangement of [0 .. n-1] is
    [0 .. n-1]. *)
Lemma sorted_keys_unique (l : list Z) n :
  StronglySorted Z.le l → l ≡ₚ Z.of_nat <$> seq 0 n → l = Z.of_nat <$> seq 0 n.
Proof.
  intros Hs Hp. eapply (StronglySorted_unique_strong Z.le); [|done|apply seq_sorted|done].
  intros. by apply Z.le_antisymm.
Qed.

(** * Splitting a file and joining the pieces *)

Section slices.
Context (bytes : list Byte.byte) (cs : nat).
Hypothesis cs_pos : 0 < cs.

Lemma piece_take i :
  Client.slice (i * cs) (Nat.min (i * cs + cs) (length bytes)) bytes
  = take cs (drop (i * cs) bytes).
Proof.
  unfold Client.slice.
  destruct (decide (i * cs + cs ≤ length bytes)).
  - f_equal. lia.
  - rewrite !take_ge; [done|rewrite length_drop; lia..].
Qed.

Lemma pieces_concat n :
  concat ((λ i, Client.slice (i * cs) (Nat.min (i * cs + cs) (length bytes))
                  bytes) <$> seq 0 n)
  = take (n * cs) bytes.
Proof.
  induction n as [|n IH]; [done|].
  rewrite seq_S, fmap_app, concat_app, IH. simpl.
  rewrite app_nil_r, piece_take, take_take_drop. f_equal. lia.
Qed.

Lemma ceil_div_covers a : a ≤ Client.ceil_div a cs * cs.
Proof.
  unfold Client.ceil_div.
  pose proof (Nat.div_mod_eq a cs). pose proof (Nat.mod_upper_bound a cs).
  destruct (Nat.eqb_spec (a mod cs) 0); nia.
Qed.

Lemma pieces_whole :
  concat ((λ i, Client.slice (i * cs) (Nat.min (i * cs + cs) (length bytes))
                  bytes) <$> seq 0 (Client.ceil_div (length bytes) cs))
  = bytes.
Proof.
  rewrite pieces_concat. apply take_ge, ceil_div_covers.
Qed.

End slices.

(** * Chunks of one file in the store *)

Section reassembly.
Context (env : Env) (f : Client.ChunkedFile).
Hypothesis id_clean : JS.occurs (lit "chunk-") (Client.id f) = false.
Hypothesis id_nonempty : Client.id f ≠ [].
Hypothesis put_works : put_ok env = true.

Lemma chunk_index_of_path b i :
  pathname b = Server.chunk_path (Client.id f) (Z.of_nat i) →
  Server.chunk_index b = Some (Z.of_nat i).
Proof.
  intros E. rewrite <- (chunk_index_path (Client.id f) i 0 []) by done.
  unfold Server.chunk_index. by rewrite E.
Qed.

Lemma chunk_path_inj i j :
  Server.chunk_path (Client.id f) (Z.of_nat i)
  = Server.chunk_path (Client.id f) (Z.of_nat j) → i = j.
Proof.
  intros E.
  pose proof (chunk_index_path (Client.id f) i 0 [] id_clean) as Hi.
  pose proof (chunk_index_path (Client.id f) j 0 [] id_clean) as Hj.
  rewrite E in Hi. rewrite Hi in Hj. injection Hj. lia.
Qed.

(** The chunk route accepts the request [uploadChunk] builds and stores
    the slice under the key of its index. *)
Lemma chunk_request_stored t st i :
  Server.chunk env t st (Client.chunk_request f i)
  = (BlobStore.put (Server.chunk_path (Client.id f) (Z.of_nat i)) t
       (Client.chunk_bytes f i) st,
     Server.ChunkReceived (Z.of_nat i)
       (Server.chunk_path (Client.id f) (Z.of_nat i))).
Proof.
  unfold Server.chunk, Client.chunk_request. simpl.
  rewrite !parseInt10_show_nat. unfold Server.falsy.
  rewrite bool_decide_eq_false_2 by done. by rewrite put_works.
Qed.

Lemma arrive_NoDup idxs i : NoDup idxs → NoDup (arrive idxs i).
Proof.
  unfold arrive. intros H. case_decide; [done|].
  apply NoDup_app. split_and!; [done| |apply NoDup_singleton].
  intros x Hx ->%list_elem_of_singleton. done.
Qed.

Lemma arrive_elem_of idxs i j : j ∈ arrive idxs i ↔ j ∈ idxs ∨ j = i.
Proof.
  unfold arrive. case_decide.
  - split; [auto|]. intros [?| ->]; done.
  - rewrite elem_of_app, list_elem_of_singleton. done.
Qed.

Lemma holds_put S idxs t i :
  Forall2 (holds_chunk f) S idxs →
  Forall2 (holds_chunk f)
    (BlobStore.put (Server.chunk_path (Client.id f) (Z.of_nat i)) t
       (Client.chunk_bytes f i) S)
    (arrive idxs i).
Proof.
  induction 1 as [|b j S idxs [Hp Hb] HS IH]; unfold arrive in *; simpl.
  - destruct (decide (i ∈ [])) as [[]%elem_of_nil|_]. by repeat constructor.
  - case_bool_decide as E.
    + rewrite Hp in E. apply chunk_path_inj in E. subst j.
      destruct (decide (i ∈ i :: idxs)) as [_|[]]; [|by left].
      by repeat constructor.
    + assert (i ≠ j) by (intros ->; done).
      destruct (decide (i ∈ idxs)) as [Hin|Hin].
      * destruct (decide (i ∈ j :: idxs)) as [_|[]]; [|by right].
        by constructor.
      * destruct (decide (i ∈ j :: idxs)) as [[]%elem_of_cons|_]; [done..|].
        by constructor.
Qed.

(** After the sends, the objects of the upload are the chunks that
    arrived, one object per index. *)
Lemma store_chunks_view sends st S idxs :
  BlobStore.list_prefix (Server.chunk_prefix (Client.id f)) st = S →
  Forall2 (holds_chunk f) S idxs →
  Forall2 (holds_chunk f)
    (BlobStore.list_prefix (Server.chunk_prefix (Client.id f))
       (store_chunks env f sends st))
    (foldl arrive idxs sends.*2).
Proof.
  revert st S idxs. induction sends as [|[t i] sends IH]; intros st S idxs HS Hv.
  - simpl. by rewrite HS.
  - simpl. eapply IH; [reflexivity|].
    rewrite chunk_request_stored. simpl.
    rewrite put_list_prefix, chunk_path_listed, HS. by apply holds_put.
Qed.

Lemma arrivals_NoDup idxs (l : list nat) :
  NoDup idxs → NoDup (foldl arrive idxs l).
Proof.
  revert idxs. induction l as [|i l IH]; intros idxs H; simpl; [done|].
  by apply IH, arrive_NoDup.
Qed.

Lemma arrivals_elem_of idxs (l : list nat) j :
  j ∈ foldl arrive idxs l ↔ j ∈ idxs ∨ j ∈ l.
Proof.
  revert idxs. induction l as [|i l IH]; intros idxs; simpl.
  - rewrite elem_of_nil. naive_solver.
  - rewrite IH, arrive_elem_of, elem_of_cons. naive_solver.
Qed.

(** When every index below [n] arrived, and none beyond, the arrivals
    are a rearrangement of [0 .. n-1]. *)
Lemma arrivals_all (l : list nat) n :
  Forall (λ i, i < n) l → (∀ i, i < n → i ∈ l) →
  foldl arrive [] l ≡ₚ seq 0 n.
Proof.
  intros Hlt Hall. apply NoDup_Permutation.
  - apply arrivals_NoDup, NoDup_nil_2.
  - apply NoDup_seq.
  - intros j. rewrite arrivals_elem_of, elem_of_seq, elem_of_nil.
    rewrite Forall_forall in Hlt. split.
    + intros [[]|H]. specialize (Hlt _ H). simpl in Hlt. lia.
    + intros [_ H]. right. apply Hall. lia.
Qed.

Lemma holds_index_key S idxs :
  Forall2 (holds_chunk f) S idxs → index_key <$> S = Z.of_nat <$> idxs.
Proof.
  induction 1 as [|b i S idxs [Hp Hb] _ IH]; simpl; [done|].
  f_equal; [|done]. unfold index_key. by rewrite (chunk_index_of_path b i).
Qed.

Lemma holds_Forall S idxs :
  Forall2 (holds_chunk f) S idxs →
  Forall (λ b, ∃ i, holds_chunk f b i) S.
Proof. induction 1; constructor; eauto. Qed.

Lemma by_index_key a b :
  (∃ i, holds_chunk f a i) → (∃ i, holds_chunk f b i) →
  Server.by_index a b = Some (index_key a - index_key b)%Z.
Proof.
  intros [i [Hi _]] [j [Hj _]]. unfold Server.by_index, index_key.
  by rewrite (chunk_index_of_path a i), (chunk_index_of_path b j).
Qed.

(** The sorted chunks, once all of [0 .. n-1] are stored: their indices
    ascend from [0] and their bodies are the slices in file order. *)
Lemma sorted_view S idxs n :
  Forall2 (holds_chunk f) S idxs → idxs ≡ₚ seq 0 n →
  let sorted := Server.array_sort Server.by_index S in
  Server.chunk_index <$> sorted = (λ i, Some (Z.of_nat i)) <$> seq 0 n
  ∧ body <$> sorted = Client.chunk_bytes f <$> seq 0 n.
Proof.
  intros Hv Hp sorted.
  assert (Forall (λ b, ∃ i, holds_chunk f b i) sorted) as HP.
  { unfold sorted. rewrite array_sort_perm. by eapply holds_Forall. }
  assert (index_key <$> sorted = Z.of_nat <$> seq 0 n) as Hk.
  { apply sorted_keys_unique.
    - eapply (array_sort_keys _ index_key); [apply by_index_key|].
      by eapply holds_Forall.
    - unfold sorted. rewrite array_sort_perm, (holds_index_key S idxs) by done.
      by rewrite Hp. }
  split.
  - transitivity (Some <$> (index_key <$> sorted)).
    + rewrite <- list_fmap_compose. apply Forall_fmap_ext_1.
      eapply Forall_impl; [exact HP|]. intros b [i [Hi _]]. simpl.
      unfold index_key. by rewrite (chunk_index_of_path b i).
    + by rewrite Hk, <- list_fmap_compose.
  - transitivity ((Client.chunk_bytes f ∘ Z.to_nat) <$> (index_key <$> sorted)).
    + rewrite <- list_fmap_compose. apply Forall_fmap_ext_1.
      eapply Forall_impl; [exact HP|]. intros b [i [Hi Hb]]. simpl.
      unfold index_key. rewrite (chunk_index_of_path b i) by done. simpl.
      by rewrite Nat2Z.id.
    + rewrite Hk, <- list_fmap_compose. apply list_fmap_ext.
      intros ? i _. simpl. by rewrite Nat2Z.id.
Qed.

Lemma chunks_whole :
  well_formed f →
  concat (Client.chunk_bytes f <$> seq 0 (Client.totalChunks f))
  = Client.f_bytes (Client.file f).
Proof.
  intros (Hs & Ht & Hc). rewrite Ht. unfold Client.chunk_bytes.
  rewrite Hs. by apply pieces_whole.
Qed.

End reassembly.

(** * The completion route *)

Lemma init_ok_fields (f : Client.ChunkedFile) :
  Server.init_ok (Server.init (Client.init_request f)) = true →
  Client.name f ≠ [] ∧ Client.type f ≠ [] ∧ Client.size f ≠ 0
  ∧ Client.totalChunks f ≠ 0 ∧ Client.id f ≠ [].
Proof.
  unfold Server.init, Client.init_request, Server.falsy. simpl.
  destruct (Nat.eqb_spec (Client.size f) 0);
    destruct (Nat.eqb_spec (Client.totalChunks f) 0);
    repeat case_bool_decide; simpl; done.
Qed.

Lemma new_chunked_file_well_formed m nf :
  0 < Client.opt_chunkSize (Client.options m) →
  well_formed (Client.new_chunked_file m nf).
Proof. intros H. by split_and!. Qed.

(** The completion route on a store that holds every chunk of [f]. *)
Lemma complete_with_all_chunks env f st idxs :
  JS.occurs (lit "chunk-") (Client.id f) = false →
  Server.init_ok (Server.init (Client.init_request f)) = true →
  well_formed f →
  Forall2 (holds_chunk f)
    (BlobStore.list_prefix (Server.chunk_prefix (Client.id f)) st) idxs →
  idxs ≡ₚ seq 0 (Client.totalChunks f) →
  let sorted := Server.sorted_blobs st (Client.id f) in
  Server.chunk_index <$> sorted
    = (λ i, Some (Z.of_nat i)) <$> seq 0 (Client.totalChunks f)
  ∧ Server.combine_buffers (body <$> sorted) = Client.f_bytes (Client.file f)
  ∧ Server.co_uploads (Server.complete env st (Client.complete_request f))
    = [Server.mkMediaUpload (Client.f_bytes (Client.file f))
         (Server.sanitize (Client.name f)) (Client.type f)].
Proof.
  intros Hid Hinit Hwf Hv Hp sorted.
  destruct (init_ok_fields f Hinit) as (Hn & Ht & _ & Hc & Hi).
  destruct (sorted_view f Hid _ _ _ Hv Hp) as [Hidx Hbody].
  assert (Server.combine_buffers (body <$> sorted)
          = Client.f_bytes (Client.file f)) as Hcomb.
  { unfold Server.combine_buffers, sorted, Server.sorted_blobs.
    rewrite Hbody. by apply chunks_whole. }
  split_and!; [done..|].
  unfold Server.complete, Client.complete_request, Server.falsy. simpl.
  rewrite !bool_decide_eq_false_2 by done.
  destruct (Nat.eqb_spec (Client.totalChunks f) 0); [done|]. simpl.
  apply Forall2_length in Hv as Hlen. apply Permutation_length in Hp as Hlen'.
  rewrite length_seq in Hlen'. rewrite Hlen, Hlen', Nat.eqb_refl. simpl.
  fold (Server.sorted_blobs st (Client.id f)). fold sorted. rewrite Hcomb.
  by destruct (uploadToGooglePhotos env _ _ _).
Qed.

(** C1: whatever the order in which the chunks of a file reached the
    store, the completion route sorts them by the index parsed from
    their key, ascending from 0, and hands the photo backend a byte
    sequence equal to the original file. *)
Theorem complete_reassembles_in_index_order
    (env : Env) (m : Client.Manager) (nf : Client.NewFile)
    (sends : list (Z * nat)) (st : Store) :
  let f := Client.new_chunked_file m nf in
  0 < Client.opt_chunkSize (Client.options m) →
  Server.init_ok (Server.init (Client.init_request f)) = true →
  JS.occurs (lit "chunk-") (Client.id f) = false →
  put_ok env = true →
  BlobStore.list_prefix (Server.chunk_prefix (Client.id f)) st = [] →
  sends.*2 ≡ₚ seq 0 (Client.totalChunks f) →
  let st' := store_chunks env f sends st in
  let sorted := Server.sorted_blobs st' (Client.id f) in
  Server.chunk_index <$> sorted
    = (λ i, Some (Z.of_nat i)) <$> seq 0 (Client.totalChunks f)
  ∧ Server.combine_buffers (body <$> sorted) = Client.f_bytes (Client.file f)
  ∧ Server.co_uploads (Server.complete env st' (Client.complete_request f))
    = [Server.mkMediaUpload (Client.f_bytes (Client.file f))
         (Server.sanitize (Client.name f)) (Client.type f)].
Proof.
  intros f Hcs Hinit Hid Hput Hfresh Hperm st' sorted.
  destruct (init_ok_fields f Hinit) as (_ & _ & _ & _ & Hi).
  eapply (complete_with_all_chunks env f st' (foldl arrive [] sends.*2));
    [done..|by apply new_chunked_file_well_formed| |].
  - eapply (store_chunks_view env f); [done..|]. constructor.
  - apply arrivals_all.
    + rewrite Hperm. apply Forall_forall. intros i Hi'%elem_of_seq. lia.
    + intros i Hi'. rewrite Hperm. apply elem_of_seq. lia.
Qed.

Lemma complete_reassembles_example :
  let f := Scenario.chunked in
  let st' := store_chunks Scenario.env f Scenario.sends [] in
  Scenario.sends.*2 ≡ₚ seq 0 (Client.totalChunks f)
  ∧ Server.combine_buffers (body <$> Server.sorted_blobs st' (Client.id f))
    = Client.f_bytes (Client.file f).
Proof.
  split.
  - apply (Permutation_trans (perm_swap 0 2 [1])). apply perm_skip, perm_swap.
  - refine (proj1 (proj2 (complete_reassembles_in_index_order Scenario.env
      (Client.create Scenario.options) Scenario.photo Scenario.sends []
      _ _ _ _ _ _))); [simpl; lia|reflexivity..|].
    apply (Permutation_trans (perm_swap 0 2 [1])). apply perm_skip, perm_swap.
Defined.





(** * The stored filename *)

Lemma sanitize_lookup fn i c :
  fn !! i = Some c →
  Server.sanitize fn !! i = Some (if Server.allowed_char c then c else 95%N).
Proof. intros H. unfold Server.sanitize. by rewrite list_lookup_fmap, H. Qed.

Lemma underscore_allowed : Server.allowed_char 95 = true.
Proof. reflexivity. Qed.

Lemma sanitize_changes fn c :
  c ∈ fn → Server.allowed_char c = false → Server.sanitize fn ≠ fn.
Proof.
  intros [i Hi]%list_elem_of_lookup Hc E.
  pose proof (sanitize_lookup fn i c Hi) as H. rewrite E, Hi, Hc in H.
  injection H as ->. by rewrite underscore_allowed in Hc.
Qed.

(** C10: on success the filename handed to the photo backend and the
    one returned are the requested filename with every code unit
    outside word characters, white space, dot and hyphen replaced by an
    underscore; a filename with such a code unit comes back changed. *)
Theorem complete_sanitizes_filename
    (env : Env) (st : Store) (r : Server.CompleteRequest)
    (mediaItemId filename : jsstring) (cleaned : nat) :
  Server.co_response (Server.complete env st r)
    = Server.CompleteSuccess mediaItemId filename cleaned →
  filename = Server.sanitize (Server.r_filename r)
  ∧ Server.mu_filename <$> Server.co_uploads (Server.complete env st r)
    = [Server.sanitize (Server.r_filename r)]
  ∧ length (Server.sanitize (Server.r_filename r))
    = length (Server.r_filename r)
  ∧ (∀ i c, Server.r_filename r !! i = Some c →
       Server.sanitize (Server.r_filename r) !! i
       = Some (if JS.is_word c || JS.is_space c || (c =? 46)%N || (c =? 45)%N
               then c else 95%N))
  ∧ (∀ c, c ∈ Server.r_filename r → Server.allowed_char c = false →
       filename ≠ Server.r_filename r).
Proof.
  intros H. unfold Server.complete in *.
  destruct (_ || _ || _ || _); [done|].
  destruct (negb _); [done|]. cbv zeta in *.
  destruct (uploadToGooglePhotos env _ _ _); [|done].
  simpl in *. injection H as <- <- <-.
  split_and!; [done|done|apply length_fmap|apply sanitize_lookup|].
  intros c. apply sanitize_changes.
Qed.

Lemma complete_sanitizes_example :
  let f := Scenario.chunked in
  let st' := store_chunks Scenario.env f Scenario.sends [] in
  Server.co_response (Server.complete Scenario.env st' (Client.complete_request f))
    = Server.CompleteSuccess (lit "media-1") (lit "a_b.png") 3
  ∧ lit "a_b.png" = Server.sanitize (lit "a&b.png").
Proof.
  split; [reflexivity|].
  exact (proj1 (complete_sanitizes_filename Scenario.env
    (store_chunks Scenario.env Scenario.chunked Scenario.sends [])
    (Client.complete_request Scenario.chunked) (lit "media-1") (lit "a_b.png") 3
    eq_refl)).
Defined.

(** * Filters *)

Lemma filter_none {A} (P : A → Prop) `{∀ x, Decision (P x)} (l : list A) :
  Forall (λ x, ¬ P x) l → filter P l = [].
Proof.
  induction 1 as [|x l Hx _ IH]; [done|].
  by rewrite filter_cons, decide_False, IH.
Qed.

Lemma filter_all {A} (P : A → Prop) `{∀ x, Decision (P x)} (l : list A) :
  Forall P l → filter P l = l.
Proof.
  induction 1 as [|x l Hx _ IH]; [done|].
  by rewrite filter_cons, decide_True, IH.
Qed.

Lemma Forall_filter_sub {A} (P Q : A → Prop) `{∀ x, Decision (Q x)}
    (l : list A) :
  Forall P l → Forall P (filter Q l).
Proof.
  rewrite !Forall_forall. intros Hl x [_ Hx]%list_elem_of_filter. auto.
Qed.

(** * The orphan sweep *)

Section sweep.
Context (env : Env) (now : Z).

Lemma lit_uploads_split : lit "uploads/" = lit "uploads" ++ lit "/" ++ [].
Proof. reflexivity. Qed.

(** Every listed blob passes the test of the grouping loop. *)
Lemma listed_grouped groups b :
  JS.starts_with (lit "uploads/") (pathname b) = true →
  Sweep.group_blob groups b = Sweep.group_push (Sweep.group_key b) b groups.
Proof.
  intros [t E]%starts_with_inv. unfold Sweep.group_blob, Sweep.path_parts.
  rewrite E.
  change (lit "uploads/" ++ t) with (lit "uploads" ++ lit "/" ++ t).
  rewrite split_first; [|done|].
  - simpl length. unfold JS.at_index. simpl.
    pose proof (split_go_nonempty (lit "/") 0 [] t) as Hne.
    fold (JS.split (lit "/") t) in Hne.
    destruct (JS.split (lit "/") t); [done|]. simpl.
    first [done | by rewrite bool_decide_eq_true_2].
  - eapply occurs_early_absent; [reflexivity|]. absent.
Qed.

Lemma upload_groups_listed blobs groups :
  Forall (λ b, JS.starts_with (lit "uploads/") (pathname b) = true) blobs →
  foldl Sweep.group_blob groups blobs
  = foldl (λ g b, Sweep.group_push (Sweep.group_key b) b g) groups blobs.
Proof.
  intros H. revert groups. induction H as [|b blobs Hb _ IH]; intros groups.
  - done.
  - simpl. by rewrite listed_grouped, IH.
Qed.

Lemma group_push_keys k b groups :
  (Sweep.group_push k b groups).*1
  = if decide (k ∈ groups.*1) then groups.*1 else groups.*1 ++ [k].
Proof.
  induction groups as [|[k' bs] groups IH]; [done|].
  cbn [Sweep.group_push]. rewrite (fmap_cons fst (k', bs)). cbn [fst].
  case_bool_decide as E; rewrite fmap_cons; cbn [fst].
  - subst k'. clear IH. case_decide as H; [done|]. exfalso. apply H. left.
  - rewrite IH. clear IH.
    case_decide as H1; case_decide as H2; try done.
    + exfalso. apply H2. by right.
    + apply elem_of_cons in H2 as [->|?]; done.
Qed.

Lemma elem_of_group_push k b groups k' bs' :
  NoDup groups.*1 →
  (k', bs') ∈ Sweep.group_push k b groups →
  (k' ≠ k ∧ (k', bs') ∈ groups)
  ∨ (k' = k ∧ ∃ bs, bs' = bs ++ [b]
               ∧ ((k, bs) ∈ groups ∨ (bs = [] ∧ k ∉ groups.*1))).
Proof.
  induction groups as [|[k0 bs0] groups IH]; simpl; intros Hnd Hin.
  - apply list_elem_of_singleton in Hin. injection Hin as -> ->.
    right. split; [done|]. exists []. split; [done|]. right.
    split; [done|]. apply not_elem_of_nil.
  - apply NoDup_cons in Hnd as [Hk0 Hnd]. case_bool_decide as E.
    + subst k0. apply elem_of_cons in Hin as [Hin|Hin].
      * injection Hin as -> ->. right. split; [done|]. exists bs0.
        split; [done|]. left. left.
      * left. split; [|by right]. intros ->. apply Hk0.
        change k with ((k, bs').1). by apply list_elem_of_fmap_2.
    + apply elem_of_cons in Hin as [Hin|Hin].
      * injection Hin as -> ->. left. split; [done|left].
      * destruct (IH Hnd Hin) as [[? ?]|(-> & bs & -> & [?|[-> ?]])].
        -- left. split; [done|by right].
        -- right. split; [done|]. exists bs. split; [done|]. left. by right.
        -- right. split; [done|]. exists []. split; [done|]. right.
           split; [done|]. rewrite elem_of_cons. naive_solver.
Qed.

Lemma grouped_push groups processed b :
  grouped groups processed →
  grouped (Sweep.group_push (Sweep.group_key b) b groups) (processed ++ [b]).
Proof.
  intros (Hnd & Hkeys & Hmem). unfold grouped. split_and!.
  - rewrite group_push_keys. case_decide; [done|].
    apply NoDup_app. split_and!; [done| |apply NoDup_singleton].
    intros x Hx ->%list_elem_of_singleton. done.
  - intros x. rewrite group_push_keys, elem_of_app, list_elem_of_singleton.
    intros [Hx| ->].
    + specialize (Hkeys _ Hx). case_decide; [done|].
      apply elem_of_app. by left.
    + case_decide; [done|]. apply elem_of_app. right. by left.
  - intros k bs Hin. rewrite filter_app, filter_cons, filter_nil.
    destruct (elem_of_group_push _ _ _ _ _ Hnd Hin)
      as [[Hne Hin']|(-> & bs0 & -> & [Hin'|[-> Hnew]])].
    + destruct (Hmem _ _ Hin') as [? ->]. split; [done|].
      rewrite decide_False by done. by rewrite app_nil_r.
    + destruct (Hmem _ _ Hin') as [? ->]. split; [by destruct (filter _ _)|].
      by rewrite decide_True.
    + split; [done|]. rewrite decide_True by done.
      replace (filter (λ b0, Sweep.group_key b0 = Sweep.group_key b) processed)
        with (@nil Blob); [done|].
      symmetry. apply filter_none, Forall_forall.
      intros x Hx E. apply Hnew. rewrite <- E. by apply Hkeys.
Qed.

Lemma grouped_fold blobs groups processed :
  grouped groups processed →
  grouped (foldl (λ g b, Sweep.group_push (Sweep.group_key b) b g) groups blobs)
    (processed ++ blobs).
Proof.
  revert groups processed.
  induction blobs as [|b blobs IH]; intros groups processed H; simpl.
  - by rewrite app_nil_r.
  - change (processed ++ b :: blobs) with (processed ++ [b] ++ blobs).
    rewrite (assoc_L (++) processed [b] blobs). by apply IH, grouped_push.
Qed.

Lemma upload_groups_grouped blobs :
  Forall (λ b, JS.starts_with (lit "uploads/") (pathname b) = true) blobs →
  grouped (Sweep.upload_groups blobs) blobs.
Proof.
  intros H. unfold Sweep.upload_groups. rewrite upload_groups_listed by done.
  apply (grouped_fold blobs [] []). split_and!.
  - constructor.
  - intros b []%elem_of_nil.
  - intros k bs []%elem_of_nil.
Qed.

Lemma group_push_concat k b groups :
  concat (Sweep.group_push k b groups).*2 ≡ₚ concat groups.*2 ++ [b].
Proof.
  induction groups as [|[k' bs] groups IH]; [done|].
  cbn [Sweep.group_push]. case_bool_decide; rewrite !fmap_cons; cbn [snd concat].
  - rewrite <- !(assoc_L (++)). f_equiv. apply Permutation_app_comm.
  - by rewrite IH, (assoc_L (++)).
Qed.

Lemma upload_groups_concat blobs groups :
  concat (foldl (λ g b, Sweep.group_push (Sweep.group_key b) b g) groups blobs).*2
  ≡ₚ concat groups.*2 ++ blobs.
Proof.
  revert groups. induction blobs as [|b blobs IH]; intros groups; simpl.
  - by rewrite app_nil_r.
  - rewrite IH, group_push_concat, <- (assoc_L (++)). done.
Qed.

Lemma oldest_fold acc rest :
  let r := foldl (λ oldest current,
             if (uploadedAt current <? uploadedAt oldest)%Z
             then current else oldest) acc rest in
  r ∈ acc :: rest ∧ (uploadedAt r ≤ uploadedAt acc)%Z
  ∧ Forall (λ b, (uploadedAt r ≤ uploadedAt b)%Z) rest.
Proof.
  revert acc. induction rest as [|c rest IH]; intros acc; simpl.
  - split_and!; [left|lia|constructor].
  - destruct (Z.ltb_spec (uploadedAt c) (uploadedAt acc)) as [Hlt|Hge].
    + destruct (IH c) as (Hin & Hle & Hall). split_and!.
      * right. done.
      * lia.
      * by constructor.
    + destruct (IH acc) as (Hin & Hle & Hall). split_and!.
      * apply elem_of_cons in Hin as [->|Hin]; [left|right; by right].
      * done.
      * constructor; [lia|done].
Qed.

Lemma oldest_blob_spec bs oldest :
  Sweep.oldest_blob bs = Some oldest →
  oldest ∈ bs ∧ Forall (λ b, (uploadedAt oldest ≤ uploadedAt b)%Z) bs.
Proof.
  destruct bs as [|first rest]; [done|]. simpl. intros [= <-].
  destruct (oldest_fold first rest) as (Hin & Hle & Hall).
  split; [done|]. by constructor.
Qed.

(** The test of the loop on a whole group decides [orphaned] for each
    of its members. *)
Lemma sweep_test blobs bs oldest b :
  group_members blobs b = bs →
  Sweep.oldest_blob bs = Some oldest →
  (Sweep.ORPHAN_THRESHOLD <? now - uploadedAt oldest)%Z = true
  ↔ orphaned now blobs b.
Proof.
  intros Hm [Hin Hmin]%oldest_blob_spec. unfold orphaned. rewrite Hm.
  rewrite Z.ltb_lt, Exists_exists. split.
  - intros H. exists oldest. done.
  - intros (o & Ho & Homin & Hage).
    rewrite Forall_forall in Hmin, Homin.
    specialize (Hmin _ Ho). specialize (Homin _ Hin). simpl in *. lia.
Qed.

Lemma delete_all_app bs1 bs2 st :
  Server.delete_all env (bs1 ++ bs2) st
  = Server.delete_all env bs2 (Server.delete_all env bs1 st).
Proof. unfold Server.delete_all. apply foldl_app. Qed.

Lemma delete_all_spec bs st :
  Server.delete_all env bs st
  = filter (λ x, pathname x ∉
               pathname <$> filter (λ b, del_ok env (pathname b) = true) bs) st.
Proof.
  revert st. induction bs as [|b bs IH]; intros st.
  - simpl. symmetry. apply filter_all, Forall_forall. intros x _.
    apply not_elem_of_nil.
  - unfold Server.delete_all in *. simpl. rewrite IH, filter_cons.
    destruct (del_ok env (pathname b)) eqn:E.
    + rewrite decide_True by done. unfold BlobStore.del.
      rewrite list_filter_filter. apply list_filter_iff. intros x.
      rewrite fmap_cons, not_elem_of_cons. naive_solver.
    + by rewrite decide_False by done.
Qed.

Lemma sweep_fold blobs groups t :
  (∀ g, g ∈ groups → g.2 ≠ [] ∧ ∀ b, b ∈ g.2 → group_members blobs b = g.2) →
  let t' := foldl (Sweep.sweep_group env now) t groups in
  Sweep.totalDeleted t'
  = Sweep.totalDeleted t
    + length (filter (λ b, orphaned now blobs b ∧ del_ok env (pathname b) = true)
                (concat groups.*2))
  ∧ Sweep.totalFailed t'
    = Sweep.totalFailed t
      + length (filter (λ b, orphaned now blobs b
                             ∧ del_ok env (pathname b) = false)
                  (concat groups.*2))
  ∧ Sweep.t_store t'
    = Server.delete_all env (filter (orphaned now blobs) (concat groups.*2))
        (Sweep.t_store t).
Proof.
  revert t. induction groups as [|[k bs] groups IH]; intros t Hg.
  - simpl. split_and!; [lia|lia|done].
  - destruct (Hg (k, bs)) as [Hne Hmem]; [left|]. simpl in Hne, Hmem.
    cbn [foldl]. rewrite fmap_cons. cbn [snd concat].
    rewrite !filter_app, !length_app, delete_all_app.
    destruct (IH (Sweep.sweep_group env now t (k, bs)))
      as (Hd & Hf & Hs); [intros g ?; apply Hg; by right|].
    cbv zeta in Hd, Hf, Hs. rewrite Hd, Hf, Hs. clear Hd Hf Hs IH.
    unfold Sweep.sweep_group. cbn [snd].
    destruct (Sweep.oldest_blob bs) as [oldest|] eqn:Ho;
      [|by destruct bs].
    destruct (Sweep.ORPHAN_THRESHOLD <? now - uploadedAt oldest)%Z eqn:Ht.
    + assert (Forall (orphaned now blobs) bs) as Hall.
      { apply Forall_forall. intros b Hb.
        by apply (sweep_test blobs bs oldest b (Hmem _ Hb) Ho). }
      simpl. rewrite (filter_all (orphaned now blobs) bs) by done.
      rewrite (list_filter_iff
                 (λ b, orphaned now blobs b ∧ del_ok env (pathname b) = true)
                 (λ b, del_ok env (pathname b) = true ∧ orphaned now blobs b))
        by naive_solver.
      rewrite (list_filter_iff
                 (λ b, orphaned now blobs b ∧ del_ok env (pathname b) = false)
                 (λ b, del_ok env (pathname b) = false ∧ orphaned now blobs b))
        by naive_solver.
      rewrite <- !list_filter_filter.
      rewrite !(filter_all (orphaned now blobs) (filter _ bs))
        by (by apply Forall_filter_sub).
      split_and!; [lia|lia|done].
    + assert (Forall (λ b, ¬ orphaned now blobs b) bs) as Hall.
      { apply Forall_forall. intros b Hb Hor.
        apply (sweep_test blobs bs oldest b (Hmem _ Hb) Ho) in Hor. congruence. }
      rewrite (filter_none (orphaned now blobs) bs) by done.
      rewrite !(filter_none _ bs).
      * simpl. split_and!; [lia|lia|done].
      * eapply Forall_impl; [exact Hall|]. naive_solver.
      * eapply Forall_impl; [exact Hall|]. naive_solver.
Qed.

Lemma group_key_chunk_path uploadId i t bytes :
  (47%N : N) ∉ uploadId →
  Sweep.group_key (mkBlob (Server.chunk_path uploadId i) t bytes) = uploadId.
Proof.
  intros Hid. unfold Sweep.group_key, Sweep.path_parts, Server.chunk_path.
  cbn [pathname].
  change (lit "uploads/" ++ uploadId ++ lit "/chunk-" ++ JS.show_Z i ++ lit ".bin")
    with (lit "uploads" ++ lit "/" ++ uploadId ++ lit "/"
            ++ (lit "chunk-" ++ JS.show_Z i ++ lit ".bin")).
  rewrite split_first; [|done|].
  - rewrite split_first; [done|done|].
    eapply occurs_early_absent; [reflexivity|done].
  - eapply occurs_early_absent; [reflexivity|]. absent.
Qed.

End sweep.

Lemma group_key_pathname b b' :
  pathname b = pathname b' → Sweep.group_key b = Sweep.group_key b'.
Proof. unfold Sweep.group_key, Sweep.path_parts. by intros ->. Qed.

Lemma orphaned_pathname now blobs b b' :
  pathname b = pathname b' → orphaned now blobs b ↔ orphaned now blobs b'.
Proof.
  intros E. unfold orphaned, group_members.
  by rewrite (group_key_pathname b b' E).
Qed.

Lemma grouped_uniform groups blobs g :
  grouped groups blobs → g ∈ groups →
  g.2 ≠ [] ∧ ∀ b, b ∈ g.2 → group_members blobs b = g.2.
Proof.
  intros (_ & _ & Hmem) Hg. destruct g as [k bs].
  destruct (Hmem k bs Hg) as [Hne Hbs]. split; [done|].
  simpl. intros b Hb. rewrite Hbs in Hb.
  apply list_elem_of_filter in Hb as [Hk _]. unfold group_members.
  by rewrite Hk, <- Hbs.
Qed.

(** C9: the sweep groups the stored chunk objects by the upload id in
    their key; an object is deleted exactly when it is listed, the
    oldest object of its group is older than 24 hours and its deletion
    goes through; every other object stays; the counts returned are the
    numbers of deletions that succeeded and that failed. *)
Theorem sweep_deletes_orphaned_groups (env : Env) (now : Z) (st : Store) :
  let blobs := BlobStore.list_prefix (lit "uploads/") st in
  let result := Sweep.cleanup_orphaned env now st in
  (∀ b, b ∈ result.1 ↔
        b ∈ st ∧ ¬ (b ∈ blobs ∧ orphaned now blobs b
                    ∧ del_ok env (pathname b) = true))
  ∧ Sweep.deletedCount result.2
    = length (filter (λ b, orphaned now blobs b
                           ∧ del_ok env (pathname b) = true) blobs)
  ∧ default 0 (Sweep.failedCount result.2)
    = length (filter (λ b, orphaned now blobs b
                           ∧ del_ok env (pathname b) = false) blobs)
  ∧ (Sweep.failedCount result.2 = None ↔ blobs = [])
  ∧ (∀ uploadId i t bytes, (47%N : N) ∉ uploadId →
       Sweep.group_key (mkBlob (Server.chunk_path uploadId i) t bytes)
       = uploadId).
Proof.
  intros blobs result. unfold result, Sweep.cleanup_orphaned. fold blobs.
  assert (Forall (λ b, JS.starts_with (lit "uploads/") (pathname b) = true)
            blobs) as Hlisted.
  { apply Forall_forall. by intros b [? _]%list_elem_of_filter. }
  destruct (Nat.eqb_spec (length blobs) 0) as [Hlen|Hlen].
  - apply nil_length_inv in Hlen. rewrite Hlen. simpl.
    split_and!; [|done..|intros; by apply group_key_chunk_path].
    intros b. rewrite elem_of_nil. naive_solver.
  - pose proof (upload_groups_grouped blobs Hlisted) as Hg.
    destruct (sweep_fold env now blobs (Sweep.upload_groups blobs)
                (Sweep.mkTotals st 0 0)) as (Hd & Hf & Hs).
    { intros g. by apply grouped_uniform. }
    cbv zeta in Hd, Hf, Hs. cbn [fst snd Sweep.deletedCount Sweep.failedCount].
    assert (concat (Sweep.upload_groups blobs).*2 ≡ₚ blobs) as Hperm.
    { unfold Sweep.upload_groups. rewrite upload_groups_listed by done.
      by rewrite upload_groups_concat. }
    split_and!.
    + intros b. rewrite Hs, delete_all_spec. cbn [Sweep.t_store].
      rewrite list_elem_of_filter, Hperm.
      rewrite list_elem_of_fmap.
      split.
      * intros [Hnot Hin]. split; [done|]. intros (Hb & Hor & Hdel).
        apply Hnot. exists b. split; [done|].
        apply list_elem_of_filter. split; [done|].
        by apply list_elem_of_filter.
      * intros [Hin Hnot]. split; [|done]. intros (b' & Hp & Hb').
        apply list_elem_of_filter in Hb' as [Hdel Hb'].
        apply list_elem_of_filter in Hb' as [Hor Hb'].
        apply Hnot. split_and!.
        -- apply list_elem_of_filter. split; [|done].
           rewrite Hp. rewrite Forall_forall in Hlisted. by apply Hlisted.
        -- by apply (orphaned_pathname now blobs b b').
        -- by rewrite Hp.
    + rewrite Hd, Hperm. done.
    + simpl. rewrite Hf, Hperm. done.
    + split; [done|]. intros E. by rewrite E in Hlen.
    + intros. by apply group_key_chunk_path.
Qed.

(** * The file list of the manager *)

Section files.
Import Client.
Implicit Types (m : Manager) (fs : list ChunkedFile) (f : ChunkedFile).

Lemma calm_refl fs : calm fs fs.
Proof. apply Forall2_same_length_lookup. split; [done|]. intros; by simplify_eq. Qed.

Lemma calm_trans fs1 fs2 fs3 : calm fs1 fs2 → calm fs2 fs3 → calm fs1 fs3.
Proof.
  unfold calm. intros H12 H23. eapply Forall2_trans; [|done..].
  simpl. intros f1 f2 f3 [E1 U1] [E2 U2]. split; [congruence|auto].
Qed.

Lemma calm_ids fs fs' : calm fs fs' → id <$> fs' = id <$> fs.
Proof. induction 1 as [|f f' fs fs' [E _] _ IH]; simpl; [done|]. by f_equal. Qed.

Lemma calm_map_file fileId g fs :
  (∀ f, id (g f) = id f ∧ (status (g f) = Uploading → status f = Uploading)) →
  calm fs (map_file fileId g fs).
Proof.
  intros Hg. unfold calm, map_file.
  induction fs as [|f fs IH]; [constructor|].
  rewrite fmap_cons. constructor; [|done].
  case_bool_decide; [apply Hg|done].
Qed.

Lemma calm_no_uploading fs fs' : calm fs fs' → no_uploading fs → no_uploading fs'.
Proof.
  unfold no_uploading. induction 1 as [|f f' fs fs' [_ U] _ IH]; [done|].
  intros [Hf Hfs]%Forall_cons. constructor; [naive_solver|auto].
Qed.

Lemma calm_uploading_ids fs fs' x :
  calm fs fs' →
  Forall (λ f, status f = Uploading → id f = x) fs →
  Forall (λ f, status f = Uploading → id f = x) fs'.
Proof.
  induction 1 as [|f f' fs fs' [E U] _ IH]; [done|].
  intros [Hf Hfs]%Forall_cons. constructor; [|auto].
  intros H. rewrite E. auto.
Qed.

Lemma same_control_refl m : same_control m m.
Proof. by split_and!. Qed.

Lemma same_control_trans m1 m2 m3 :
  same_control m1 m2 → same_control m2 m3 → same_control m1 m3.
Proof. unfold same_control. intros (?&?&?&?) (?&?&?&?). split_and!; congruence. Qed.

(** An operation that leaves the control fields alone and the file list
    calm keeps the invariant. *)
Lemma Inv_calm m m' :
  Inv m → same_control m m' → calm (files m) (files m') → Inv m'.
Proof.
  intros [Hnd Hs] (Hr & Hp & Ha & Hc) Hcalm. split.
  - by rewrite (calm_ids _ _ Hcalm).
  - destruct Hs as [? ? ? ? Hu|r ? ? ? ? ? Hu|r ? ? ? ? ? Hu].
    + apply Idle; try congruence. by eapply calm_no_uploading.
    + apply (Draining _ r); try congruence. by eapply calm_no_uploading.
    + apply (Active _ r); try congruence. by eapply calm_uploading_ids.
Qed.

Lemma quiet_refl m : quiet m m.
Proof. split; [apply same_control_refl|apply calm_refl]. Qed.

Lemma quiet_trans m1 m2 m3 : quiet m1 m2 → quiet m2 m3 → quiet m1 m3.
Proof.
  intros [? ?] [? ?]. split; [by eapply same_control_trans|by eapply calm_trans].
Qed.

Lemma Inv_quiet m m' : Inv m → quiet m m' → Inv m'.
Proof. intros H [? ?]. by eapply Inv_calm. Qed.

(** A change of the fields outside the control part and the file list. *)
Lemma quiet_same m m' :
  same_control m m' → files m' = files m → quiet m m'.
Proof. intros ? E. split; [done|]. rewrite E. apply calm_refl. Qed.

Lemma quiet_map_file fileId g m :
  (∀ f, id (g f) = id f ∧ (status (g f) = Uploading → status f = Uploading)) →
  quiet m (set_files (map_file fileId g (files m)) m).
Proof. intros Hg. split; [by split_and!|]. by apply calm_map_file. Qed.

Lemma quiet_updateFileStatus fileId s q m :
  s ≠ Uploading → quiet m (updateFileStatus fileId s q m).
Proof. intros Hs. apply quiet_map_file. intros f. by split. Qed.

Lemma quiet_updateChunkStatus fileId i s m :
  quiet m (updateChunkStatus fileId i s m).
Proof. apply quiet_map_file. intros f. by split. Qed.

Lemma quiet_updateChunkRetries fileId i n m :
  quiet m (updateChunkRetries fileId i n m).
Proof. apply quiet_map_file. intros f. by split. Qed.

Lemma quiet_updateFileProgress fileId m :
  quiet m (updateFileProgress fileId m).
Proof.
  unfold updateFileProgress. destruct (find_file _ _); [|apply quiet_refl].
  apply quiet_map_file. intros f. by split.
Qed.

Lemma quiet_add_task t m : quiet m (add_task t m).
Proof. by apply quiet_same. Qed.

Lemma quiet_log_request r m : quiet m (log_request r m).
Proof. by apply quiet_same. Qed.

Lemma quiet_set_tasks v m : quiet m (set_tasks v m).
Proof. by apply quiet_same. Qed.

Lemma quiet_set_uploadQueue v m : quiet m (set_uploadQueue v m).
Proof. by apply quiet_same. Qed.

Lemma quiet_set_paused v m : quiet m (set_paused v m).
Proof. by apply quiet_same. Qed.

Lemma quiet_enqueue i f m : quiet m (enqueue i f m).
Proof.
  unfold enqueue.
  eapply quiet_trans; [apply (quiet_set_uploadQueue (uploadQueue m ++ [id f]) m)|].
  eapply quiet_trans; [|apply quiet_map_file; intros g; by split].
  case_bool_decide; [by apply quiet_updateFileStatus|apply quiet_refl].
Qed.

Lemma quiet_enqueue_all i q m : quiet m (enqueue_all i q m).
Proof.
  revert i m. induction q as [|f q IH]; intros i m; [apply quiet_refl|].
  simpl. eapply quiet_trans; [apply quiet_enqueue|apply IH].
Qed.

Lemma quiet_updateQueuePositions m : quiet m (updateQueuePositions m).
Proof.
  unfold updateQueuePositions.
  eapply quiet_trans; [apply (quiet_set_uploadQueue [] m)|].
  eapply quiet_trans; [apply quiet_enqueue_all|].
  destruct (_ && _); [apply quiet_add_task|apply quiet_refl].
Qed.

Lemma quiet_uploadChunk r fileId i m : quiet m (uploadChunk r fileId i m).
Proof.
  unfold uploadChunk. destruct (find_file _ _); [|apply quiet_add_task].
  eapply quiet_trans; [apply quiet_updateChunkStatus|].
  eapply quiet_trans; [apply quiet_log_request|apply quiet_add_task].
Qed.

Lemma quiet_fill r fileId q a m : quiet m (fill r fileId q a m).2.
Proof.
  revert a m. induction q as [|c q IH]; intros a m; simpl; [apply quiet_refl|].
  destruct (_ <? _); [|apply quiet_refl].
  eapply quiet_trans; [apply quiet_uploadChunk|apply IH].
Qed.

Lemma quiet_reset_failed_chunks fileId i cs m :
  quiet m (reset_failed_chunks fileId i cs m).
Proof.
  revert i m. induction cs as [|c cs IH]; intros i m; simpl; [apply quiet_refl|].
  eapply quiet_trans; [|apply IH].
  case_bool_decide; [apply quiet_updateChunkStatus|apply quiet_refl].
Qed.

Lemma quiet_retry_files l m : quiet m (foldl retry_file m l).
Proof.
  revert m. induction l as [|f l IH]; intros m; simpl; [apply quiet_refl|].
  eapply quiet_trans; [|apply IH]. unfold retry_file.
  eapply quiet_trans; [|apply quiet_reset_failed_chunks].
  by apply quiet_updateFileStatus.
Qed.

End files.

(** * One upload at a time *)

Section control.
Import Client.
Implicit Types (m : Manager) (fs : list ChunkedFile) (f : ChunkedFile).

Lemma NoDup_filter_ids (P : ChunkedFile → Prop) `{∀ f, Decision (P f)} fs :
  NoDup (id <$> fs) → NoDup (id <$> filter P fs).
Proof.
  intros Hnd. eapply sublist_NoDup; [exact Hnd|apply fmap_sublist, sublist_filter].
Qed.

Lemma Forall_filter_keep {A} (P Q : A → Prop) `{∀ x, Decision (Q x)}
    (l : list A) :
  Forall P l → Forall P (filter Q l).
Proof.
  rewrite !Forall_forall. intros Hl x [_ Hx]%list_elem_of_filter. auto.
Qed.

Lemma Inv_filter (P : ChunkedFile → Prop) `{∀ f, Decision (P f)} m :
  Inv m → Inv (set_files (filter P (files m)) m).
Proof.
  intros [Hnd Hs]. split; [by apply NoDup_filter_ids|].
  destruct Hs as [? ? ? ? Hu|r ? ? ? ? ? Hu|r ? ? ? ? ? Hu].
  - apply Idle; try done. by apply Forall_filter_keep.
  - apply (Draining _ r); try done. by apply Forall_filter_keep.
  - apply (Active _ r); try done. by apply Forall_filter_keep.
Qed.

(** A change of the stage of the runs, their identity left alone. *)
Lemma Inv_map_runs (g : Run → Run) m :
  (∀ r, run_id (g r) = run_id r ∧ run_file (g r) = run_file r
        ∧ aborted (g r) = aborted r) →
  Inv m → Inv (set_runs (g <$> runs m) m).
Proof.
  intros Hg [Hnd Hs]. split; [done|].
  destruct Hs as [E ? ? ? Hu|r E ? ? ? ? Hu|r E ? ? ? ? Hu];
    destruct (Hg r) as (Hi & Hf & Ha) || idtac.
  - apply Idle; try done. simpl. by rewrite E.
  - apply (Draining _ (g r)); try done; [simpl; by rewrite E|congruence].
  - apply (Active _ (g r)); simpl; rewrite ?E, ?Hi, ?Hf; try done. congruence.
Qed.

Lemma Inv_set_stage r s m : Inv m → Inv (set_stage r s m).
Proof.
  apply Inv_map_runs. intros run. by case_bool_decide.
Qed.

Lemma Inv_update_locals r g m : Inv m → Inv (update_locals r g m).
Proof.
  intros H. unfold update_locals. destruct (find_run r m) as [run|]; [|done].
  destruct (stage run); try done. by apply Inv_set_stage.
Qed.

Lemma find_run_Some r m run :
  find_run r m = Some run → run ∈ runs m ∧ run_id run = r.
Proof.
  unfold find_run. intros H. apply find_some in H as [Hin Hid].
  apply list_elem_of_In in Hin. by apply bool_decide_eq_true_1 in Hid.
Qed.

(** [processQueue] goes on after its [uploadFile] returned, with no run
    left, no controller registered and no file [Uploading]. *)
Lemma Inv_resume m :
  NoDup (id <$> files m) → runs m = [] → abortControllers m = ∅ →
  no_uploading (files m) → Inv (resume_processQueue m).
Proof.
  intros Hnd Hr Hc Hu. unfold resume_processQueue.
  destruct (quiet_updateQueuePositions
              (set_activeFileId None
                 (set_uploadQueue (tail (uploadQueue m)) m)))
    as [(Er & Ep & Ea & Ec) Hcalm].
  simpl in Er, Ep, Ea, Ec, Hcalm. split.
  - simpl. by rewrite (calm_ids _ _ Hcalm).
  - apply Idle; simpl; [congruence|done|congruence|congruence|].
    by eapply calm_no_uploading.
Qed.

Lemma Inv_end_run r m run :
  NoDup (id <$> files m) → runs m = [run] → run_id run = r →
  abortControllers m = ∅ → no_uploading (files m) → Inv (end_run r m).
Proof.
  intros Hnd Hr Hid Hc Hu. unfold end_run. apply Inv_resume; try done.
  simpl. rewrite Hr, filter_cons, filter_nil. by rewrite decide_False by auto.
Qed.

Lemma status_set_no_uploading x s q fs :
  s ≠ Uploading →
  Forall (λ f, status f = Uploading → id f = x) fs →
  no_uploading (map_file x (with_status s q) fs).
Proof.
  intros Hs Hfs. unfold no_uploading, map_file. apply Forall_fmap.
  eapply Forall_impl; [exact Hfs|]. intros f Hf. simpl.
  case_bool_decide; [done|]. intros Hu. auto.
Qed.

(** The run ends and its file gets a final status. *)
Lemma Inv_finish m run s q :
  Inv m → run ∈ runs m → s ≠ Uploading →
  Inv (end_run (run_id run)
         (set_abortControllers
            (delete (id (run_file run)) (abortControllers m))
            (updateFileStatus (id (run_file run)) s q m))).
Proof.
  intros [Hnd Hs] Hin Hne.
  destruct (quiet_updateFileStatus (id (run_file run)) s q m Hne)
    as [_ Hcalm].
  destruct Hs as [E ? ? ? Hu|r E ? ? ? Hc Hu|r E ? ? ? Hc Hu];
    rewrite E in Hin;
    [by apply elem_of_nil in Hin|apply list_elem_of_singleton in Hin as ->..].
  - apply (Inv_end_run _ _ r); [|done|done| |].
    + change (NoDup (id <$> files (updateFileStatus (id (run_file r)) s q m))).
      by rewrite (calm_ids _ _ Hcalm).
    + simpl. rewrite Hc. apply delete_empty.
    + change (no_uploading (files (updateFileStatus (id (run_file r)) s q m))).
      by eapply calm_no_uploading.
  - apply (Inv_end_run _ _ r); [|done|done| |].
    + change (NoDup (id <$> files (updateFileStatus (id (run_file r)) s q m))).
      by rewrite (calm_ids _ _ Hcalm).
    + simpl. rewrite Hc. apply delete_singleton_eq.
    + by apply status_set_no_uploading.
Qed.

Lemma Inv_fail_upload run message m :
  Inv m → run ∈ runs m → Inv (fail_upload run message m).
Proof.
  intros. by apply (Inv_finish m run Error (Some (Message message))).
Qed.

Lemma Inv_finish_upload run m :
  Inv m → run ∈ runs m → Inv (finish_upload run m).
Proof. intros. by apply (Inv_finish m run Completed None). Qed.

(** The run ends on an [AbortError]. *)
Lemma Inv_abandon m run :
  Inv m → run ∈ runs m → aborted run = true → Inv (end_run (run_id run) m).
Proof.
  intros [Hnd Hs] Hin Ha.
  destruct Hs as [E ? ? ? Hu|r E ? ? ? Hc Hu|r E ? ? ? Hc Hu];
    rewrite E in Hin;
    [by apply elem_of_nil in Hin|apply list_elem_of_singleton in Hin as ->..].
  - by eapply Inv_end_run.
  - congruence.
Qed.

Lemma Inv_start_complete run m : Inv m → Inv (start_complete run m).
Proof.
  intros H. unfold start_complete.
  eapply Inv_quiet; [|apply quiet_add_task].
  destruct (aborted run); [|eapply Inv_quiet; [|apply quiet_log_request]];
    by apply Inv_set_stage.
Qed.

Lemma Inv_uploadChunks_loop run q a res m :
  Inv m → run ∈ runs m → Inv (uploadChunks_loop run q a res m).
Proof.
  intros H Hin. unfold uploadChunks_loop.
  destruct (_ || _).
  - destruct (_ || _); [by apply Inv_start_complete|].
    destruct (fill _ _ _ _ _) as [[q' a'] m'] eqn:E.
    eapply Inv_quiet; [|apply quiet_add_task]. apply Inv_set_stage.
    eapply Inv_quiet; [exact H|].
    pose proof (quiet_fill (run_id run) (id (run_file run)) q a m) as Hq.
    by rewrite E in Hq.
  - destruct (_ <? _); [by apply Inv_fail_upload|by apply Inv_start_complete].
Qed.

Lemma Inv_uploadChunks run m :
  Inv m → run ∈ runs m → Inv (uploadChunks run m).
Proof.
  intros. unfold uploadChunks.
  destruct (find_file _ _); [by apply Inv_uploadChunks_loop|].
  by apply Inv_start_complete.
Qed.

Lemma Inv_init_settled run o m :
  Inv m → run ∈ runs m → Inv (init_settled run o m).
Proof.
  intros. unfold init_settled. destruct (aborted run) eqn:E.
  - by apply Inv_abandon.
  - destruct o; [by apply Inv_uploadChunks..|by apply Inv_fail_upload
                |by apply Inv_fail_upload].
Qed.

Lemma Inv_complete_settled run o m :
  Inv m → run ∈ runs m → Inv (complete_settled run o m).
Proof.
  intros. unfold complete_settled. destruct (aborted run) eqn:E.
  - by apply Inv_abandon.
  - destruct o; [by apply Inv_finish_upload|by apply Inv_fail_upload..].
Qed.

End control.

Section operations.
Import Client.
Implicit Types (m : Manager) (fs : list ChunkedFile) (f : ChunkedFile).

Lemma find_file_Some x fs f : find_file x fs = Some f → f ∈ fs ∧ id f = x.
Proof.
  unfold find_file. intros H. apply find_some in H as [Hin Hid].
  apply list_elem_of_In in Hin. by apply bool_decide_eq_true_1 in Hid.
Qed.

Lemma map_file_ids x g fs :
  (∀ f, id (g f) = id f) → id <$> map_file x g fs = id <$> fs.
Proof.
  intros Hg. unfold map_file. rewrite <- list_fmap_compose.
  apply list_fmap_ext. intros i f _. simpl. by case_bool_decide.
Qed.

(** [uploadFile], called by an idle [processQueue] for the head of the
    queue. *)
Lemma Inv_uploadFile next m :
  NoDup (id <$> files m) → runs m = [] → abortControllers m = ∅ →
  no_uploading (files m) →
  activeFileId m = Some next → processingQueue m = true →
  Inv (uploadFile next m).
Proof.
  intros Hnd Hr Hc Hu Ha Hp. unfold uploadFile.
  destruct (find_file next (files m)) as [f|] eqn:Ef; [|by apply Inv_resume].
  destruct (_ || _); [by apply Inv_resume|].
  apply find_file_Some in Ef as [_ Hid]. split.
  - simpl. by rewrite map_file_ids.
  - apply (Active _ (mkRun (next_id m) f false AwaitInit)); simpl;
      rewrite ?Hr, ?Hid, ?Hc; try done.
    unfold map_file. apply Forall_fmap.
    eapply Forall_impl; [exact Hu|]. intros g Hg. simpl.
    case_bool_decide; [done|]. done.
Qed.

Lemma Inv_processQueue m : Inv m → Inv (processQueue m).
Proof.
  intros H. unfold processQueue.
  destruct (processingQueue m) eqn:Ep; [done|]. simpl.
  destruct (paused m); [done|].
  destruct (_ =? _); [done|].
  destruct (truthy _); [done|].
  destruct (uploadQueue m) as [|next q]; [done|].
  destruct (Server.falsy next); [done|].
  destruct H as [Hnd Hs].
  destruct Hs as [? ? ? ? Hu|r ? ? ? ? ? Hu|r ? ? ? ? ? Hu]; try congruence.
  by apply Inv_uploadFile.
Qed.

Lemma Inv_updateQueuePositions m : Inv m → Inv (updateQueuePositions m).
Proof. intros. eapply Inv_quiet; [done|apply quiet_updateQueuePositions]. Qed.

Lemma Inv_set_paused v m : Inv m → Inv (set_paused v m).
Proof. intros. eapply Inv_quiet; [done|apply quiet_set_paused]. Qed.

Lemma Inv_startUpload m : Inv m → Inv (startUpload m).
Proof.
  intros. by apply Inv_processQueue, Inv_updateQueuePositions, Inv_set_paused.
Qed.

Lemma Inv_pauseAll m : Inv m → Inv (pauseAll m).
Proof.
  intros H. unfold pauseAll. apply (Inv_set_paused true) in H.
  destruct (activeFileId _); [|done]. destruct (truthy _); [|done].
  eapply Inv_quiet; [done|]. by apply quiet_updateFileStatus.
Qed.

Lemma Inv_resumeAll m : Inv m → Inv (resumeAll m).
Proof.
  intros H. unfold resumeAll. apply Inv_processQueue.
  apply (Inv_set_paused false) in H.
  destruct (activeFileId _); [|done]. destruct (truthy _); [|done].
  destruct (find_file _ _); [|done]. case_bool_decide; [|done].
  eapply Inv_quiet; [done|]. by apply quiet_updateFileStatus.
Qed.

Lemma Inv_retryFailed m : Inv m → Inv (retryFailed m).
Proof.
  intros H. unfold retryFailed. apply Inv_processQueue, Inv_updateQueuePositions.
  eapply Inv_quiet; [done|apply quiet_retry_files].
Qed.

Lemma Inv_clearCompleted m : Inv m → Inv (clearCompleted m).
Proof.
  intros H. unfold clearCompleted. by apply Inv_updateQueuePositions, Inv_filter.
Qed.

(** [removeFile] aborts the run of the active file. *)
Lemma Inv_abort_active x m :
  Inv m → Some x = activeFileId m →
  Inv (set_activeFileId None (abortUpload x m)).
Proof.
  intros [Hnd Hs] Hx.
  destruct Hs as [? ? ? ? Hu|r ? ? ? ? ? Hu|r Hr Ha Hp Hact Hc Hu];
    try congruence.
  rewrite Hact in Hx. injection Hx as ->.
  assert (abortControllers m !! id (run_file r) = Some (run_id r)) as El
    by (rewrite Hc; apply lookup_singleton_eq).
  unfold abortUpload. rewrite El.
  split.
  - simpl. destruct (bool_decide _); simpl; by rewrite map_file_ids.
  - apply (Draining _ (mkRun (run_id r) (run_file r) true (stage r))).
    + destruct (bool_decide _); simpl; rewrite Hr; simpl;
        by rewrite bool_decide_eq_true_2.
    + done.
    + by destruct (bool_decide _).
    + by destruct (bool_decide _).
    + destruct (bool_decide _); simpl; rewrite Hc; apply delete_singleton_eq.
    + destruct (bool_decide _); simpl; by apply status_set_no_uploading.
Qed.

Lemma Inv_removeFile x m : Inv m → Inv (removeFile x m).
Proof.
  intros H. unfold removeFile. cbv zeta.
  match goal with
  | |- Inv (if _ then processQueue ?U else _) => assert (Inv U) as HU
  end.
  { apply Inv_updateQueuePositions, Inv_filter.
    destruct (find_file x (files m)); [|done].
    case_bool_decide; [by apply Inv_abort_active|done]. }
  destruct (_ && _); [by apply Inv_processQueue|done].
Qed.

Lemma Inv_addFiles new m :
  Inv m → NoDup ((id <$> files m) ++ (new_id <$> new)) →
  Inv (addFiles new m).1.
Proof.
  intros [Hnd Hs] Hfresh. unfold addFiles. cbn [fst].
  apply Inv_updateQueuePositions. split.
  - simpl. rewrite fmap_app, <- list_fmap_compose. exact Hfresh.
  - assert (Forall (λ f, status f ≠ Uploading) (new_chunked_file m <$> new))
      as Hnew.
    { apply Forall_fmap, Forall_forall. intros nf _. simpl.
      by destruct (truthy _). }
    destruct Hs as [? ? ? ? Hu|r ? ? ? ? ? Hu|r ? ? ? ? ? Hu].
    + apply Idle; try done. simpl. by apply Forall_app.
    + apply (Draining _ r); try done. simpl. by apply Forall_app.
    + apply (Active _ r); try done. simpl. apply Forall_app. split; [done|].
      eapply Forall_impl; [exact Hnew|]. naive_solver.
Qed.

End operations.

Section cancel.
Import Client.
Implicit Types (m : Manager) (fs : list ChunkedFile) (f : ChunkedFile).

Lemma calm_settled fs fs' x :
  calm fs fs' →
  Forall (λ f, id f = x → status f ≠ Uploading) fs →
  Forall (λ f, id f = x → status f ≠ Uploading) fs'.
Proof.
  induction 1 as [|f f' fs fs' [E U] _ IH]; [done|].
  intros [Hf Hfs]%Forall_cons. constructor; [|auto].
  rewrite E. intros Hx Hu. by apply Hf; auto.
Qed.

Lemma quiet_reset_status m g : quiet m (reset_status m g).
Proof.
  unfold reset_status. destruct (_ || _); [|apply quiet_refl].
  by apply quiet_updateFileStatus.
Qed.

(** The loop of [cancelAll] over the files takes every file out of
    [Uploading]. *)
Lemma reset_fold l m :
  quiet m (foldl reset_status m l)
  ∧ ∀ g, g ∈ l → status g = Uploading →
         Forall (λ f, id f = id g → status f ≠ Uploading)
           (files (foldl reset_status m l)).
Proof.
  revert m. induction l as [|g0 l IH]; intros m; simpl.
  - split; [apply quiet_refl|]. by intros g ?%elem_of_nil.
  - destruct (IH (reset_status m g0)) as [Hq Hall]. split.
    + eapply quiet_trans; [apply quiet_reset_status|done].
    + intros g [->|Hin]%elem_of_cons Hg; [|by apply Hall].
      destruct Hq as [_ Hcalm]. eapply calm_settled; [exact Hcalm|].
      unfold reset_status. rewrite Hg. simpl.
      unfold map_file. apply Forall_fmap, Forall_forall. intros f _. simpl.
      case_bool_decide; [done|]. intros; congruence.
Qed.

Lemma reset_all_no_uploading m :
  no_uploading (files (foldl reset_status m (files m))).
Proof.
  destruct (reset_fold (files m) m) as [[_ Hcalm] Hall].
  apply Forall_forall. intros f' Hin Hu.
  apply list_elem_of_lookup in Hin as [i Hi].
  destruct (Forall2_lookup_r _ _ _ _ _ Hcalm Hi) as (f & Hf & E & U).
  apply list_elem_of_lookup_2 in Hf as Hfin.
  specialize (Hall f Hfin (U Hu)). rewrite Forall_forall in Hall.
  apply list_elem_of_lookup_2 in Hi. by apply (Hall f' Hi).
Qed.

Lemma Inv_cancelAll m : Inv m → Inv (cancelAll m).
Proof.
  intros [Hnd Hs]. unfold cancelAll. cbv zeta.
  apply Inv_updateQueuePositions.
  set (m1 := set_abortControllers ∅ (abort_all m)).
  assert (files m1 = files m) as Ef by done.
  assert (runs m1 = runs (abort_all m)) as Er1 by done.
  assert (processingQueue m1 = processingQueue m) as Ep1 by done.
  assert (abortControllers m1 = ∅) as Ec1 by done.
  clearbody m1.
  destruct (reset_fold (files m1) m1) as [[(Er & Ep & Ea & Ec) Hcalm] _].
  pose proof (reset_all_no_uploading m1) as Hno.
  split.
  - simpl. rewrite (calm_ids _ _ Hcalm), Ef. done.
  - destruct Hs as [Hr ? ? Hc Hu|r Hr ? ? ? Hc Hu|r Hr ? ? ? Hc Hu].
    + apply Idle; simpl; rewrite ?Er, ?Ep, ?Ec, ?Er1, ?Ep1, ?Ec1; try done.
      simpl. by rewrite Hr.
    + apply (Draining _ r); simpl;
        rewrite ?Er, ?Ep, ?Ec, ?Er1, ?Ep1, ?Ec1; try done.
      simpl. rewrite Hr, Hc, map_to_list_empty. done.
    + apply (Draining _ (mkRun (run_id r) (run_file r) true (stage r)));
        simpl; rewrite ?Er, ?Ep, ?Ec, ?Er1, ?Ep1, ?Ec1; try done.
      simpl. rewrite Hr, Hc, map_to_list_singleton. simpl.
      rewrite bool_decide_eq_true_2; [done|]. left.
Qed.

Lemma Inv_fire t o m : Inv m → Inv (fire t o m).
Proof.
  intros H. unfold fire. destruct (find_task t m) as [task|]; [|done].
  assert (Inv (set_tasks (filter (λ e, e.1 ≠ t) (tasks m)) m)) as H'
    by (eapply Inv_quiet; [done|apply quiet_set_tasks]).
  cbv zeta. destruct task as [d|r|r d|r x i|r x i|r d c|r].
  - by apply Inv_processQueue.
  - destruct (find_run r _) as [run|] eqn:E; [|done].
    apply find_run_Some in E as [Hin _].
    destruct (stage run); try done. by apply Inv_init_settled.
  - destruct (find_run r _) as [run|] eqn:E; [|done].
    apply find_run_Some in E as [Hin _].
    destruct (stage run); try done. by apply Inv_uploadChunks_loop.
  - unfold chunk_settled, chunk_fulfilled, chunk_rejected.
    destruct o; cbv zeta;
      repeat first
        [ apply Inv_update_locals
        | match goal with
          | |- Inv (match ?x with _ => _ end) => destruct x
          | |- Inv (if ?x then _ else _) => destruct x
          end
        | eapply Inv_quiet;
          [|first [apply quiet_add_task|apply quiet_updateChunkRetries
                  |apply quiet_updateChunkStatus
                  |apply quiet_updateFileProgress]]
        | exact H' ].
  - unfold chunk_rejected. cbv zeta.
    repeat first
      [ apply Inv_update_locals
      | match goal with
        | |- Inv (match ?x with _ => _ end) => destruct x
        | |- Inv (if ?x then _ else _) => destruct x
        end
      | eapply Inv_quiet;
        [|first [apply quiet_add_task|apply quiet_updateChunkRetries]]
      | exact H' ].
  - unfold retry_due. destruct (find_run r _); [|done].
    destruct (_ && _); [|done]. by apply Inv_update_locals.
  - destruct (find_run r _) as [run|] eqn:E; [|done].
    apply find_run_Some in E as [Hin _].
    destruct (stage run); try done. by apply Inv_complete_settled.
Qed.

Lemma Inv_create options : Inv (create options).
Proof. split; [constructor|]. apply Idle; try done. constructor. Qed.

Lemma Inv_exec trace m : Inv m → fresh_ids m trace → Inv (exec m trace).
Proof.
  revert m. induction trace as [|e trace IH]; intros m H Hf; [done|].
  destruct Hf as [He Hf]. simpl. apply IH; [|done].
  destruct e; simpl.
  - by apply Inv_addFiles.
  - by apply Inv_startUpload.
  - by apply Inv_pauseAll.
  - by apply Inv_resumeAll.
  - by apply Inv_removeFile.
  - by apply Inv_retryFailed.
  - by apply Inv_cancelAll.
  - by apply Inv_clearCompleted.
  - by apply Inv_fire.
Qed.

End cancel.

(** * One upload at a time *)

Section exclusive.
Import Client.
Implicit Types (m : Manager) (fs : list ChunkedFile) (f : ChunkedFile).




End exclusive.




(** The chunk requests of a removed file are not aborted with its run:
    two of them are still in flight when the next file is uploading. *)
Example requests_outlive_removed_file :
  let m := Client.exec (Client.create Scenario.options) Trace.busy in
  Client.status <$> Client.files m = [Client.Uploading]
  ∧ Client.id <$> Client.files m = [Client.new_id Trace.other]
  ∧ Client.run_id <$> Client.runs m = [12]
  ∧ Client.find_task 3 m
    = Some (Client.ChunkFetch 1 (Client.new_id Scenario.photo) 1)
  ∧ Client.find_task 4 m
    = Some (Client.ChunkFetch 1 (Client.new_id Scenario.photo) 2).
Proof. by vm_compute. Qed.

(** * A completion request with chunks missing *)

Section mismatch.
Import Client.
Implicit Types (m : Manager) (fs : list ChunkedFile) (f : ChunkedFile).

Lemma failed_map_file x y g fs :
  y ≠ x → (∀ f, id (g f) = id f) →
  Forall (λ f, id f = x → status f = Error) fs →
  Forall (λ f, id f = x → status f = Error) (map_file y g fs).
Proof.
  intros Hy Hg H. unfold map_file. apply Forall_fmap.
  eapply Forall_impl; [exact H|]. intros f Hf. simpl.
  case_bool_decide as E; [|done].
  intros Ex. rewrite Hg in Ex. congruence.
Qed.

Lemma failed_enqueue x k f m :
  id f ≠ x →
  Forall (λ f, id f = x → status f = Error) (files m) →
  Forall (λ f, id f = x → status f = Error) (files (enqueue k f m)).
Proof.
  intros Hy H. unfold enqueue. cbv zeta.
  case_bool_decide; simpl; repeat apply failed_map_file; done.
Qed.

Lemma failed_enqueue_all x q k m :
  Forall (λ f, id f ≠ x) q →
  Forall (λ f, id f = x → status f = Error) (files m) →
  Forall (λ f, id f = x → status f = Error) (files (enqueue_all k q m)).
Proof.
  revert k m. induction q as [|f q IH]; intros k m Hq H; [done|].
  apply Forall_cons in Hq as [Hf Hq]. simpl.
  apply IH; [done|]. by apply failed_enqueue.
Qed.

Lemma failed_updateQueuePositions x m :
  Forall (λ f, id f = x → status f = Error) (files m) →
  Forall (λ f, id f = x → status f = Error) (files (updateQueuePositions m)).
Proof.
  intros H. unfold updateQueuePositions. cbv zeta.
  match goal with
  | |- context [enqueue_all 0 ?q ?m0] =>
      assert (Forall (λ f, id f = x → status f = Error)
                (files (enqueue_all 0 q m0))) as H'
  end.
  { apply failed_enqueue_all; [|done].
    apply Forall_filter_sub. apply Forall_forall. intros f Hf Ex.
    apply list_elem_of_filter in Hf as [(_ & Hw & _) Hf].
    rewrite Forall_forall in H. by specialize (H f Hf Ex). }
  by destruct (_ && _).
Qed.

Lemma failed_fail_upload run message m :
  Forall (λ f, id f = id (run_file run) → status f = Error)
    (files (fail_upload run message m)).
Proof.
  unfold fail_upload, end_run, resume_processQueue. cbv zeta. simpl.
  apply failed_updateQueuePositions. simpl.
  unfold map_file. apply Forall_fmap, Forall_forall. intros f _. simpl.
  by case_bool_decide.
Qed.

Lemma find_run_set_tasks ts r m : find_run r (set_tasks ts m) = find_run r m.
Proof. done. Qed.

End mismatch.

(** C5: a file the init route accepted reaches the completion request
    of its run.  If the number of chunk objects stored under its
    upload id differs from its [totalChunks], the route answers with
    the count mismatch and both counts, nothing is forwarded to the
    storage backend, the chunk store is left as it was and, once the
    answer reaches the manager, the file has status error; a media
    upload is only made when the two counts are equal. *)
Theorem complete_rejects_count_mismatch (env : Env) (st : Store)
    (m : Client.Manager) (t : nat) (run : Client.Run) :
  let f := Client.run_file run in
  let out := Server.complete env st (Client.complete_request f) in
  let received :=
    length (BlobStore.list_prefix (Server.chunk_prefix (Client.id f)) st) in
  Server.init_ok (Server.init (Client.init_request f)) = true →
  Client.find_task t m = Some (Client.CompleteFetch (Client.run_id run)) →
  Client.find_run (Client.run_id run) m = Some run →
  Client.stage run = Client.AwaitComplete →
  Client.aborted run = false →
  (received ≠ Client.totalChunks f →
     Server.co_response out
       = Server.NotAllChunksReceived received (Client.totalChunks f)
     ∧ Server.co_uploads out = []
     ∧ Server.co_store out = st
     ∧ Forall (λ g, Client.id g = Client.id f →
                    Client.status g = Client.Error)
         (Client.files
            (Client.fire t (complete_outcome (Server.co_response out)) m)))
  ∧ (Server.co_uploads out ≠ [] → received = Client.totalChunks f).
Proof.
  intros f out received Hinit Ht Hr Hs Ha.
  apply init_ok_fields in Hinit.
  assert (Server.falsy (Client.id f) || Server.falsy (Client.name f)
          || Server.falsy (Client.type f) || (Client.totalChunks f =? 0)
          = false) as Hv.
  { destruct Hinit as (Hn & Hty & _ & Hc & Hid). unfold Server.falsy.
    rewrite !bool_decide_eq_false_2 by done. simpl.
    by apply Nat.eqb_neq. }
  subst out. unfold Server.complete. cbn [Client.complete_request
    Server.r_uploadId Server.r_filename Server.r_contentType
    Server.r_totalChunks]. rewrite Hv. fold received.
  split.
  - intros Hne. apply Nat.eqb_neq in Hne. rewrite Hne. simpl.
    repeat split.
    unfold Client.fire. rewrite Ht. cbv zeta.
    rewrite find_run_set_tasks.
    rewrite Hr, Hs. unfold Client.complete_settled. rewrite Ha.
    apply failed_fail_upload.
  - destruct (received =? Client.totalChunks f) eqn:E.
    + by apply Nat.eqb_eq in E.
    + by simpl.
Qed.

Lemma complete_rejects_count_mismatch_example :
  Server.co_response
    (Server.complete Scenario.env Trace.lost
       (Client.complete_request (Client.run_file Trace.completing)))
  = Server.NotAllChunksReceived 2 3
  ∧ Server.co_uploads
      (Server.complete Scenario.env Trace.lost
         (Client.complete_request (Client.run_file Trace.completing))) = []
  ∧ Client.status
      <$> Client.files
            (Client.fire 6 (Client.NotOk (lit "Not all chunks received"))
               (Client.exec (Client.create Scenario.options) Trace.sent))
    = [Client.Error].
Proof.
  destruct (complete_rejects_count_mismatch Scenario.env Trace.lost
              (Client.exec (Client.create Scenario.options) Trace.sent)
              6 Trace.completing) as [H _];
    [vm_compute; reflexivity..|].
  destruct H as (H1 & H2 & _ & H4); [by vm_compute|].
  split; [exact H1|]. split; [exact H2|]. by vm_compute.
Defined.

(** * Adding files *)

Section adding.
Import Client.
Implicit Types (m : Manager) (fs : list ChunkedFile) (f g : ChunkedFile).

Lemma map_file_lookup_ne x h fs p f :
  fs !! p = Some f → id f ≠ x → map_file x h fs !! p = Some f.
Proof.
  intros H Hx. unfold map_file. rewrite list_lookup_fmap, H. simpl.
  by rewrite bool_decide_eq_false_2.
Qed.

Lemma map_file_lookup_eq x h fs p f :
  fs !! p = Some f → id f = x → map_file x h fs !! p = Some (h f).
Proof.
  intros H Hx. unfold map_file. rewrite list_lookup_fmap, H. simpl.
  by rewrite bool_decide_eq_true_2.
Qed.

Lemma enqueue_lookup_ne k f m p g :
  files m !! p = Some g → id g ≠ id f → files (enqueue k f m) !! p = Some g.
Proof.
  intros H Hx. unfold enqueue. cbv zeta.
  case_bool_decide; simpl; by repeat apply map_file_lookup_ne.
Qed.

Lemma enqueue_lookup_eq k f m p :
  files m !! p = Some f → files (enqueue k f m) !! p = Some (queued_at k f).
Proof.
  intros H. unfold enqueue. cbv zeta. case_bool_decide as E; simpl.
  - erewrite map_file_lookup_eq;
      [|by apply map_file_lookup_eq|done]. done.
  - erewrite map_file_lookup_eq; [|done..].
    unfold queued_at, with_queuePosition, with_status.
    simpl. by rewrite E.
Qed.

Lemma enqueue_all_lookup_ne q k m p g :
  files m !! p = Some g → id g ∉ id <$> q →
  files (enqueue_all k q m) !! p = Some g.
Proof.
  revert k m. induction q as [|f q IH]; intros k m H Hq; [done|].
  rewrite fmap_cons in Hq. apply not_elem_of_cons in Hq as [Hf Hq].
  simpl. apply IH; [|done]. by apply enqueue_lookup_ne.
Qed.

Lemma enqueue_all_lookup q k m p g j :
  NoDup (id <$> q) → files m !! p = Some g → q !! j = Some g →
  files (enqueue_all k q m) !! p = Some (queued_at (k + j) g).
Proof.
  revert k m j. induction q as [|f q IH]; intros k m j Hnd H Hj; [done|].
  rewrite fmap_cons in Hnd. apply NoDup_cons in Hnd as [Hf Hnd].
  destruct j as [|j]; simpl in Hj.
  - injection Hj as ->. simpl. rewrite Nat.add_0_r.
    apply enqueue_all_lookup_ne; [by apply enqueue_lookup_eq|done].
  - simpl. replace (k + S j) with (S k + j) by lia.
    apply IH; [done| |done]. apply enqueue_lookup_ne; [done|].
    intros E. apply Hf. rewrite <- E. apply list_elem_of_fmap.
    exists g. split; [done|]. by eapply list_elem_of_lookup_2.
Qed.

Lemma enqueue_all_uploadQueue q k m :
  uploadQueue (enqueue_all k q m) = uploadQueue m ++ (id <$> q).
Proof.
  revert k m. induction q as [|f q IH]; intros k m; simpl.
  - by rewrite app_nil_r.
  - rewrite IH. unfold enqueue. cbv zeta.
    case_bool_decide; simpl; by rewrite <- app_assoc.
Qed.

Lemma enqueue_all_fields q k m :
  tasks (enqueue_all k q m) = tasks m
  ∧ next_id (enqueue_all k q m) = next_id m
  ∧ paused (enqueue_all k q m) = paused m
  ∧ activeFileId (enqueue_all k q m) = activeFileId m.
Proof.
  revert k m. induction q as [|f q IH]; intros k m; simpl; [done|].
  destruct (IH (S k) (enqueue k f m)) as (-> & -> & -> & ->).
  unfold enqueue. cbv zeta. by case_bool_decide.
Qed.

Lemma new_chunked_file_fresh m nf :
  activeFileId m = None →
  status (new_chunked_file m nf) = Pending
  ∧ queuePosition (new_chunked_file m nf) = None
  ∧ id (new_chunked_file m nf) = new_id nf.
Proof. intros E. unfold new_chunked_file. simpl. by rewrite E. Qed.

Lemma queuedFiles_addFiles m (nfs : list NewFile) :
  activeFileId m = None →
  filter (λ f, Some (id f) ≠ activeFileId m)
    (filter waiting (files m ++ (new_chunked_file m <$> nfs)))
  = filter waiting (files m) ++ (new_chunked_file m <$> nfs).
Proof.
  intros E. rewrite filter_all by (apply Forall_forall; by rewrite E).
  rewrite filter_app. f_equal. apply filter_all, Forall_fmap, Forall_forall.
  intros nf _. simpl. unfold waiting.
  destruct (new_chunked_file_fresh m nf E) as (-> & _). done.
Qed.

End adding.

(** C7, as the code has it: when addFiles is called while no file is
    active (and the ids drawn are fresh), every entry it returns has
    status pending and no queue position; in the manager every added
    file, the first one included, has status queued, with 0-based
    positions that continue those of the files already waiting, in
    insertion order; the upload queue lists the waiting files followed
    by the added ones; and queue processing is scheduled exactly when
    the manager is not paused and that queue is not empty. *)
Theorem addFiles_queues_every_file (nfs : list Client.NewFile)
    (m : Client.Manager) :
  Client.activeFileId m = None →
  NoDup ((Client.id <$> Client.files m) ++ (Client.new_id <$> nfs)) →
  let before := filter Client.waiting (Client.files m) in
  let after := (Client.addFiles nfs m).1 in
  Forall (λ f, Client.status f = Client.Pending
               ∧ Client.queuePosition f = None) (Client.addFiles nfs m).2
  ∧ (∀ i nf, nfs !! i = Some nf →
       Client.files after !! (length (Client.files m) + i)
       = Some (queued_at (length before + i) (Client.new_chunked_file m nf)))
  ∧ Client.uploadQueue after
    = (Client.id <$> before) ++ (Client.new_id <$> nfs)
  ∧ Client.tasks after
    = Client.tasks m
      ++ (if negb (Client.paused m) && (0 <? length before + length nfs)
          then [(Client.next_id m, Client.ProcessQueueTimer 0)] else []).
Proof.
  intros E Hnd before after.
  assert (Client.id <$> (Client.new_chunked_file m <$> nfs)
          = Client.new_id <$> nfs) as Eids.
  { rewrite <- list_fmap_compose. apply list_fmap_ext. intros _ nf _.
    by destruct (new_chunked_file_fresh m nf E) as (_ & _ & ?). }
  split.
  { unfold Client.addFiles. cbv zeta. cbn [snd].
    apply Forall_fmap, Forall_forall. intros nf _.
    by destruct (new_chunked_file_fresh m nf E) as (? & ? & _). }
  subst after. unfold Client.addFiles. cbv zeta.
  unfold Client.updateQueuePositions. cbv zeta.
  cbn [fst Client.files Client.set_files Client.activeFileId].
  rewrite (queuedFiles_addFiles m nfs E). fold before.
  set (q := before ++ (Client.new_chunked_file m <$> nfs)).
  set (m0 := Client.set_uploadQueue [] _).
  destruct (enqueue_all_fields q 0 m0) as (Et & En & Ep & Ea).
  pose proof (enqueue_all_uploadQueue q 0 m0) as Eq.
  assert (Client.files (Client.enqueue_all 0 q m0)
          = Client.files
              (if negb (Client.truthy (Client.activeFileId
                                         (Client.enqueue_all 0 q m0)))
                  && negb (Client.paused (Client.enqueue_all 0 q m0))
                  && (0 <? length (Client.uploadQueue
                                     (Client.enqueue_all 0 q m0)))
               then Client.add_task (Client.ProcessQueueTimer 0)
                      (Client.enqueue_all 0 q m0)
               else Client.enqueue_all 0 q m0)) as <-
    by (by destruct (_ && _)).
  split; [|split].
  - intros i nf Hi.
    assert (NoDup (Client.id <$> q)) as Hq.
    { subst q. rewrite fmap_app, Eids.
      eapply sublist_NoDup; [exact Hnd|].
      apply sublist_app; [|done]. apply fmap_sublist, sublist_filter. }
    rewrite (enqueue_all_lookup q 0 m0 _ (Client.new_chunked_file m nf)
               (length before + i) Hq); [done| |].
    + subst m0. simpl. rewrite lookup_app_r by lia.
      replace (length (Client.files m) + i - length (Client.files m))
        with i by lia.
      by rewrite list_lookup_fmap, Hi.
    + subst q. rewrite lookup_app_r by lia.
      replace (length before + i - length before) with i by lia.
      by rewrite list_lookup_fmap, Hi.
  - destruct (_ && _); simpl; rewrite Eq; subst q m0; simpl;
      by rewrite fmap_app, Eids.
  - rewrite Ea, Ep, Eq. subst m0. cbn [Client.activeFileId
      Client.set_uploadQueue Client.paused Client.uploadQueue
      Client.set_files]. rewrite E. subst q.
    rewrite app_nil_l, length_fmap, length_app, length_fmap. simpl.
    destruct (negb (Client.paused m) && _); simpl.
    + by rewrite Et, En.
    + by rewrite Et, app_nil_r.
Qed.

Lemma addFiles_first_file_is_queued :
  Client.status
    <$> Client.files
          (Client.addFiles [Scenario.photo; Trace.other]
             (Client.create Scenario.options)).1
  = [Client.Queued; Client.Queued]
  ∧ Client.queuePosition
      <$> Client.files
            (Client.addFiles [Scenario.photo; Trace.other]
               (Client.create Scenario.options)).1
    = [Some (Client.Position 0); Some (Client.Position 1)]
  ∧ Client.status
      <$> (Client.addFiles [Scenario.photo; Trace.other]
             (Client.create Scenario.options)).2
    = [Client.Pending; Client.Pending].
Proof. by vm_compute. Qed.

Lemma addFiles_queues_every_file_example :
  Client.activeFileId (Client.create Scenario.options) = None
  ∧ NoDup ((Client.id <$> Client.files (Client.create Scenario.options))
           ++ (Client.new_id <$> [Scenario.photo; Trace.other]))
  ∧ Client.uploadQueue
      (Client.addFiles [Scenario.photo; Trace.other]
         (Client.create Scenario.options)).1
    = [Client.new_id Scenario.photo; Client.new_id Trace.other]
  ∧ Client.tasks
      (Client.addFiles [Scenario.photo; Trace.other]
         (Client.create Scenario.options)).1
    = [(0, Client.ProcessQueueTimer 0)].
Proof.
  assert (NoDup ((Client.id <$> Client.files (Client.create Scenario.options))
                 ++ (Client.new_id <$> [Scenario.photo; Trace.other]))) as H
    by (apply (bool_decide_unpack _); by vm_compute).
  split; [done|]. split; [exact H|].
  destruct (addFiles_queues_every_file [Scenario.photo; Trace.other]
              (Client.create Scenario.options) eq_refl H)
    as (_ & _ & H3 & H4).
  split; [exact H3|exact H4].
Defined.

(** * Splitting a file into chunks *)

(** C8, as the code has it: the chunk count of a file is
    [ceil(size / chunkSize)] with no lower bound of one, and the chunk
    list has that many entries.  A zero-byte file therefore has a
    chunk count of zero and an empty chunk list, and the init route
    rejects it for its missing fields; a file with at least one byte
    has at least one chunk. *)
Theorem zero_byte_file_has_no_chunk (m : Client.Manager)
    (nf : Client.NewFile) :
  0 < Client.opt_chunkSize (Client.options m) →
  let f := Client.new_chunked_file m nf in
  Client.totalChunks f = Client.ceil_div (Client.size f) (Client.chunkSize f)
  ∧ length (Client.chunks f) = Client.totalChunks f
  ∧ (Client.size f = 0 →
       Client.totalChunks f = 0 ∧ Client.chunks f = []
       ∧ Server.init (Client.init_request f) = Server.InitMissingFields)
  ∧ (0 < Client.size f → 1 ≤ Client.totalChunks f).
Proof.
  intros Hc f. split; [done|]. split.
  { subst f. unfold Client.new_chunked_file. cbn [Client.chunks
      Client.totalChunks]. by rewrite length_fmap, length_seq. }
  assert (Client.size f = 0 → Client.totalChunks f = 0) as H0.
  { subst f. unfold Client.new_chunked_file. cbn [Client.size
      Client.totalChunks]. intros ->. unfold Client.ceil_div.
    by rewrite Nat.Div0.div_0_l, Nat.Div0.mod_0_l. }
  split.
  - intros E. specialize (H0 E). split; [done|]. split.
    + subst f. unfold Client.new_chunked_file in *.
      cbn [Client.chunks Client.totalChunks] in *. by rewrite H0.
    + unfold Server.init, Client.init_request.
      cbn [Server.i_totalSize Server.i_totalChunks]. rewrite E, H0.
      simpl. by rewrite !orb_true_r.
  - intros Hs.
    pose proof (ceil_div_covers (Client.chunkSize f) Hc (Client.size f)).
    change (Client.ceil_div (Client.size f) (Client.chunkSize f))
      with (Client.totalChunks f) in *.
    destruct (Client.totalChunks f); lia.
Qed.

Lemma zero_byte_file_is_not_one_chunk :
  Client.size (Client.new_chunked_file (Client.create Scenario.options)
                 Trace.empty) = 0
  ∧ Client.totalChunks
      (Client.new_chunked_file (Client.create Scenario.options) Trace.empty)
    = 0
  ∧ Client.chunks
      (Client.new_chunked_file (Client.create Scenario.options) Trace.empty)
    = []
  ∧ Nat.max (Client.ceil_div 0 (Client.opt_chunkSize Scenario.options)) 1 = 1.
Proof. by vm_compute. Qed.

Lemma zero_byte_file_has_no_chunk_example :
  0 < Client.opt_chunkSize (Client.options (Client.create Scenario.options))
  ∧ length (Client.chunks
              (Client.new_chunked_file (Client.create Scenario.options)
                 Trace.empty)) = 0
  ∧ Server.init
      (Client.init_request
         (Client.new_chunked_file (Client.create Scenario.options)
            Trace.empty))
    = Server.InitMissingFields.
Proof.
  assert (0 < Client.opt_chunkSize
                (Client.options (Client.create Scenario.options))) as H
    by (vm_compute; lia).
  split; [exact H|].
  destruct (zero_byte_file_has_no_chunk (Client.create Scenario.options)
              Trace.empty H) as (_ & H2 & H3 & _).
  destruct H3 as (H4 & _ & H5); [reflexivity|].
  split; [|exact H5]. rewrite H2. exact H4.
Defined.

(** * Progress *)

(** C6: the progress figure is only recomputed after a chunk request
    is answered with a success status, not when a chunk leaves the
    completed state.  The answers for chunks 2 and 0 of a file of
    three chunks arrive with a success status, and the body of the
    second one cannot be read: [uploadChunk] has by then marked chunk
    0 completed and set the progress to 67, and its [catch] marks the
    chunk as failed.  [uploadedChunks] follows (one completed chunk),
    the progress stays at 67 where the formula gives 33. *)
Theorem progress_is_stale_after_unread_answer :
  let m := Client.exec (Client.create Scenario.options) Trace.unread in
  Client.totalChunks <$> Client.files m = [3]
  ∧ (λ f, Client.chunk_status <$> Client.chunks f) <$> Client.files m
    = [[Client.ChunkError; Client.ChunkUploading; Client.ChunkCompleted]]
  ∧ (λ f, Client.completed_count (Client.chunks f)) <$> Client.files m = [1]
  ∧ Client.uploadedChunks <$> Client.files m = [1]
  ∧ Client.progress <$> Client.files m = [Client.Num 67]
  ∧ (λ f, Client.percent (Client.uploadedChunks f) (Client.totalChunks f))
      <$> Client.files m
    = [Client.Num 33].
Proof. by vm_compute. Qed.

(** A file of no bytes starts with a progress of 0, where the formula
    divides zero by zero. *)
Example progress_of_zero_byte_file :
  let f := Client.new_chunked_file (Client.create Scenario.options)
             Trace.empty in
  Client.progress f = Client.Num 0
  ∧ Client.percent (Client.uploadedChunks f) (Client.totalChunks f)
    = Client.NaN.
Proof. by vm_compute. Qed.

(** * Retries *)

Section retries.
Import Client.

(** The loop of [uploadChunks] stops as soon as no chunk is queued or
    in flight, whatever retry timers are pending: with a failed chunk
    among the results the file fails. *)
Lemma loop_ends_with_retry_pending t m run res :
  find_task t m = Some (LoopWake (run_id run) 100) →
  find_run (run_id run) m = Some run →
  stage run = UploadingChunks [] [] res →
  Exists failed res →
  Forall (λ g, id g = id (run_file run) → status g = Error)
    (files (fire t Succeeds m)).
Proof.
  intros Ht Hr Hs Hf. unfold fire. rewrite Ht. cbv zeta.
  rewrite find_run_set_tasks, Hr, Hs. unfold uploadChunks_loop.
  cbn [length Nat.ltb Nat.leb orb]. cbv zeta.
  destruct (filter failed res) as [|x l] eqn:E.
  - apply Exists_exists in Hf as (x & Hx & Hfx).
    assert (x ∈ filter failed res) as Hin by (by apply list_elem_of_filter).
    rewrite E in Hin. by apply elem_of_nil in Hin.
  - cbn [length Nat.ltb Nat.leb]. apply failed_fail_upload.
Qed.

End retries.

(** C3: a file of one chunk, [maxRetries = 3], [retryDelay = 2000] ms;
    every request takes 50 ms and the first two sends of the chunk
    fail in transport.  After the first failure the retry counter is
    1 and the retry timer is set for 2000 ms, but the loop of
    [uploadChunks], which wakes every 100 ms, finds no chunk queued or
    in flight and fails the file 50 ms later.  When nothing is pending
    any more the file has status error, progress 0, its chunk is
    failed, and one single send was made. *)
Theorem retry_comes_after_the_file_failed :
  let start := Timed.start Scenario.options (Trace.flaky 50) [Trace.other] in
  let c := Timed.run (Trace.flaky 50) 10 start in
  Client.maxRetries Scenario.options = 3
  ∧ Client.find_task 4 (Timed.manager (Timed.run (Trace.flaky 50) 3 start))
    = Some (Client.RetryTimer 1 2000
              (Client.mkChunk 0 Client.ChunkError 1))
  ∧ Timed.due c = []
  ∧ Client.status <$> Client.files (Timed.manager c) = [Client.Error]
  ∧ Client.progress <$> Client.files (Timed.manager c) = [Client.Num 0]
  ∧ Client.chunks <$> Client.files (Timed.manager c)
    = [[Client.mkChunk 0 Client.ChunkError 1]]
  ∧ Timed.attempts (Client.new_id Trace.other) 0 (Timed.manager c) = 1.
Proof. by vm_compute. Qed.

(** The retries do take place when other chunks keep the loop running
    long enough: with chunks 1 and 2 in flight for 7 s, chunk 0 is
    sent three times and the file completes. *)
Example retry_while_other_chunks_are_in_flight :
  let net := Trace.flaky (7 * 1000) in
  let c := Timed.run net 300 (Timed.start Scenario.options net
                                [Scenario.photo]) in
  Timed.due c = []
  ∧ Client.status <$> Client.files (Timed.manager c) = [Client.Completed]
  ∧ Client.progress <$> Client.files (Timed.manager c) = [Client.Num 100]
  ∧ Timed.attempts (Client.new_id Scenario.photo) 0 (Timed.manager c) = 3.
Proof. by vm_compute. Qed.

(** * The count of uploaded chunks *)

Section counting.
Import Client.
Implicit Types (m : Manager) (fs : list ChunkedFile) (f : ChunkedFile).

Lemma counted_map_file x h fs :
  (∀ f, counted f → counted (h f)) →
  Forall counted fs → Forall counted (map_file x h fs).
Proof.
  intros Hh H. unfold map_file. apply Forall_fmap.
  eapply Forall_impl; [exact H|]. intros f Hf. simpl.
  case_bool_decide; auto.
Qed.

Lemma counted_updateFileStatus x s q m :
  Forall counted (files m) → Forall counted (files (updateFileStatus x s q m)).
Proof. intros H. by apply counted_map_file. Qed.

Lemma counted_updateChunkStatus x i s m :
  Forall counted (files m) → Forall counted (files (updateChunkStatus x i s m)).
Proof. intros H. by apply counted_map_file. Qed.

Lemma completed_count_retries n i (cs : list Chunk) :
  completed_count (alter (set_chunk_retries n) i cs) = completed_count cs.
Proof.
  unfold completed_count. revert i.
  induction cs as [|c cs IH]; intros [|i]; try done.
  - change (alter (set_chunk_retries n) 0 (c :: cs))
      with (set_chunk_retries n c :: cs).
    rewrite !filter_cons. simpl. by case_decide.
  - change (alter (set_chunk_retries n) (S i) (c :: cs))
      with (c :: alter (set_chunk_retries n) i cs).
    rewrite !filter_cons. case_decide; simpl; by rewrite IH.
Qed.

Lemma counted_updateChunkRetries x i n m :
  Forall counted (files m) → Forall counted (files (updateChunkRetries x i n m)).
Proof.
  intros H. apply counted_map_file; [|done]. intros f Hf.
  unfold counted. simpl. by rewrite completed_count_retries.
Qed.

Lemma find_file_unique x fs f0 f :
  NoDup (id <$> fs) → find_file x fs = Some f0 → f ∈ fs → id f = x → f = f0.
Proof.
  intros Hnd H0 Hf Hx. apply find_file_Some in H0 as [H0 Hx0].
  apply list_elem_of_lookup in Hf as [i Hi].
  apply list_elem_of_lookup in H0 as [j Hj].
  assert (i = j) as ->; [|congruence].
  eapply NoDup_lookup; [exact Hnd| |].
  - by rewrite list_lookup_fmap, Hi.
  - rewrite list_lookup_fmap, Hj. simpl. congruence.
Qed.

Lemma counted_updateFileProgress x m :
  NoDup (id <$> files m) →
  Forall counted (files m) → Forall counted (files (updateFileProgress x m)).
Proof.
  intros Hnd H. unfold updateFileProgress.
  destruct (find_file x (files m)) as [f0|] eqn:E; [|done]. simpl.
  unfold map_file. apply Forall_fmap, Forall_forall. intros f Hf. simpl.
  case_bool_decide as Ex.
  - by rewrite (find_file_unique x (files m) f0 f).
  - rewrite Forall_forall in H. by apply H.
Qed.

Lemma counted_add_task t m :
  Forall counted (files m) → Forall counted (files (add_task t m)).
Proof. done. Qed.

Lemma counted_enqueue k f m :
  Forall counted (files m) → Forall counted (files (enqueue k f m)).
Proof.
  intros H. unfold enqueue. cbv zeta.
  case_bool_decide; simpl; repeat apply counted_map_file; done.
Qed.

Lemma counted_enqueue_all q k m :
  Forall counted (files m) → Forall counted (files (enqueue_all k q m)).
Proof.
  revert k m. induction q as [|f q IH]; intros k m H; [done|].
  simpl. by apply IH, counted_enqueue.
Qed.

Lemma counted_updateQueuePositions m :
  Forall counted (files m) → Forall counted (files (updateQueuePositions m)).
Proof.
  intros H. unfold updateQueuePositions. cbv zeta.
  destruct (_ && _); simpl; by apply counted_enqueue_all.
Qed.

Lemma counted_resume_processQueue m :
  Forall counted (files m) → Forall counted (files (resume_processQueue m)).
Proof.
  intros H. unfold resume_processQueue. cbv zeta. simpl.
  by apply counted_updateQueuePositions.
Qed.

Lemma counted_end_run r m :
  Forall counted (files m) → Forall counted (files (end_run r m)).
Proof. intros H. by apply counted_resume_processQueue. Qed.

Lemma counted_fail_upload run message m :
  Forall counted (files m) → Forall counted (files (fail_upload run message m)).
Proof.
  intros H. unfold fail_upload. cbv zeta.
  apply counted_end_run. simpl. by apply counted_map_file.
Qed.

Lemma counted_finish_upload run m :
  Forall counted (files m) → Forall counted (files (finish_upload run m)).
Proof.
  intros H. unfold finish_upload. cbv zeta.
  apply counted_end_run. simpl. by apply counted_map_file.
Qed.

Lemma counted_start_complete run m :
  Forall counted (files m) → Forall counted (files (start_complete run m)).
Proof. intros H. unfold start_complete. by destruct (aborted run). Qed.

Lemma counted_uploadChunk r x i m :
  Forall counted (files m) → Forall counted (files (uploadChunk r x i m)).
Proof.
  intros H. unfold uploadChunk. destruct (find_file _ _); [|done].
  simpl. by apply counted_map_file.
Qed.

Lemma counted_fill r x q a m :
  Forall counted (files m) → Forall counted (files (fill r x q a m).2).
Proof.
  revert a m. induction q as [|c q IH]; intros a m H; simpl; [done|].
  destruct (_ <? _); [|done]. by apply IH, counted_uploadChunk.
Qed.

Lemma counted_uploadChunks_loop run q a res m :
  Forall counted (files m) →
  Forall counted (files (uploadChunks_loop run q a res m)).
Proof.
  intros H. unfold uploadChunks_loop. destruct (_ || _).
  - destruct (_ || _); [by apply counted_start_complete|].
    pose proof (counted_fill (run_id run) (id (run_file run)) q a m H) as H'.
    by destruct (fill _ _ _ _ _) as [[q' a'] m'].
  - cbv zeta. destruct (_ <? _);
      [by apply counted_fail_upload|by apply counted_start_complete].
Qed.

Lemma counted_uploadChunks run m :
  Forall counted (files m) → Forall counted (files (uploadChunks run m)).
Proof.
  intros H. unfold uploadChunks.
  destruct (find_file _ _); [|by apply counted_start_complete].
  by apply counted_uploadChunks_loop.
Qed.

Lemma counted_update_locals r g m :
  Forall counted (files m) → Forall counted (files (update_locals r g m)).
Proof.
  intros H. unfold update_locals. destruct (find_run r m); [|done].
  by destruct (stage _).
Qed.

Lemma counted_chunk_rejected r x i m :
  Forall counted (files m) → Forall counted (files (chunk_rejected r x i m)).
Proof.
  intros H. unfold chunk_rejected. cbv zeta.
  pose proof (counted_update_locals r
    (λ q a res, UploadingChunks q (set_delete i a)
                  (<[i := ResultError]> res)) m H) as H'.
  destruct (find_file _ _); [|done]. destruct (_ !! _); [|done].
  destruct (_ <? _); [|done].
  by apply counted_add_task, counted_updateChunkRetries.
Qed.

Lemma NoDup_updateChunkStatus x i s m :
  NoDup (id <$> files m) → NoDup (id <$> files (updateChunkStatus x i s m)).
Proof. intros H. simpl. by rewrite map_file_ids. Qed.

Lemma counted_chunk_settled r x i o m :
  NoDup (id <$> files m) →
  Forall counted (files m) → Forall counted (files (chunk_settled r x i o m)).
Proof.
  intros Hnd H. unfold chunk_settled.
  destruct o; cbv zeta.
  - apply counted_update_locals, counted_updateFileProgress;
      [by apply NoDup_updateChunkStatus|by apply counted_updateChunkStatus].
  - apply counted_chunk_rejected, counted_updateChunkStatus.
    apply counted_updateFileProgress;
      [by apply NoDup_updateChunkStatus|by apply counted_updateChunkStatus].
  - by apply counted_chunk_rejected, counted_updateChunkStatus.
  - by apply counted_chunk_rejected, counted_updateChunkStatus.
Qed.

Lemma counted_retry_due r c m :
  Forall counted (files m) → Forall counted (files (retry_due r c m)).
Proof.
  intros H. unfold retry_due. destruct (find_run r m); [|done].
  destruct (_ && _); [|done]. by apply counted_update_locals.
Qed.

Lemma counted_init_settled run o m :
  Forall counted (files m) → Forall counted (files (init_settled run o m)).
Proof.
  intros H. unfold init_settled.
  destruct (aborted run); [by apply counted_end_run|].
  destruct o.
  - by apply counted_uploadChunks.
  - by apply counted_uploadChunks.
  - by apply counted_fail_upload.
  - by apply counted_fail_upload.
Qed.

Lemma counted_complete_settled run o m :
  Forall counted (files m) → Forall counted (files (complete_settled run o m)).
Proof.
  intros H. unfold complete_settled.
  destruct (aborted run); [by apply counted_end_run|].
  destruct o.
  - by apply counted_finish_upload.
  - by apply counted_fail_upload.
  - by apply counted_fail_upload.
  - by apply counted_fail_upload.
Qed.

Lemma counted_uploadFile x m :
  Forall counted (files m) → Forall counted (files (uploadFile x m)).
Proof.
  intros H. unfold uploadFile.
  destruct (find_file _ _); [|by apply counted_resume_processQueue].
  destruct (_ || _); [by apply counted_resume_processQueue|].
  simpl. by apply counted_map_file.
Qed.

Lemma counted_processQueue m :
  Forall counted (files m) → Forall counted (files (processQueue m)).
Proof.
  intros H. unfold processQueue.
  destruct (_ || _); [done|]. destruct (_ =? _); [done|].
  destruct (truthy _); [done|]. destruct (uploadQueue m); [done|].
  destruct (Server.falsy _); [done|]. by apply counted_uploadFile.
Qed.

Lemma counted_fire t o m :
  NoDup (id <$> files m) →
  Forall counted (files m) → Forall counted (files (fire t o m)).
Proof.
  intros Hnd H. unfold fire. destruct (find_task t m) as [task|]; [|done].
  cbv zeta.
  destruct task as [d|r|r d|r x i|r x i|r d c|r];
    rewrite ?find_run_set_tasks.
  - by apply counted_processQueue.
  - destruct (find_run _ _) as [u|]; [|done].
    destruct (stage u); try done. by apply counted_init_settled.
  - destruct (find_run _ _) as [u|]; [|done].
    destruct (stage u); try done. by apply counted_uploadChunks_loop.
  - by apply counted_chunk_settled.
  - by apply counted_chunk_rejected.
  - by apply counted_retry_due.
  - destruct (find_run _ _) as [u|]; [|done].
    destruct (stage u); try done. by apply counted_complete_settled.
Qed.

Lemma completed_count_pending n :
  completed_count ((λ index, mkChunk index ChunkPending 0) <$> seq 0 n) = 0.
Proof.
  unfold completed_count. rewrite filter_none; [done|].
  apply Forall_fmap, Forall_forall. by intros i _.
Qed.

Lemma counted_new_chunked_file m nf : counted (new_chunked_file m nf).
Proof.
  unfold counted, new_chunked_file. cbn [uploadedChunks chunks].
  by rewrite completed_count_pending.
Qed.

Lemma counted_addFiles nfs m :
  Forall counted (files m) → Forall counted (files (addFiles nfs m).1).
Proof.
  intros H. unfold addFiles. cbv zeta. cbn [fst].
  apply counted_updateQueuePositions. cbn [files set_files].
  apply Forall_app. split; [done|].
  apply Forall_fmap, Forall_forall. intros nf _.
  apply counted_new_chunked_file.
Qed.

Lemma counted_abortUpload x m :
  Forall counted (files m) → Forall counted (files (abortUpload x m)).
Proof.
  intros H. unfold abortUpload. cbv zeta.
  assert (∀ m', Forall counted (files m') →
                Forall counted
                  (files (if bool_decide
                               (Some x = activeFileId
                                           (updateFileStatus x Pending None m'))
                          then set_activeFileId None
                                 (updateFileStatus x Pending None m')
                          else updateFileStatus x Pending None m'))) as Hm.
  { intros m' H'. case_bool_decide; by apply counted_map_file. }
  apply Hm. by destruct (_ !! _).
Qed.

Lemma counted_removeFile x m :
  Forall counted (files m) → Forall counted (files (removeFile x m)).
Proof.
  intros H. unfold removeFile. cbv zeta.
  match goal with
  | |- context [updateQueuePositions ?m0] =>
      assert (Forall counted (files (updateQueuePositions m0))) as H'
  end.
  { apply counted_updateQueuePositions. cbn [files set_files].
    apply Forall_filter_sub.
    destruct (find_file _ _); [|done].
    case_bool_decide; [|done]. by apply (counted_abortUpload x m). }
  destruct (_ && _); [by apply counted_processQueue|done].
Qed.

Lemma counted_pauseAll m :
  Forall counted (files m) → Forall counted (files (pauseAll m)).
Proof.
  intros H. unfold pauseAll. cbv zeta.
  destruct (activeFileId _); [|done].
  destruct (truthy _); [|done]. by apply counted_map_file.
Qed.

Lemma counted_resumeAll m :
  Forall counted (files m) → Forall counted (files (resumeAll m)).
Proof.
  intros H. unfold resumeAll. cbv zeta. apply counted_processQueue.
  destruct (activeFileId _); [|done].
  destruct (truthy _); [|done].
  destruct (find_file _ _); [|done].
  case_bool_decide; [|done]. by apply counted_map_file.
Qed.

Lemma counted_startUpload m :
  Forall counted (files m) → Forall counted (files (startUpload m)).
Proof.
  intros H. by apply counted_processQueue, counted_updateQueuePositions.
Qed.

Lemma counted_reset_failed_chunks x i cs m :
  Forall counted (files m) →
  Forall counted (files (reset_failed_chunks x i cs m)).
Proof.
  revert i m. induction cs as [|c cs IH]; intros i m H; [done|].
  simpl. apply IH. case_bool_decide; [|done].
  by apply counted_updateChunkStatus.
Qed.

Lemma counted_retryFailed m :
  Forall counted (files m) → Forall counted (files (retryFailed m)).
Proof.
  intros H. unfold retryFailed. cbv zeta.
  apply counted_processQueue, counted_updateQueuePositions.
  generalize (filter (λ f, status f = Error) (files m)). intros l.
  revert m H. induction l as [|f l IH]; intros m H; [done|].
  simpl. apply IH. unfold retry_file.
  by apply counted_reset_failed_chunks, counted_updateFileStatus.
Qed.

Lemma counted_cancelAll m :
  Forall counted (files m) → Forall counted (files (cancelAll m)).
Proof.
  intros H. unfold cancelAll. cbv zeta.
  apply counted_updateQueuePositions. cbn [files set_activeFileId].
  assert (∀ l m', Forall counted (files m') →
                  Forall counted (files (foldl reset_status m' l))) as Hl.
  { induction l as [|f l IH]; intros m' H'; [done|].
    simpl. apply IH. unfold reset_status.
    destruct (_ || _); [by apply counted_updateFileStatus|done]. }
  by apply Hl.
Qed.

Lemma counted_clearCompleted m :
  Forall counted (files m) → Forall counted (files (clearCompleted m)).
Proof.
  intros H. unfold clearCompleted. apply counted_updateQueuePositions.
  cbn [files set_files]. by apply Forall_filter_sub.
Qed.

Lemma counted_step e m :
  NoDup (id <$> files m) →
  Forall counted (files m) → Forall counted (files (step m e)).
Proof.
  intros Hnd H. destruct e; simpl.
  - by apply counted_addFiles.
  - by apply counted_startUpload.
  - by apply counted_pauseAll.
  - by apply counted_resumeAll.
  - by apply counted_removeFile.
  - by apply counted_retryFailed.
  - by apply counted_cancelAll.
  - by apply counted_clearCompleted.
  - by apply counted_fire.
Qed.

(** In every state the manager reaches, [uploadedChunks] is the number
    of completed chunks of each file: the first of the two equalities
    of the progress invariant holds throughout. *)
Lemma counted_exec trace m :
  Inv m → fresh_ids m trace → Forall counted (files m) →
  Forall counted (files (exec m trace)).
Proof.
  revert m. induction trace as [|e trace IH]; intros m Hi Hf H; [done|].
  destruct Hf as [He Hf]. simpl. apply IH; [|done|].
  - by apply (Inv_exec [e] m).
  - apply counted_step; [by destruct Hi|done].
Qed.

Lemma uploadedChunks_counts_completed options trace :
  fresh_ids (create options) trace →
  Forall counted (files (exec (create options) trace)).
Proof.
  intros Hf. apply counted_exec; [apply Inv_create|done|constructor].
Qed.

End counting.

(** * The orphan sweep on an example *)

(** An upload whose chunks are 30 hours old is deleted, one that is 2
    hours old stays, and the counts are those of the deleted group. *)
Example sweep_keeps_the_young_group :
  let result := Sweep.cleanup_orphaned Scenario.env Orphans.clock
                  Orphans.stale in
  pathname <$> result.1 = [Server.chunk_path (lit "new") 0]
  ∧ result.2 = Sweep.Swept 2 0 2.
Proof. by vm_compute. Qed.

(** * The chunk route and the store *)

Section chunk_route.
Implicit Types (st : Store) (path : jsstring) (b : Blob).

Lemma put_other path t bytes st b :
  pathname b ≠ path → b ∈ BlobStore.put path t bytes st ↔ b ∈ st.
Proof.
  intros Hb. induction st as [|b0 st IH]; simpl.
  - rewrite list_elem_of_singleton. split; [intros ->; by destruct Hb|].
    by intros ?%elem_of_nil.
  - case_bool_decide as E; rewrite !elem_of_cons.
    + split.
      * intros [->|H]; [by destruct Hb|by right].
      * intros [->|H]; [by destruct Hb|by right].
    + by rewrite IH.
Qed.

Lemma put_stored path t bytes st : mkBlob path t bytes ∈ BlobStore.put path t bytes st.
Proof.
  induction st as [|b0 st IH]; simpl; [by left|].
  case_bool_decide; [by left|by right].
Qed.

End chunk_route.

(** X1: the chunk route writes one object and nothing else.  A request
    it refuses (a missing part, an upload id that is empty, an index
    or a total that does not parse as an integer) and a request whose
    [put] fails leave the store as it was; an accepted request stores
    the bytes sent under [uploads/<uploadId>/chunk-<index>.bin], for
    the index parsed from the form field, and every object under
    another key is left in place. *)
Theorem chunk_writes_one_object (env : Env) (now : Z) (st : Store)
    (r : Server.ChunkRequest) :
  let res := Server.chunk env now st r in
  (Server.chunk_ok res.2 = false → res.1 = st)
  ∧ (∀ i url, res.2 = Server.ChunkReceived i url →
       JS.parseInt10 (Server.c_chunkIndex r) = Some i
       ∧ url = Server.chunk_path (Server.c_uploadId r) i
       ∧ (∃ bytes, Server.c_chunk r = Some bytes
                   ∧ mkBlob url now bytes ∈ res.1)
       ∧ (∀ b, pathname b ≠ url → b ∈ res.1 ↔ b ∈ st)).
Proof.
  unfold Server.chunk.
  destruct (Server.c_chunk r) as [bytes|]; [|by split].
  destruct (JS.parseInt10 (Server.c_chunkIndex r)) as [i|]; [|by split].
  destruct (JS.parseInt10 (Server.c_totalChunks r)) as [n|]; [|by split].
  destruct (Server.falsy _); [by split|].
  destruct (put_ok env); [|by split].
  cbv zeta. cbn [fst snd]. split; [done|].
  intros i' url [= <- <-]. split_and!; [done..| |].
  - exists bytes. split; [done|apply put_stored].
  - intros b Hb. by apply put_other.
Qed.

(** * The chunks of a file *)

Section sizes.
Variable cs : nat.
Hypothesis cs_pos : 0 < cs.

Lemma ceil_div_lt a i : i < Client.ceil_div a cs ↔ i * cs < a.
Proof.
  unfold Client.ceil_div.
  pose proof (Nat.div_mod_eq a cs). pose proof (Nat.mod_upper_bound a cs).
  destruct (Nat.eqb_spec (a mod cs) 0); split; intros; nia.
Qed.

End sizes.

(** X2: [addFiles] and [uploadChunk] cut a file into consecutive
    slices: joined in order the chunks give back the file; every chunk
    has at least one byte and at most [chunkSize]; every chunk but the
    last has exactly [chunkSize] bytes; an index past the last chunk
    would give an empty slice. *)
Theorem chunks_partition_the_file (m : Client.Manager) (nf : Client.NewFile) :
  0 < Client.opt_chunkSize (Client.options m) →
  let f := Client.new_chunked_file m nf in
  concat (Client.chunk_bytes f <$> seq 0 (Client.totalChunks f))
  = Client.f_bytes (Client.nf_file nf)
  ∧ (∀ i, i < Client.totalChunks f →
       0 < length (Client.chunk_bytes f i) ≤ Client.chunkSize f)
  ∧ (∀ i, S i < Client.totalChunks f →
       length (Client.chunk_bytes f i) = Client.chunkSize f)
  ∧ (∀ i, Client.totalChunks f ≤ i → Client.chunk_bytes f i = []).
Proof.
  intros Hc f.
  assert (well_formed f) as Hw by (by apply new_chunked_file_well_formed).
  split; [by apply chunks_whole|].
  assert (∀ i, length (Client.chunk_bytes f i)
               = Nat.min (Client.chunkSize f)
                   (length (Client.f_bytes (Client.nf_file nf))
                    - i * Client.chunkSize f)) as Hlen.
  { intros i. unfold Client.chunk_bytes.
    change (Client.size f) with (length (Client.f_bytes (Client.nf_file nf))).
    change (Client.f_bytes (Client.file f))
      with (Client.f_bytes (Client.nf_file nf)).
    rewrite (piece_take (Client.f_bytes (Client.nf_file nf))
               (Client.chunkSize f)) by exact Hc.
    by rewrite length_take, length_drop. }
  assert (∀ i, i < Client.totalChunks f ↔
               i * Client.chunkSize f
               < length (Client.f_bytes (Client.nf_file nf))) as Hlt.
  { intros i. by apply (ceil_div_lt (Client.chunkSize f) Hc). }
  split_and!.
  - intros i Hi%Hlt. rewrite Hlen.
    change (Client.chunkSize f) with (Client.opt_chunkSize (Client.options m))
      in *. lia.
  - intros i Hi%Hlt. rewrite Hlen.
    change (Client.chunkSize f) with (Client.opt_chunkSize (Client.options m))
      in *. lia.
  - intros i Hi. apply nil_length_inv. rewrite Hlen.
    assert (¬ i < Client.totalChunks f) as Hn by lia.
    rewrite Hlt in Hn.
    change (Client.chunkSize f) with (Client.opt_chunkSize (Client.options m))
      in *. lia.
Qed.

Lemma chunks_partition_the_file_example :
  0 < Client.opt_chunkSize (Client.options (Client.create Scenario.options))
  ∧ length <$> (Client.chunk_bytes Scenario.chunked <$> seq 0 3) = [2; 2; 1].
Proof.
  assert (0 < Client.opt_chunkSize
                (Client.options (Client.create Scenario.options))) as H
    by (vm_compute; lia).
  split; [exact H|].
  destruct (chunks_partition_the_file (Client.create Scenario.options)
              Scenario.photo H) as (_ & _ & H3 & _).
  change (Client.new_chunked_file (Client.create Scenario.options)
            Scenario.photo) with Scenario.chunked in H3.
  cbn [seq fmap list_fmap].
  rewrite (H3 0), (H3 1) by (vm_compute; lia). reflexivity.
Defined.

(** * What the routes delete *)

Section deleting.
Context (env : Env).
Implicit Types (st : Store) (b : Blob) (pre : jsstring).

(** The best-effort deletion of the objects listed under a prefix. *)
Lemma delete_listed pre st (l : list Blob) :
  l ≡ₚ BlobStore.list_prefix pre st →
  ∀ b, b ∈ Server.delete_all env l st ↔
       b ∈ st ∧ ¬ (JS.starts_with pre (pathname b) = true
                   ∧ del_ok env (pathname b) = true).
Proof.
  intros Hl b. rewrite delete_all_spec, list_elem_of_filter, list_elem_of_fmap.
  split.
  - intros [Hnot Hin]. split; [done|]. intros [Hp Hd].
    apply Hnot. exists b. split; [done|].
    apply list_elem_of_filter. split; [done|].
    rewrite Hl. by apply list_elem_of_filter.
  - intros [Hin Hnot]. split; [|done]. intros (b' & Hpb & Hb').
    apply list_elem_of_filter in Hb' as [Hd Hb'].
    rewrite Hl in Hb'. apply list_elem_of_filter in Hb' as [Hp _].
    apply Hnot. by rewrite Hpb.
Qed.

Lemma delete_listed_all pre st (l : list Blob) :
  l ≡ₚ BlobStore.list_prefix pre st →
  (∀ b, b ∈ st → del_ok env (pathname b) = true) →
  BlobStore.list_prefix pre (Server.delete_all env l st) = [].
Proof.
  intros Hl Hd. apply elem_of_nil_inv. intros b Hb.
  apply list_elem_of_filter in Hb as [Hp Hb].
  apply (delete_listed pre st l Hl) in Hb as [Hin Hnot].
  apply Hnot. split; [done|by apply Hd].
Qed.

End deleting.

(** X3: the completion route changes the chunk store only when the
    photo backend accepted the file.  With missing fields, a count
    mismatch or a failing backend the store is left as it was, so the
    completion can be asked again.  On success the backend was called
    once, every listed chunk whose deletion went through is gone and
    every other object is in place, and [chunksCleanedUp] is the number
    of chunks of the request, whether or not their deletion went
    through. *)
Theorem complete_store_effect (env : Env) (st : Store)
    (r : Server.CompleteRequest) :
  let out := Server.complete env st r in
  (Server.complete_ok (Server.co_response out) = false →
   Server.co_store out = st)
  ∧ (Server.co_response out = Server.CompleteFailed →
     length (Server.co_uploads out) = 1)
  ∧ (∀ mediaItemId filename n,
       Server.co_response out = Server.CompleteSuccess mediaItemId filename n →
       n = Server.r_totalChunks r
       ∧ length (Server.co_uploads out) = 1
       ∧ ∀ b, b ∈ Server.co_store out ↔
              b ∈ st
              ∧ ¬ (JS.starts_with (Server.chunk_prefix (Server.r_uploadId r))
                     (pathname b) = true
                   ∧ del_ok env (pathname b) = true)).
Proof.
  unfold Server.complete.
  destruct (_ || _ || _ || _); [by split_and!|].
  destruct (negb _) eqn:E; [by split_and!|]. cbv zeta.
  apply negb_false_iff, Nat.eqb_eq in E.
  destruct (uploadToGooglePhotos env _ _ _) as [mediaItemId|];
    [|by split_and!].
  cbn [Server.co_response Server.co_store Server.co_uploads].
  split_and!; [done..|]. intros i fn n [= _ _ <-]. split_and!.
  - by rewrite array_sort_perm.
  - done.
  - apply delete_listed, array_sort_perm.
Qed.

(** X4: a completion that succeeded cannot be repeated.  When the
    deletions of the chunks went through, the same request asked again
    finds no chunk: it is refused with the count mismatch, 0 received,
    and does not reach the photo backend a second time. *)
Theorem complete_is_not_repeated (env : Env) (st : Store)
    (r : Server.CompleteRequest) (mediaItemId filename : jsstring) (n : nat) :
  Server.co_response (Server.complete env st r)
    = Server.CompleteSuccess mediaItemId filename n →
  (∀ b, b ∈ st → del_ok env (pathname b) = true) →
  let st' := Server.co_store (Server.complete env st r) in
  BlobStore.list_prefix (Server.chunk_prefix (Server.r_uploadId r)) st' = []
  ∧ Server.co_response (Server.complete env st' r)
    = Server.NotAllChunksReceived 0 (Server.r_totalChunks r)
  ∧ Server.co_uploads (Server.complete env st' r) = [].
Proof.
  intros H Hd st'.
  assert (BlobStore.list_prefix (Server.chunk_prefix (Server.r_uploadId r)) st'
          = []) as Hempty.
  { subst st'. unfold Server.complete in *.
    destruct (_ || _ || _ || _); [done|].
    destruct (negb _); [done|]. cbv zeta in *.
    destruct (uploadToGooglePhotos env _ _ _); [|done].
    cbn [Server.co_store]. apply delete_listed_all; [|done].
    apply array_sort_perm. }
  split; [done|].
  unfold Server.complete in *.
  destruct (_ || _ || _ || _) eqn:Ev; [done|].
  rewrite Hempty. cbn [length].
  apply orb_false_iff in Ev as [_ Ev].
  destruct (Nat.eqb_spec (Server.r_totalChunks r) 0) as [|Hne]; [done|].
  destruct (Nat.eqb_spec 0 (Server.r_totalChunks r)) as [E0|_];
    [by destruct Hne|]. by simpl.
Qed.

Lemma complete_is_not_repeated_example :
  Server.complete_ok
    (Server.co_response
       (Server.complete Scenario.env
          (store_chunks Scenario.env Scenario.chunked Scenario.sends [])
          (Client.complete_request Scenario.chunked))) = true
  ∧ Server.co_response
      (Server.complete Scenario.env
         (Server.co_store
            (Server.complete Scenario.env
               (store_chunks Scenario.env Scenario.chunked Scenario.sends [])
               (Client.complete_request Scenario.chunked)))
         (Client.complete_request Scenario.chunked))
    = Server.NotAllChunksReceived 0 3.
Proof.
  split; [by vm_compute|].
  refine (proj1 (proj2 (complete_is_not_repeated Scenario.env
    (store_chunks Scenario.env Scenario.chunked Scenario.sends [])
    (Client.complete_request Scenario.chunked)
    (lit "media-1") (Server.sanitize (Client.name Scenario.chunked)) 3
    _ _))).
  - by vm_compute.
  - done.
Defined.

(** * The cleanup route *)

Section prefixes.

Lemma starts_with_common (p a b : jsstring) :
  JS.starts_with (p ++ a) (p ++ b) = JS.starts_with a b.
Proof.
  induction p as [|c p IH]; [done|]. simpl.
  by rewrite bool_decide_eq_true_2.
Qed.

Lemma slash_prefix_inj (id1 id2 rest : jsstring) :
  (47%N : N) ∉ id1 → (47%N : N) ∉ id2 →
  JS.starts_with (id1 ++ [47%N]) (id2 ++ 47%N :: rest) = true → id1 = id2.
Proof.
  revert id2. induction id1 as [|a id1 IH]; intros [|c id2] H1 H2 H;
    simpl in H; try done.
  - apply andb_prop in H as [E _]. apply bool_decide_eq_true_1 in E.
    destruct H2. rewrite E. by left.
  - apply andb_prop in H as [E _]. apply bool_decide_eq_true_1 in E.
    destruct H1. rewrite E. by left.
  - apply andb_prop in H as [E H]. apply bool_decide_eq_true_1 in E.
    apply not_elem_of_cons in H1 as [_ H1].
    apply not_elem_of_cons in H2 as [_ H2].
    f_equal; [done|]. by apply IH.
Qed.

(** The keys of another upload are not under the prefix of this one. *)
Lemma upload_prefix_other (uploadId other : jsstring) (i : Z) :
  (47%N : N) ∉ uploadId → (47%N : N) ∉ other → other ≠ uploadId →
  JS.starts_with (Cleanup.upload_prefix uploadId) (Server.chunk_path other i)
  = false.
Proof.
  intros H1 H2 Hne. apply not_true_is_false. intros H. apply Hne. symmetry.
  unfold Cleanup.upload_prefix, Server.chunk_path in H.
  rewrite starts_with_common, lit_slash_chunk in H.
  by apply (slash_prefix_inj uploadId other _ H1 H2 H).
Qed.

Lemma upload_prefix_own (uploadId : jsstring) (i : Z) :
  JS.starts_with (Cleanup.upload_prefix uploadId) (Server.chunk_path uploadId i)
  = true.
Proof.
  unfold Cleanup.upload_prefix, Server.chunk_path.
  by rewrite !starts_with_common.
Qed.

End prefixes.

(** X5: the cleanup route of one upload.  Without an upload id it
    answers 400 and touches nothing.  Otherwise the objects that
    remain are those of the store that are not under
    [uploads/<uploadId>/] or whose deletion failed; the two counts
    returned add up to the number of objects listed; every chunk key
    written for this upload is under that prefix, and no chunk key of
    another upload is (ids hold no slash), so its chunks stay. *)
Theorem cleanup_removes_one_upload (env : Env) (st : Store)
    (uploadId : jsstring) :
  let res := Cleanup.cleanup env st uploadId in
  let listed := BlobStore.list_prefix (Cleanup.upload_prefix uploadId) st in
  (uploadId = [] → res = (st, Cleanup.UploadIdRequired))
  ∧ (uploadId ≠ [] →
     (∀ b, b ∈ res.1 ↔
           b ∈ st ∧ ¬ (JS.starts_with (Cleanup.upload_prefix uploadId)
                         (pathname b) = true
                       ∧ del_ok env (pathname b) = true))
     ∧ (listed = [] → res.2 = Cleanup.NoChunksToCleanUp 0)
     ∧ (listed ≠ [] →
        ∃ deleted failed,
          res.2 = Cleanup.CleanedUp deleted failed (length listed)
          ∧ deleted + failed = length listed
          ∧ deleted
            = length (filter (λ b, del_ok env (pathname b) = true) listed)))
  ∧ (∀ i, JS.starts_with (Cleanup.upload_prefix uploadId)
            (Server.chunk_path uploadId i) = true)
  ∧ (∀ other i t bytes,
       (47%N : N) ∉ uploadId → (47%N : N) ∉ other → other ≠ uploadId →
       uploadId ≠ [] →
       mkBlob (Server.chunk_path other i) t bytes ∈ st →
       mkBlob (Server.chunk_path other i) t bytes ∈ res.1).
Proof.
  intros res listed.
  assert (uploadId ≠ [] →
          ∀ b, b ∈ res.1 ↔
               b ∈ st ∧ ¬ (JS.starts_with (Cleanup.upload_prefix uploadId)
                             (pathname b) = true
                           ∧ del_ok env (pathname b) = true)) as Hkeep.
  { intros Hne b. subst res. unfold Cleanup.cleanup, Server.falsy.
    rewrite bool_decide_eq_false_2 by done. fold listed.
    destruct (Nat.eqb_spec (length listed) 0) as [E|E]; cbn [fst].
    - apply nil_length_inv in E. split; [|by intros []].
      intros Hb. split; [done|]. intros [Hp _].
      assert (b ∈ listed) as Hin by (by apply list_elem_of_filter).
      rewrite E in Hin. by apply elem_of_nil in Hin.
    - by apply delete_listed. }
  split_and!.
  - intros ->. done.
  - intros Hne. split; [by apply Hkeep|].
    subst res. unfold Cleanup.cleanup, Server.falsy.
    rewrite bool_decide_eq_false_2 by done. fold listed.
    destruct (Nat.eqb_spec (length listed) 0) as [E|E]; cbn [snd].
    + split; [done|]. intros Hl. apply nil_length_inv in E. done.
    + split; [intros Hl; by rewrite Hl in E|]. intros _.
      eexists _, _. split; [done|]. split; [|done].
      clear E. induction listed as [|b l IH]; [done|].
      rewrite !filter_cons.
      destruct (del_ok env (pathname b)); simpl; rewrite <- IH; lia.
  - apply upload_prefix_own.
  - intros other i t bytes H1 H2 Hne Hid Hin.
    apply Hkeep; [done|]. split; [done|]. intros [Hp _].
    cbn [pathname] in Hp. by rewrite upload_prefix_other in Hp.
Qed.

(** * The filename handed to the backend *)

(** X6: the replacement of the completion route leaves only word
    characters, white space, dots and hyphens, so applying it again
    changes nothing, and a filename made of such characters passes
    unchanged. *)
Theorem sanitize_is_idempotent (filename : jsstring) :
  Forall (λ c, Server.allowed_char c = true) (Server.sanitize filename)
  ∧ Server.sanitize (Server.sanitize filename) = Server.sanitize filename
  ∧ (Forall (λ c, Server.allowed_char c = true) filename ↔
     Server.sanitize filename = filename).
Proof.
  assert (∀ s, Forall (λ c, Server.allowed_char c = true) s →
               Server.sanitize s = s) as Hfix.
  { intros s Hs. unfold Server.sanitize.
    induction Hs as [|c s Hc _ IH]; [done|].
    rewrite fmap_cons, IH. by rewrite Hc. }
  assert (Forall (λ c, Server.allowed_char c = true)
            (Server.sanitize filename)) as Hall.
  { unfold Server.sanitize. apply Forall_fmap, Forall_forall. intros c _.
    simpl. destruct (Server.allowed_char c) eqn:E; [done|].
    apply underscore_allowed. }
  split_and!; [done|by apply Hfix|].
  split; [apply Hfix|]. intros E. by rewrite <- E.
Qed.

(** * The semaphore of the photo library *)

Section semaphore.
Import Semaphore.

Lemma fair_start n : fair n (start n).
Proof.
  unfold fair, start. simpl. split_and!; try done; constructor.
Qed.

Lemma filter_remove_one (c : nat) (l : list nat) :
  NoDup l → c ∈ l → S (length (filter (λ x, x ≠ c) l)) = length l.
Proof.
  induction 1 as [|x l Hx Hnd IH]; [by intros ?%elem_of_nil|].
  intros Hc. rewrite filter_cons. destruct (decide (x = c)) as [->|Hne].
  - rewrite decide_False by (by intros []). simpl. f_equal.
    f_equal. apply filter_all, Forall_forall. intros y Hy ->. done.
  - rewrite decide_True by done. simpl. f_equal. apply IH.
    apply elem_of_cons in Hc as [->|Hc]; [by destruct Hne|done].
Qed.

Lemma fair_step n sys e :
  fair n sys →
  match e with
  | Arrive caller => caller ∉ arrived sys
  | Leave caller => caller ∈ holding sys
  end →
  fair n (step sys e).
Proof.
  intros (Ha & Hnd & Hh & Hsub & Hn & Hw) He. unfold fair.
  destruct sys as [[p w] arr adm hold]. simpl in *.
  destruct e as [c|c]; simpl.
  - unfold acquire. simpl. destruct (Nat.ltb_spec 0 p) as [Hp|Hp]; simpl.
    + assert (w = []) as ->.
      { destruct w as [|x w']; [done|]. rewrite Hw in Hp by done. lia. }
      rewrite app_nil_r in Ha. subst arr. rewrite app_nil_r.
      split_and!; try done.
      * apply NoDup_app. split_and!; [done|set_solver|apply NoDup_singleton].
      * apply NoDup_app. split_and!; [done|set_solver|apply NoDup_singleton].
      * set_solver.
      * rewrite length_app. simpl. lia.
    + split_and!; try done.
      * rewrite Ha. by rewrite <- (assoc_L (++)).
      * apply NoDup_app. split_and!; [done|set_solver|apply NoDup_singleton].
      * intros _. lia.
  - unfold release. simpl. destruct w as [|next w]; simpl.
    + split_and!; try done.
      * by apply NoDup_filter.
      * intros x [_ Hx]%list_elem_of_filter. by apply Hsub.
      * pose proof (filter_remove_one c hold Hh He). lia.
    + assert (p = 0) as -> by (by apply Hw).
      assert (next ∉ hold) as Hnext.
      { intros Hin%Hsub. rewrite Ha in Hnd.
        apply NoDup_app in Hnd as (_ & Hdis & _).
        apply (Hdis next Hin). by left. }
      split_and!.
      * rewrite Ha. by rewrite <- (assoc_L (++)).
      * done.
      * apply NoDup_app. split_and!;
          [by apply NoDup_filter| |apply NoDup_singleton].
        intros x [_ Hx]%list_elem_of_filter Hx'%list_elem_of_singleton.
        by subst.
      * intros x Hx. apply elem_of_app in Hx as [Hx|Hx].
        -- apply list_elem_of_filter in Hx as [_ Hx].
           apply elem_of_app. left. by apply Hsub.
        -- apply elem_of_app. by right.
      * rewrite length_app. simpl.
        pose proof (filter_remove_one c hold Hh He). lia.
      * done.
Qed.

Lemma fair_exec n trace sys :
  fair n sys → disciplined sys trace → fair n (exec sys trace).
Proof.
  revert sys. induction trace as [|e trace IH]; intros sys H Hd; [done|].
  destruct Hd as [He Hd]. simpl. apply IH; [|done].
  apply fair_step; [done|]. by destruct e.
Qed.

End semaphore.

(** X7: the semaphore admits at most [permits] callers at a time.
    After any sequence of calls of [uploadToGooglePhotos] arriving and
    leaving (each call arrives once, and only a call that holds a
    permit releases), the callers inside the guarded block and the
    permits left add up to the initial number of permits, and a caller
    waits only when no permit is left. *)
Theorem semaphore_bounds_the_callers (n : nat)
    (trace : list Semaphore.Event) :
  Semaphore.disciplined (Semaphore.start n) trace →
  let sys := Semaphore.exec (Semaphore.start n) trace in
  length (Semaphore.holding sys)
  + Semaphore.permits (Semaphore.semaphore sys) = n
  ∧ length (Semaphore.holding sys) ≤ n
  ∧ (Semaphore.waiting (Semaphore.semaphore sys) ≠ [] →
     length (Semaphore.holding sys) = n)
  ∧ NoDup (Semaphore.holding sys).
Proof.
  intros Hd sys.
  destruct (fair_exec n trace (Semaphore.start n) (fair_start n) Hd)
    as (_ & _ & Hh & _ & Hn & Hw).
  fold sys in Hh, Hn, Hw. split_and!; [done|lia| |done].
  intros H. specialize (Hw H). lia.
Qed.

(** X8: the semaphore is first come, first served.  At any moment the
    callers that were given a permit so far, in the order in which
    they got it, followed by those still waiting, are the callers in
    the order of their [acquire]. *)
Theorem semaphore_is_first_come_first_served (n : nat)
    (trace : list Semaphore.Event) :
  Semaphore.disciplined (Semaphore.start n) trace →
  let sys := Semaphore.exec (Semaphore.start n) trace in
  Semaphore.arrived sys
  = Semaphore.admitted sys ++ Semaphore.waiting (Semaphore.semaphore sys).
Proof.
  intros Hd sys.
  by destruct (fair_exec n trace (Semaphore.start n) (fair_start n) Hd)
    as (Ha & _).
Qed.

Lemma semaphore_bounds_the_callers_example :
  Semaphore.disciplined (Semaphore.start 2)
    [Semaphore.Arrive 1; Semaphore.Arrive 2; Semaphore.Arrive 3;
     Semaphore.Arrive 4; Semaphore.Leave 2; Semaphore.Leave 1;
     Semaphore.Arrive 5; Semaphore.Leave 3]
  ∧ length (Semaphore.holding
              (Semaphore.exec (Semaphore.start 2)
                 [Semaphore.Arrive 1; Semaphore.Arrive 2; Semaphore.Arrive 3;
                  Semaphore.Arrive 4; Semaphore.Leave 2; Semaphore.Leave 1;
                  Semaphore.Arrive 5; Semaphore.Leave 3])) ≤ 2.
Proof.
  assert (Semaphore.disciplined (Semaphore.start 2)
            [Semaphore.Arrive 1; Semaphore.Arrive 2; Semaphore.Arrive 3;
             Semaphore.Arrive 4; Semaphore.Leave 2; Semaphore.Leave 1;
             Semaphore.Arrive 5; Semaphore.Leave 3]) as H.
  { repeat split; apply (bool_decide_unpack _); by vm_compute. }
  split; [exact H|].
  exact (proj1 (proj2 (semaphore_bounds_the_callers 2 _ H))).
Defined.

Lemma semaphore_is_first_come_first_served_example :
  Semaphore.disciplined (Semaphore.start 2)
    [Semaphore.Arrive 7; Semaphore.Arrive 3; Semaphore.Arrive 9;
     Semaphore.Arrive 4; Semaphore.Leave 3; Semaphore.Arrive 1]
  ∧ Semaphore.admitted
      (Semaphore.exec (Semaphore.start 2)
         [Semaphore.Arrive 7; Semaphore.Arrive 3; Semaphore.Arrive 9;
          Semaphore.Arrive 4; Semaphore.Leave 3; Semaphore.Arrive 1])
    ++ Semaphore.waiting
         (Semaphore.semaphore
            (Semaphore.exec (Semaphore.start 2)
               [Semaphore.Arrive 7; Semaphore.Arrive 3; Semaphore.Arrive 9;
                Semaphore.Arrive 4; Semaphore.Leave 3; Semaphore.Arrive 1]))
    = [7; 3; 9; 4; 1].
Proof.
  assert (Semaphore.disciplined (Semaphore.start 2)
            [Semaphore.Arrive 7; Semaphore.Arrive 3; Semaphore.Arrive 9;
             Semaphore.Arrive 4; Semaphore.Leave 3; Semaphore.Arrive 1]) as H.
  { repeat split; apply (bool_decide_unpack _); by vm_compute. }
  split; [exact H|].
  rewrite <- (semaphore_is_first_come_first_served 2 _ H). reflexivity.
Defined.

(** * The upload token *)

Section token.
Import Photos.
Variable replies : nat → Reply.

Lemma token_loop_unfold turns retries :
  token_loop (S turns) replies retries
  = match getUploadToken (replies retries) with
    | inl token =>
        (if Server.falsy token then NoUploadToken else UploadToken token, [])
    | inr e =>
        if rate_limited e then
          if retries + 1 <=? maxRetries then
            (let '(result, delays) := token_loop turns replies (retries + 1) in
             (result, retryDelay * 2 ^ (retries + 1 - 1) :: delays))
          else (RateLimitExceeded, [])
        else (Rethrown e, [])
    end.
Proof. reflexivity. Qed.

Lemma token_loop_spec turns retries :
  retries ≤ maxRetries → maxRetries - retries < turns →
  let res := token_loop turns replies retries in
  (∀ turns', maxRetries - retries < turns' →
             token_loop turns' replies retries = res)
  ∧ length res.2 ≤ maxRetries - retries
  ∧ res.2 = (λ i, retryDelay * 2 ^ i) <$> seq retries (length res.2)
  ∧ (∀ k, retries ≤ k < retries + length res.2 → throttled replies k)
  ∧ (∀ token, res.1 = UploadToken token →
       token ≠ []
       ∧ getUploadToken (replies (retries + length res.2)) = inl token)
  ∧ (res.1 = RateLimitExceeded →
       retries + length res.2 = maxRetries ∧ throttled replies maxRetries)
  ∧ (∀ e, res.1 = Rethrown e →
       getUploadToken (replies (retries + length res.2)) = inr e
       ∧ rate_limited e = false)
  ∧ (res.1 = NoUploadToken →
       getUploadToken (replies (retries + length res.2)) = inl []).
Proof.
  revert retries. induction turns as [|turns IH]; intros retries Hr Ht; [lia|].
  cbv zeta. rewrite token_loop_unfold.
  destruct (getUploadToken (replies retries)) as [token|e] eqn:E.
  - assert (∀ turns', maxRetries - retries < turns' →
              token_loop turns' replies retries
              = (if Server.falsy token then NoUploadToken
                 else UploadToken token, [])) as Hfuel.
    { intros [|turns'] Ht'; [lia|]. by rewrite token_loop_unfold, E. }
    unfold Server.falsy in *. cbn [fst snd length]. rewrite Nat.add_0_r.
    case_bool_decide as Et; split_and!; try done; try lia.
    + by rewrite <- Et.
    + intros token' [= <-]. done.
  - destruct (rate_limited e) eqn:El.
    + destruct (Nat.leb_spec (retries + 1) maxRetries) as [Hle|Hgt].
      * destruct (IH (retries + 1)) as (H1 & H2 & H3 & H4 & H5 & H6 & H7 & H8);
          [lia..|].
        cbv zeta in *.
        destruct (token_loop turns replies (retries + 1)) as [result delays]
          eqn:Eloop.
        cbn [fst snd length] in *.
        replace (retries + S (length delays))
          with (retries + 1 + length delays) by lia.
        split_and!; try done; try lia.
        -- intros [|turns'] Ht'; [lia|]. rewrite token_loop_unfold, E, El.
           destruct (Nat.leb_spec (retries + 1) maxRetries); [|lia].
           by rewrite H1 by lia.
        -- cbn [seq fmap list_fmap]. f_equal.
           ++ f_equal. f_equal. lia.
           ++ rewrite H3 at 1. by replace (retries + 1) with (S retries) by lia.
        -- intros k Hk. destruct (decide (k = retries)) as [->|Hne].
           ++ by exists e.
           ++ apply H4. lia.
      * assert (retries = maxRetries) as -> by lia.
        cbn [fst snd length].
        split_and!; try done; try lia.
        -- intros [|turns'] Ht'; [lia|]. rewrite token_loop_unfold, E, El.
           by destruct (Nat.leb_spec (maxRetries + 1) maxRetries); [lia|].
        -- intros _. split; [lia|]. by exists e.
    + cbn [fst snd length]. rewrite Nat.add_0_r.
      split_and!; try done; try lia.
      * intros [|turns'] Ht'; [lia|]. by rewrite token_loop_unfold, E, El.
      * by intros e' [= <-].
Qed.

End token.

(** X9: the loop of [uploadToGooglePhotos] that asks for an upload
    token.  It asks at most four times, whatever the replies (more
    turns would change nothing); before each new request it waits
    2000, 4000, then 8000 ms, and each of the requests before the last
    was refused for the rate limit.  It hands on a token only if it is
    not empty; it gives up with the rate-limit error exactly when all
    four requests hit the rate limit; any other failure is thrown on
    at once, and an empty token counts as no token. *)
Theorem upload_token_backs_off (replies : nat → Photos.Reply) :
  let res := Photos.upload_token replies in
  let waits := length res.2 in
  (∀ extra, Photos.token_loop (Photos.maxRetries + 1 + extra) replies 0 = res)
  ∧ waits ≤ 3
  ∧ res.2 = take waits [2000; 2 * 2000; 4 * 2000]
  ∧ (∀ k, k < waits → Photos.throttled replies k)
  ∧ (∀ token, res.1 = Photos.UploadToken token →
       token ≠ [] ∧ Photos.getUploadToken (replies waits) = inl token)
  ∧ (res.1 = Photos.RateLimitExceeded ↔
     ∀ k, k ≤ 3 → Photos.throttled replies k)
  ∧ (∀ e, res.1 = Photos.Rethrown e →
       Photos.getUploadToken (replies waits) = inr e
       ∧ Photos.rate_limited e = false)
  ∧ (res.1 = Photos.NoUploadToken →
       Photos.getUploadToken (replies waits) = inl []).
Proof.
  intros res waits.
  destruct (token_loop_spec replies (Photos.maxRetries + 1) 0)
    as (H1 & H2 & H3 & H4 & H5 & H6 & H7 & H8);
    [unfold Photos.maxRetries; lia..|].
  cbv zeta in *. fold (Photos.upload_token replies) in *.
  fold res in H1, H2, H3, H4, H5, H6, H7, H8. fold waits in H2, H3, H4, H5, H6, H7, H8.
  simpl in H5, H6, H7, H8. unfold Photos.maxRetries in H2, H6. simpl in H2.
  split_and!.
  - intros extra. apply H1. unfold Photos.maxRetries. lia.
  - lia.
  - rewrite H3. clear -H2.
    destruct waits as [|[|[|[|w]]]]; try reflexivity. lia.
  - intros k Hk. apply H4. lia.
  - done.
  - split.
    + intros [Hw Ht]%H6 k Hk. destruct (decide (k = 3)) as [->|Hne]; [done|].
      apply H4. lia.
    + intros Hall. destruct (res.1) as [token| |e|] eqn:Er; [|done| |].
      * destruct (H5 token eq_refl) as [_ E].
        destruct (Hall waits) as (e & E' & _); [lia|]. congruence.
      * destruct (H7 e eq_refl) as [E El].
        destruct (Hall waits) as (e' & E' & El'); [lia|]. congruence.
      * specialize (H8 eq_refl).
        destruct (Hall waits) as (e' & E' & _); [lia|]. congruence.
  - done.
  - done.
Qed.

(** * The upload route for whole photos *)

Section upload.
Import Upload.

Lemma validate_None i photo : validate i photo = None ↔ acceptable photo.
Proof.
  unfold validate, acceptable, Server.falsy.
  destruct (is_file photo); cbn [negb]; [|split; [done|by intros [? _]]].
  destruct (decide (p_name photo = [])) as [En|En].
  { rewrite (bool_decide_eq_true_2 _ En). cbn [orb].
    split; [done|]. by intros (_ & ? & _). }
  rewrite (bool_decide_eq_false_2 _ En). cbn [orb].
  destruct (decide (p_type photo = [])) as [Et|Et].
  { rewrite (bool_decide_eq_true_2 _ Et). cbn [orb].
    split; [done|]. by intros (_ & _ & ? & _). }
  rewrite (bool_decide_eq_false_2 _ Et). cbn [orb].
  destruct (N.eqb_spec (p_size photo) 0) as [E0|E0].
  { split; [done|]. intros (_ & _ & _ & Hb & _). destruct Hb.
    unfold p_size in E0. apply nil_length_inv. lia. }
  destruct (N.ltb_spec MAX_FILE_SIZE (p_size photo)) as [Hgt|Hle].
  { split; [done|]. intros (_ & _ & _ & _ & ? & _). lia. }
  destruct (JS.starts_with (lit "image/") (p_type photo)) eqn:Es; cbn [negb].
  - split; [|done]. intros _. split_and!; try done.
    intros Eb. unfold p_size in E0. by rewrite Eb in E0.
  - split; [done|]. by intros (_ & _ & _ & _ & _ & ?).
Qed.

Lemma validate_all_None i photos :
  validate_all i photos = None ↔ Forall acceptable photos.
Proof.
  revert i. induction photos as [|p photos IH]; intros i; simpl.
  - split; [constructor|done].
  - rewrite Forall_cons, <- (IH (S i)), <- (validate_None i p).
    destruct (validate i p); [by split; [|intros []]|]. by split; [|intros []].
Qed.

Lemma split_results (results : list UploadResult) :
  length (filter (λ r, succeeded r = true) results)
  + length (filter (λ r, succeeded r = false) results)
  = length results.
Proof.
  induction results as [|r results IH]; [done|].
  rewrite !filter_cons. destruct (succeeded r); simpl; lia.
Qed.

Lemma succeeded_upload_one env p :
  succeeded (upload_one env p) = bool_decide (is_Some (backend env p)).
Proof.
  unfold upload_one, backend.
  destruct (uploadToGooglePhotos env _ _ _); symmetry.
  - by apply bool_decide_eq_true_2.
  - apply bool_decide_eq_false_2. by intros [? ?].
Qed.

Lemma no_success env photos :
  length (filter (λ r, succeeded r = true) (upload_one env <$> photos)) = 0
  ↔ Forall (λ p, backend env p = None) photos.
Proof.
  induction photos as [|p photos IH]; [by split; [constructor|]|].
  rewrite fmap_cons, filter_cons, Forall_cons, <- IH, succeeded_upload_one.
  destruct (backend env p) as [x|].
  - rewrite bool_decide_eq_true_2 by done. simpl. by split; [|intros []].
  - rewrite bool_decide_eq_false_2 by (by intros [? ?]). simpl.
    by split; [|intros []].
Qed.

Lemma no_failure env photos :
  length (filter (λ r, succeeded r = false) (upload_one env <$> photos)) = 0
  ↔ Forall (λ p, is_Some (backend env p)) photos.
Proof.
  induction photos as [|p photos IH]; [by split; [constructor|]|].
  rewrite fmap_cons, filter_cons, Forall_cons, <- IH, succeeded_upload_one.
  destruct (backend env p) as [x|].
  - rewrite bool_decide_eq_true_2 by done. simpl. by split; [|intros []].
  - rewrite bool_decide_eq_false_2 by (by intros [? ?]). simpl.
    split; [done|]. by intros [[? ?] _].
Qed.

Lemma some_success env photos :
  Exists (λ p, is_Some (backend env p)) photos
  ↔ length (filter (λ r, succeeded r = true) (upload_one env <$> photos)) ≠ 0.
Proof.
  induction photos as [|p photos IH]; [by split; [intros ?%Exists_nil|]|].
  rewrite fmap_cons, filter_cons, Exists_cons, IH, succeeded_upload_one.
  destruct (backend env p) as [x|].
  - rewrite bool_decide_eq_true_2 by done. simpl. split; [done|by left].
  - rewrite bool_decide_eq_false_2 by (by intros [? ?]). simpl.
    split; [|by right]. by intros [[? ?]|].
Qed.

Lemma some_failure env photos :
  Exists (λ p, backend env p = None) photos
  ↔ length (filter (λ r, succeeded r = false) (upload_one env <$> photos)) ≠ 0.
Proof.
  induction photos as [|p photos IH]; [by split; [intros ?%Exists_nil|]|].
  rewrite fmap_cons, filter_cons, Exists_cons, IH, succeeded_upload_one.
  destruct (backend env p) as [x|].
  - rewrite bool_decide_eq_true_2 by done. simpl. split; [|by right].
    by intros [|].
  - rewrite bool_decide_eq_false_2 by (by intros [? ?]). simpl.
    split; [done|by left].
Qed.

End upload.

(** X10: the upload route checks every photo before it sends any.  It
    answers 400 and reaches the photo backend for none of the photos
    as soon as the list is empty or one photo is not acceptable (not a
    file, no name, no type, no bytes, more than 20 MB, or a type that
    is not [image/...]).  Otherwise it sends every photo once, in
    order, and answers 200 when all were taken, 500 when none was, and
    207 when some were and some were not. *)
Theorem upload_route_validates_first (env : Env)
    (photos : list Upload.Photo) :
  let out := Upload.POST env photos in
  let code := Upload.status_code (Upload.response out) in
  (code = 400 ↔ photos = [] ∨ ¬ Forall Upload.acceptable photos)
  ∧ (code = 400 → Upload.uploads out = [])
  ∧ (code ≠ 400 →
     Upload.uploads out
     = (λ p, Server.mkMediaUpload (Upload.p_bytes p) (Upload.p_name p)
               (Upload.p_type p)) <$> photos)
  ∧ (code = 200 ↔
     photos ≠ [] ∧ Forall Upload.acceptable photos
     ∧ Forall (λ p, is_Some (Upload.backend env p)) photos)
  ∧ (code = 500 ↔
     photos ≠ [] ∧ Forall Upload.acceptable photos
     ∧ Forall (λ p, Upload.backend env p = None) photos)
  ∧ (code = 207 ↔
     Forall Upload.acceptable photos
     ∧ Exists (λ p, is_Some (Upload.backend env p)) photos
     ∧ Exists (λ p, Upload.backend env p = None) photos).
Proof.
  intros out code. subst code out. unfold Upload.POST.
  destruct photos as [|p0 photos'] eqn:Ep.
  { simpl. split_and!; try done.
    - split; [by left|done].
    - split; [done|]. by intros ([] & _).
    - split; [done|]. by intros ([] & _).
    - split; [done|]. by intros (_ & ?%Exists_nil & _). }
  rewrite <- Ep. assert (photos ≠ []) as Hne by (by rewrite Ep).
  assert ((length photos =? 0) = false) as ->.
  { apply Nat.eqb_neq. rewrite Ep. simpl. lia. }
  clear Ep p0 photos'.
  destruct (Upload.validate_all 0 photos) as [e|] eqn:Ev.
  { assert (¬ Forall Upload.acceptable photos) as Hbad.
    { intros H%(validate_all_None 0). congruence. }
    simpl. split_and!; try done.
    - split; [by right|done].
    - split; [done|]. by intros (_ & ? & _).
    - split; [done|]. by intros (_ & ? & _).
    - split; [done|]. by intros (? & _). }
  apply validate_all_None in Ev. cbv zeta.
  pose proof (split_results (Upload.upload_one env <$> photos)) as Hsum.
  rewrite length_fmap in Hsum.
  pose proof (no_success env photos) as Hs.
  pose proof (no_failure env photos) as Hf.
  assert (0 < length photos) as Hlen by (destruct photos; [done|simpl; lia]).
  pose proof (some_success env photos) as Hsome.
  pose proof (some_failure env photos) as Hnone.
  set (ok := length (filter (λ r, Upload.succeeded r = true)
                       (Upload.upload_one env <$> photos))) in *.
  set (ko := length (filter (λ r, Upload.succeeded r = false)
                       (Upload.upload_one env <$> photos))) in *.
  destruct (Nat.ltb_spec 0 ko) as [Hko|Hko];
    [destruct (Nat.eqb_spec ok 0) as [Hok|Hok]|]; simpl.
  - split_and!; try done.
    + split; [done|]. intros [?|?]; done.
    + split; [done|]. intros (_ & _ & H%Hf). lia.
    + split; [intros _|done]. split_and!; try done. by apply Hs.
    + split; [done|]. intros (_ & H%Hsome & _). done.
  - split_and!; try done.
    + split; [done|]. intros [?|?]; done.
    + split; [done|]. intros (_ & _ & H%Hf). lia.
    + split; [done|]. intros (_ & _ & H%Hs). done.
    + split; [intros _|done]. split_and!; [done|by apply Hsome|].
      apply Hnone. lia.
  - split_and!; try done.
    + split; [done|]. intros [?|?]; done.
    + split; [intros _|done]. split_and!; try done. apply Hf. lia.
    + split; [done|]. intros (_ & _ & H%Hs). lia.
    + split; [done|]. intros (_ & _ & H%Hnone). lia.
Qed.

(** * What the queue operations leave alone *)

Section restating.
Import Client.
Implicit Types (m : Manager) (fs : list ChunkedFile) (f : ChunkedFile).
Implicit Types (a : list FileStatus).

Lemma restated_refl a fs : restated a fs fs.
Proof. apply Forall_Forall2_diag, Forall_forall. intros f _. by split; [|left]. Qed.

Lemma restated_trans a fs1 fs2 fs3 :
  restated a fs1 fs2 → restated a fs2 fs3 → restated a fs1 fs3.
Proof.
  unfold restated. intros H1 H2. revert fs3 H2.
  induction H1 as [|f1 f2 fs1 fs2 [Hc Hs] _ IH]; intros fs3 H2.
  - by inversion H2.
  - inversion H2 as [|? f3 ? fs3' [Hc' Hs'] H2']; subst. constructor; [|auto].
    split; [congruence|]. destruct Hs' as [E|Hin]; [|by right].
    rewrite E. done.
Qed.

Lemma restated_mono a a' fs fs' :
  a ⊆ a' → restated a fs fs' → restated a' fs fs'.
Proof.
  intros Hsub H. eapply Forall2_impl; [exact H|].
  intros f f' [Hc [E|Hin]]; split; auto.
Qed.

Lemma restated_ids a fs fs' : restated a fs fs' → id <$> fs' = id <$> fs.
Proof.
  induction 1 as [|f f' fs fs' [Hc _] _ IH]; [done|].
  rewrite !fmap_cons, IH. f_equal.
  change (id (content f') = id (content f)). by rewrite Hc.
Qed.

Lemma restated_app a fs1 fs1' fs2 fs2' :
  restated a fs1 fs1' → restated a fs2 fs2' →
  restated a (fs1 ++ fs2) (fs1' ++ fs2').
Proof. apply Forall2_app. Qed.

Lemma restated_map_file a x h fs :
  (∀ f, content (h f) = content f
        ∧ (status (h f) = status f ∨ status (h f) ∈ a)) →
  restated a fs (map_file x h fs).
Proof.
  intros Hh. unfold restated, map_file.
  induction fs as [|f fs IH]; [constructor|].
  rewrite fmap_cons. constructor; [|exact IH].
  destruct (bool_decide (id f = x)); [apply Hh|by split; [|left]].
Qed.

Lemma restated_updateFileStatus a x s q m :
  s ∈ a → restated a (files m) (files (updateFileStatus x s q m)).
Proof.
  intros Hs. apply restated_map_file. intros f. split; [done|by right].
Qed.

Lemma restated_enqueue a k f m :
  Queued ∈ a → restated a (files m) (files (enqueue k f m)).
Proof.
  intros Hq. unfold enqueue. cbv zeta.
  eapply restated_trans;
    [|apply restated_map_file; intros g; by split; [|left]].
  case_bool_decide; [|apply restated_refl].
  apply (restated_updateFileStatus a _ _ _
           (set_uploadQueue (uploadQueue m ++ [id f]) m) Hq).
Qed.

Lemma restated_enqueue_all a q k m :
  Queued ∈ a → restated a (files m) (files (enqueue_all k q m)).
Proof.
  intros Hq. revert k m.
  induction q as [|f q IH]; intros k m; [apply restated_refl|].
  simpl. eapply restated_trans; [by apply restated_enqueue|apply IH].
Qed.

Lemma restated_updateQueuePositions a m :
  Queued ∈ a → restated a (files m) (files (updateQueuePositions m)).
Proof.
  intros Hq. unfold updateQueuePositions. cbv zeta.
  destruct (_ && _); simpl;
    apply (restated_enqueue_all a _ 0 (set_uploadQueue [] m) Hq).
Qed.

Lemma restated_resume_processQueue a m :
  Queued ∈ a → restated a (files m) (files (resume_processQueue m)).
Proof.
  intros Hq. unfold resume_processQueue. cbv zeta. simpl.
  apply (restated_updateQueuePositions a
           (set_activeFileId None (set_uploadQueue (tail (uploadQueue m)) m))
           Hq).
Qed.

Lemma restated_uploadFile a x m :
  Queued ∈ a → Uploading ∈ a → restated a (files m) (files (uploadFile x m)).
Proof.
  intros Hq Hu. unfold uploadFile.
  destruct (find_file _ _); [|by apply restated_resume_processQueue].
  destruct (_ || _); [by apply restated_resume_processQueue|].
  simpl. apply restated_map_file. intros g. split; [done|by right].
Qed.

Lemma restated_processQueue a m :
  Queued ∈ a → Uploading ∈ a → restated a (files m) (files (processQueue m)).
Proof.
  intros Hq Hu. unfold processQueue.
  destruct (_ || _); [apply restated_refl|].
  destruct (_ =? _); [apply restated_refl|].
  destruct (truthy _); [apply restated_refl|].
  destruct (uploadQueue m) as [|next rest]; [apply restated_refl|].
  destruct (Server.falsy _); [apply restated_refl|].
  apply (restated_uploadFile a next
           (set_activeFileId (Some next) (set_processingQueue true m)) Hq Hu).
Qed.

Lemma restated_abortUpload a x m :
  Pending ∈ a → restated a (files m) (files (abortUpload x m)).
Proof.
  intros Hp. unfold abortUpload. cbv zeta.
  assert (∀ m', files m' = files m →
                restated a (files m)
                  (files (if bool_decide
                               (Some x = activeFileId
                                           (updateFileStatus x Pending None m'))
                          then set_activeFileId None
                                 (updateFileStatus x Pending None m')
                          else updateFileStatus x Pending None m'))) as Hm.
  { intros m' E. case_bool_decide; simpl; rewrite E;
      apply restated_map_file; intros g; by split; [|right]. }
  apply Hm. by destruct (_ !! _).
Qed.

Lemma restated_pauseAll m : restated [Paused] (files m) (files (pauseAll m)).
Proof.
  unfold pauseAll. cbv zeta. destruct (activeFileId _); [|apply restated_refl].
  destruct (truthy _); [|apply restated_refl].
  apply (restated_updateFileStatus _ _ _ _ (set_paused true m)). by left.
Qed.

Lemma restated_resumeAll m :
  restated [Pending; Queued; Uploading] (files m) (files (resumeAll m)).
Proof.
  unfold resumeAll. cbv zeta.
  eapply restated_trans;
    [|apply restated_processQueue; apply list_elem_of_In; simpl; tauto].
  destruct (activeFileId _); [|apply restated_refl].
  destruct (truthy _); [|apply restated_refl].
  destruct (find_file _ _); [|apply restated_refl].
  case_bool_decide; [|apply restated_refl].
  apply (restated_updateFileStatus _ _ _ _ (set_paused false m)). by left.
Qed.

Lemma restated_startUpload m :
  restated [Queued; Uploading] (files m) (files (startUpload m)).
Proof.
  unfold startUpload.
  eapply restated_trans;
    [|apply restated_processQueue; apply list_elem_of_In; simpl; tauto].
  apply (restated_updateQueuePositions _ (set_paused false m)). by left.
Qed.

Lemma restated_reset_fold a l m :
  Pending ∈ a → restated a (files m) (files (foldl reset_status m l)).
Proof.
  intros Hp. revert m.
  induction l as [|f l IH]; intros m; [apply restated_refl|].
  simpl. eapply restated_trans; [|apply IH].
  unfold reset_status. destruct (_ || _); [|apply restated_refl].
  by apply restated_updateFileStatus.
Qed.

Lemma restated_cancelAll m :
  restated [Pending; Queued] (files m) (files (cancelAll m)).
Proof.
  unfold cancelAll. cbv zeta.
  eapply restated_trans;
    [|apply restated_updateQueuePositions; apply list_elem_of_In; simpl; tauto].
  cbn [files set_activeFileId].
  apply (restated_reset_fold _ _ (set_abortControllers ∅ (abort_all m))).
  by left.
Qed.

End restating.

(** X11: pausing, resuming, starting and cancelling never touch what
    a file holds (its chunks, counters and progress), never drop or
    reorder a file, and never mark a file completed or failed: file by
    file, [pauseAll] can only move a status to paused, [resumeAll] to
    pending, queued or uploading, [startUpload] to queued or
    uploading, and [cancelAll] to pending or queued. *)
Theorem queue_operations_keep_the_files (m : Client.Manager) :
  restated [Client.Paused] (Client.files m) (Client.files (Client.pauseAll m))
  ∧ restated [Client.Pending; Client.Queued; Client.Uploading]
      (Client.files m) (Client.files (Client.resumeAll m))
  ∧ restated [Client.Queued; Client.Uploading]
      (Client.files m) (Client.files (Client.startUpload m))
  ∧ restated [Client.Pending; Client.Queued]
      (Client.files m) (Client.files (Client.cancelAll m)).
Proof.
  split_and!; [apply restated_pauseAll|apply restated_resumeAll
              |apply restated_startUpload|apply restated_cancelAll].
Qed.

(** * Removing files *)

Section removing.
Import Client.
Implicit Types (m : Manager) (fs : list ChunkedFile) (f : ChunkedFile).

Lemma filter_map_file_other x h fs :
  (∀ f, id (h f) = id f) →
  filter (λ f, id f ≠ x) (map_file x h fs) = filter (λ f, id f ≠ x) fs.
Proof.
  intros Hh. unfold map_file. induction fs as [|f fs IH]; [done|].
  rewrite fmap_cons, !filter_cons, IH.
  case_bool_decide as E.
  - rewrite Hh. by rewrite !decide_False by (by intros []).
  - done.
Qed.

Lemma files_abortUpload x m :
  files (abortUpload x m) = map_file x (with_status Pending None) (files m).
Proof.
  unfold abortUpload. cbv zeta.
  assert (∀ m', files m' = files m →
                files (if bool_decide
                            (Some x = activeFileId
                                        (updateFileStatus x Pending None m'))
                       then set_activeFileId None
                              (updateFileStatus x Pending None m')
                       else updateFileStatus x Pending None m')
                = map_file x (with_status Pending None) (files m)) as Hm.
  { intros m' E. case_bool_decide; simpl; by rewrite E. }
  apply Hm. by destruct (_ !! _).
Qed.

Lemma restated_removeFile x m :
  restated [Queued; Uploading] (filter (λ f, id f ≠ x) (files m))
    (files (removeFile x m)).
Proof.
  unfold removeFile. cbv zeta.
  match goal with
  | |- context [updateQueuePositions ?m0] =>
      assert (restated [Queued; Uploading]
                (filter (λ f, id f ≠ x) (files m))
                (files (updateQueuePositions m0))) as H;
        [|destruct (_ && _); [|exact H];
          eapply restated_trans; [exact H|];
          apply restated_processQueue; apply list_elem_of_In; simpl; tauto]
  end.
  match goal with
  | |- context [updateQueuePositions ?m0] =>
      assert (files m0 = filter (λ f, id f ≠ x) (files m)) as <-;
        [|apply restated_updateQueuePositions; by left]
  end.
  cbn [files set_files].
  destruct (find_file _ _); [|done]. case_bool_decide; [|done].
  cbn [files set_activeFileId]. rewrite files_abortUpload.
  by apply filter_map_file_other.
Qed.

Lemma restated_clearCompleted m :
  restated [Queued] (filter (λ f, status f ≠ Completed) (files m))
    (files (clearCompleted m)).
Proof.
  unfold clearCompleted.
  apply (restated_updateQueuePositions [Queued]
           (set_files (filter (λ f, status f ≠ Completed) (files m)) m)).
  by left.
Qed.

End removing.

(** X12: [removeFile] and [clearCompleted] remove exactly what they
    name.  After [removeFile] no file has the id given and the other
    files are there in their order; after [clearCompleted] no file is
    completed and the other files are there in their order.  In both
    cases the files kept hold what they held, and their status is
    unchanged or has moved to queued (or, for [removeFile], to
    uploading, when the next file starts). *)
Theorem removal_keeps_the_other_files (m : Client.Manager)
    (fileId : jsstring) :
  restated [Client.Queued; Client.Uploading]
    (filter (λ f, Client.id f ≠ fileId) (Client.files m))
    (Client.files (Client.removeFile fileId m))
  ∧ (fileId ∉ Client.id <$> Client.files (Client.removeFile fileId m))
  ∧ restated [Client.Queued]
      (filter (λ f, Client.status f ≠ Client.Completed) (Client.files m))
      (Client.files (Client.clearCompleted m))
  ∧ Forall (λ f, Client.status f ≠ Client.Completed)
      (Client.files (Client.clearCompleted m)).
Proof.
  pose proof (restated_removeFile fileId m) as Hr.
  pose proof (restated_clearCompleted m) as Hc.
  split_and!; [done| |done|].
  - rewrite (restated_ids _ _ _ Hr). intros (f & E & Hf)%list_elem_of_fmap.
    by apply list_elem_of_filter in Hf as [Hne _].
  - apply Forall_forall. intros f' Hf'.
    apply list_elem_of_lookup in Hf' as [i Hi].
    destruct (Forall2_lookup_r _ _ _ _ _ Hc Hi) as (f & Hf & _ & Hs).
    apply list_elem_of_lookup_2, list_elem_of_filter in Hf as [Hne _].
    destruct Hs as [E|Hq]; [by rewrite E|].
    apply list_elem_of_singleton in Hq. by rewrite Hq.
Qed.

(** * The queue *)

Section queue.
Import Client.
Implicit Types (m : Manager) (fs : list ChunkedFile) (f g : ChunkedFile).

Lemma ids_inj fs f g :
  NoDup (id <$> fs) → f ∈ fs → g ∈ fs → id f = id g → f = g.
Proof.
  intros Hnd [i Hi]%list_elem_of_lookup [j Hj]%list_elem_of_lookup E.
  assert (i = j) as ->; [|congruence].
  eapply NoDup_lookup; [exact Hnd| |].
  - by rewrite list_lookup_fmap, Hi.
  - rewrite list_lookup_fmap, Hj. simpl. by rewrite E.
Qed.

Lemma filter_lookup_rank {A} (P : A → Prop) `{∀ x, Decision (P x)}
    (l : list A) p x :
  l !! p = Some x → P x →
  filter P l !! length (filter P (take p l)) = Some x.
Proof.
  revert p. induction l as [|y l IH]; intros [|p] Hp Hx; try done.
  - simpl in Hp. injection Hp as ->. rewrite filter_cons, decide_True by done.
    done.
  - simpl in Hp. cbn [take]. rewrite !filter_cons.
    destruct (decide (P y)); simpl; by apply IH.
Qed.

Lemma queuedFiles_eligible m :
  filter (λ f, Some (id f) ≠ activeFileId m) (filter waiting (files m))
  = filter (eligible m) (files m).
Proof.
  rewrite list_filter_filter. apply list_filter_iff. intros f.
  unfold eligible. tauto.
Qed.

Lemma NoDup_filter_ids_sub (P : ChunkedFile → Prop) `{∀ x, Decision (P x)} fs :
  NoDup (id <$> fs) → NoDup (id <$> filter P fs).
Proof.
  intros Hnd. eapply sublist_NoDup; [exact Hnd|].
  apply fmap_sublist, sublist_filter.
Qed.

Lemma updateQueuePositions_lookup m p f :
  NoDup (id <$> files m) → files m !! p = Some f →
  files (updateQueuePositions m) !! p
  = Some (if decide (eligible m f)
          then queued_at (length (filter (eligible m) (take p (files m)))) f
          else f).
Proof.
  intros Hnd Hp. unfold updateQueuePositions. cbv zeta.
  rewrite queuedFiles_eligible.
  set (q := filter (eligible m) (files m)).
  set (m0 := set_uploadQueue [] m).
  assert (files (enqueue_all 0 q m0) !! p
          = Some (if decide (eligible m f)
                  then queued_at
                         (length (filter (eligible m) (take p (files m)))) f
                  else f)) as Hl.
  { destruct (decide (eligible m f)) as [He|He].
    - apply (enqueue_all_lookup q 0 m0 p f
               (length (filter (eligible m) (take p (files m))))).
      + by apply NoDup_filter_ids_sub.
      + done.
      + by apply filter_lookup_rank.
    - apply enqueue_all_lookup_ne; [done|].
      intros (g & E & Hg)%list_elem_of_fmap.
      apply list_elem_of_filter in Hg as [Hg Hin].
      apply He. rewrite (ids_inj (files m) f g); try done.
      by eapply list_elem_of_lookup_2. }
  by destruct (_ && _).
Qed.

Lemma updateQueuePositions_uploadQueue m :
  uploadQueue (updateQueuePositions m) = id <$> filter (eligible m) (files m).
Proof.
  unfold updateQueuePositions. cbv zeta. rewrite queuedFiles_eligible.
  destruct (_ && _); simpl; by rewrite enqueue_all_uploadQueue.
Qed.

Lemma updateQueuePositions_tasks m :
  tasks (updateQueuePositions m)
  = tasks m
    ++ (if negb (truthy (activeFileId m)) && negb (paused m)
           && (0 <? length (filter (eligible m) (files m)))
        then [(next_id m, ProcessQueueTimer 0)] else []).
Proof.
  unfold updateQueuePositions. cbv zeta. rewrite queuedFiles_eligible.
  destruct (enqueue_all_fields (filter (eligible m) (files m)) 0
              (set_uploadQueue [] m)) as (Et & En & Ep & Ea).
  rewrite Ea, Ep, enqueue_all_uploadQueue.
  cbn [activeFileId paused uploadQueue set_uploadQueue].
  rewrite app_nil_l, length_fmap.
  destruct (_ && _); simpl.
  - by rewrite Et, En.
  - by rewrite Et, app_nil_r.
Qed.

End queue.

(** X13: what [updateQueuePositions] computes, for files with distinct
    ids.  The upload queue becomes the ids, in the order of the file
    list, of the files that are neither completed, failed, uploading
    nor active; each of them gets status queued and its 0-based rank
    among them as queue position, and every other file is left as it
    is; queue processing is scheduled exactly when no file is active,
    the manager is not paused and the queue is not empty. *)
Theorem updateQueuePositions_ranks_the_queue (m : Client.Manager) :
  NoDup (Client.id <$> Client.files m) →
  let m' := Client.updateQueuePositions m in
  let queue := filter (eligible m) (Client.files m) in
  Client.uploadQueue m' = Client.id <$> queue
  ∧ (∀ p f, Client.files m !! p = Some f →
       Client.files m' !! p
       = Some (if decide (eligible m f)
               then queued_at
                      (length (filter (eligible m) (take p (Client.files m))))
                      f
               else f))
  ∧ Client.tasks m'
    = Client.tasks m
      ++ (if negb (Client.truthy (Client.activeFileId m))
             && negb (Client.paused m) && (0 <? length queue)
          then [(Client.next_id m, Client.ProcessQueueTimer 0)] else []).
Proof.
  intros Hnd m' queue. split_and!.
  - apply updateQueuePositions_uploadQueue.
  - intros p f. by apply updateQueuePositions_lookup.
  - apply updateQueuePositions_tasks.
Qed.

Lemma updateQueuePositions_ranks_the_queue_example :
  NoDup (Client.id
           <$> Client.files
                 (Client.exec (Client.create Scenario.options)
                    (take 4 Trace.busy)))
  ∧ Client.uploadQueue
      (Client.updateQueuePositions
         (Client.exec (Client.create Scenario.options) (take 4 Trace.busy)))
    = [Client.new_id Trace.other].
Proof.
  assert (NoDup (Client.id
                   <$> Client.files
                         (Client.exec (Client.create Scenario.options)
                            (take 4 Trace.busy)))) as H
    by (apply (bool_decide_unpack _); by vm_compute).
  split; [exact H|].
  rewrite (proj1 (updateQueuePositions_ranks_the_queue _ H)).
  by vm_compute.
Defined.

(** * Cancelling *)

Section cancelling.
Import Client.
Implicit Types (m : Manager) (fs : list ChunkedFile) (f g : ChunkedFile).

Lemma reset_status_files m g :
  files (reset_status m g)
  = if decide (resettable g)
    then map_file (id g) (with_status Pending None) (files m) else files m.
Proof.
  unfold reset_status.
  destruct (decide (resettable g)) as [Hr|Hr]; unfold resettable in Hr.
  - destruct Hr as [E|[E|E]]; rewrite E; done.
  - destruct (status g); try done; destruct Hr; auto.
Qed.

Lemma reset_fold_lookup l m p f :
  files m !! p = Some f →
  files (foldl reset_status m l) !! p
  = Some (if decide (Exists (λ g, resettable g ∧ id g = id f) l)
          then with_status Pending None f else f).
Proof.
  revert m f. induction l as [|g l IH]; intros m f Hp.
  - cbn [foldl]. rewrite Hp.
    destruct (decide (Exists _ [])) as [He|_]; [|done].
    by apply Exists_nil in He.
  - cbn [foldl].
    destruct (decide (resettable g ∧ id g = id f)) as [[Hr E]|Hn].
    + rewrite (IH (reset_status m g) (with_status Pending None f)).
      * destruct (decide (Exists _ (g :: l))) as [_|He];
          [|destruct He; by left].
        by destruct (decide _).
      * rewrite reset_status_files, decide_True by done.
        by apply map_file_lookup_eq.
    + rewrite (IH (reset_status m g) f).
      * destruct (decide (Exists _ l)) as [He|He];
          destruct (decide (Exists _ (g :: l))) as [He'|He']; try done.
        -- destruct He'. by right.
        -- apply Exists_cons in He' as [?|?]; done.
      * rewrite reset_status_files. destruct (decide (resettable g)) as [Hr|];
          [|done].
        apply map_file_lookup_ne; [done|]. intros E. by apply Hn.
Qed.

Lemma reset_all_files m :
  NoDup (id <$> files m) →
  files (foldl reset_status m (files m))
  = (λ f, if decide (resettable f) then with_status Pending None f else f)
      <$> files m.
Proof.
  intros Hnd. apply list_eq. intros p. rewrite list_lookup_fmap.
  destruct (files m !! p) as [f|] eqn:Hp; simpl.
  - rewrite (reset_fold_lookup _ _ _ f Hp).
    apply list_elem_of_lookup_2 in Hp as Hin.
    destruct (decide (resettable f)) as [Hr|Hr];
      destruct (decide (Exists _ (files m))) as [He|He]; try done.
    + destruct He. apply Exists_exists. by exists f.
    + apply Exists_exists in He as (g & Hg & Hrg & E).
      by rewrite (ids_inj (files m) f g Hnd Hin Hg) in Hr.
  - apply lookup_ge_None. apply lookup_ge_None in Hp.
    pose proof (restated_reset_fold [Pending] (files m) m) as Hl.
    rewrite <- (Forall2_length _ _ _ (Hl ltac:(by left))). done.
Qed.

Lemma reset_waiting f :
  waiting (if decide (resettable f) then with_status Pending None f else f)
  ↔ unfinished f.
Proof.
  unfold waiting, unfinished.
  destruct (decide (resettable f)) as [Hr|Hr]; unfold resettable in Hr.
  - simpl. destruct Hr as [E|[E|E]]; rewrite E; naive_solver.
  - destruct (status f); naive_solver.
Qed.

Lemma filter_fmap_iff {A} (P Q : A → Prop) `{∀ x, Decision (P x)}
    `{∀ x, Decision (Q x)} (h : A → A) (l : list A) :
  (∀ x, P (h x) ↔ Q x) → filter P (h <$> l) = h <$> filter Q l.
Proof.
  intros HPQ. induction l as [|x l IH]; [done|].
  rewrite fmap_cons, !filter_cons, IH.
  destruct (decide (Q x)) as [Hq|Hq].
  - by rewrite decide_True by (by apply HPQ).
  - by rewrite decide_False by (by intros ?%HPQ).
Qed.

Lemma reset_fold_fields l m :
  tasks (foldl reset_status m l) = tasks m
  ∧ next_id (foldl reset_status m l) = next_id m
  ∧ paused (foldl reset_status m l) = paused m.
Proof.
  revert m. induction l as [|g l IH]; intros m; [done|].
  cbn [foldl]. destruct (IH (reset_status m g)) as (-> & -> & ->).
  unfold reset_status. by destruct (_ || _).
Qed.

Lemma cancelAll_files m :
  NoDup (id <$> files m) →
  ∀ p f, files m !! p = Some f →
         ∃ f', files (cancelAll m) !! p = Some f'
               ∧ content f' = content f
               ∧ status f' = if decide (unfinished f) then Queued
                             else status f.
Proof.
  intros Hnd p f Hp. unfold cancelAll. cbv zeta.
  set (m1 := set_abortControllers ∅ (abort_all m)).
  set (m2 := set_activeFileId None (foldl reset_status m1 (files m1))).
  assert (files m2
          = (λ f, if decide (resettable f) then with_status Pending None f
                  else f) <$> files m) as E2
    by (by apply (reset_all_files m1)).
  assert (NoDup (id <$> files m2)) as Hnd2.
  { rewrite E2, <- list_fmap_compose.
    erewrite list_fmap_ext; [exact Hnd|]. intros i g _. simpl.
    by destruct (decide _). }
  assert (files m2 !! p
          = Some (if decide (resettable f) then with_status Pending None f
                  else f)) as Hp2 by (by rewrite E2, list_lookup_fmap, Hp).
  rewrite (updateQueuePositions_lookup m2 p _ Hnd2 Hp2).
  eexists. split; [done|].
  assert (eligible m2 (if decide (resettable f)
                       then with_status Pending None f else f)
          ↔ unfinished f) as He.
  { unfold eligible. rewrite reset_waiting. split; [by intros []|].
    intros H. split; [done|]. by subst m2. }
  destruct (decide (eligible m2 _)) as [H|H]; rewrite He in H.
  - destruct (decide (unfinished f)); [|done].
    split; [by destruct (decide (resettable f))|reflexivity].
  - destruct (decide (unfinished f)); [done|].
    destruct (decide (resettable f)) as [Hr|Hr]; [|done].
    destruct H. unfold unfinished. unfold resettable in Hr.
    destruct Hr as [E|[E|E]]; rewrite E; by split.
Qed.

Lemma cancelAll_uploadQueue m :
  NoDup (id <$> files m) →
  uploadQueue (cancelAll m) = id <$> filter unfinished (files m).
Proof.
  intros Hnd. unfold cancelAll. cbv zeta.
  set (m1 := set_abortControllers ∅ (abort_all m)).
  set (m2 := set_activeFileId None (foldl reset_status m1 (files m1))).
  rewrite updateQueuePositions_uploadQueue.
  assert (files m2
          = (λ f, if decide (resettable f) then with_status Pending None f
                  else f) <$> files m) as ->
    by (by apply (reset_all_files m1)).
  rewrite (filter_fmap_iff (eligible m2) unfinished).
  - rewrite <- list_fmap_compose. apply list_fmap_ext. intros i g _. simpl.
    by destruct (decide _).
  - intros g. unfold eligible. rewrite reset_waiting. split; [by intros []|].
    intros H. split; [done|]. by subst m2.
Qed.

Lemma cancelAll_tasks m :
  NoDup (id <$> files m) →
  tasks (cancelAll m)
  = tasks m
    ++ (if negb (paused m) && (0 <? length (filter unfinished (files m)))
        then [(next_id m, ProcessQueueTimer 0)] else []).
Proof.
  intros Hnd.
  pose proof (cancelAll_uploadQueue m Hnd) as Hq.
  unfold cancelAll in *. cbv zeta in *.
  set (m1 := set_abortControllers ∅ (abort_all m)) in *.
  set (m2 := set_activeFileId None (foldl reset_status m1 (files m1))) in *.
  rewrite updateQueuePositions_tasks.
  rewrite updateQueuePositions_uploadQueue in Hq.
  apply (f_equal length) in Hq. rewrite !length_fmap in Hq. rewrite Hq.
  destruct (reset_fold_fields (files m1) m1) as (Et & En & Ep).
  subst m2. cbn [tasks next_id paused activeFileId set_activeFileId truthy
    negb andb]. rewrite Et, En, Ep. done.
Qed.

Lemma cancelAll_control m :
  abortControllers (cancelAll m) = ∅ ∧ activeFileId (cancelAll m) = None.
Proof.
  unfold cancelAll. cbv zeta.
  set (m1 := set_abortControllers ∅ (abort_all m)).
  set (m2 := set_activeFileId None (foldl reset_status m1 (files m1))).
  destruct (quiet_updateQueuePositions m2) as [(_ & _ & -> & ->) _].
  split; [|done]. subst m2. cbn [abortControllers set_activeFileId].
  by destruct (reset_fold (files m1) m1) as [[(_ & _ & _ & ->) _] _].
Qed.

End cancelling.

(** X14: [cancelAll] does not take the files out of the queue.  For
    files with distinct ids: no controller and no active file are
    left; every file that is neither completed nor failed ends with
    status queued, the others keep their status, and every file holds
    what it held; the upload queue lists the unfinished files in the
    order of the file list; and unless the manager is paused, queue
    processing is scheduled again as soon as one file is unfinished. *)
Theorem cancelAll_requeues_the_files (m : Client.Manager) :
  NoDup (Client.id <$> Client.files m) →
  let m' := Client.cancelAll m in
  Client.abortControllers m' = ∅
  ∧ Client.activeFileId m' = None
  ∧ (∀ p f, Client.files m !! p = Some f →
       ∃ f', Client.files m' !! p = Some f'
             ∧ content f' = content f
             ∧ Client.status f'
               = if decide (unfinished f) then Client.Queued
                 else Client.status f)
  ∧ Client.uploadQueue m' = Client.id <$> filter unfinished (Client.files m)
  ∧ Client.tasks m'
    = Client.tasks m
      ++ (if negb (Client.paused m)
             && (0 <? length (filter unfinished (Client.files m)))
          then [(Client.next_id m, Client.ProcessQueueTimer 0)] else []).
Proof.
  intros Hnd m'. destruct (cancelAll_control m) as [Hc Ha].
  split_and!; [done|done|by apply cancelAll_files
              |by apply cancelAll_uploadQueue|by apply cancelAll_tasks].
Qed.

Lemma cancelAll_requeues_the_files_example :
  NoDup (Client.id
           <$> Client.files
                 (Client.exec (Client.create Scenario.options) Trace.busy))
  ∧ Client.status
      <$> Client.files
            (Client.cancelAll
               (Client.exec (Client.create Scenario.options) Trace.busy))
    = [Client.Queued]
  ∧ Client.tasks
      (Client.cancelAll
         (Client.exec (Client.create Scenario.options) Trace.busy))
    = Client.tasks (Client.exec (Client.create Scenario.options) Trace.busy)
      ++ [(13, Client.ProcessQueueTimer 0)].
Proof.
  assert (NoDup (Client.id
                   <$> Client.files
                         (Client.exec (Client.create Scenario.options)
                            Trace.busy))) as H
    by (apply (bool_decide_unpack _); by vm_compute).
  split; [exact H|]. split; [by vm_compute|].
  rewrite (proj2 (proj2 (proj2 (proj2 (cancelAll_requeues_the_files _ H))))).
  by vm_compute.
Defined.

(** * The running upload *)

(** X15: under addFiles, startUpload, pauseAll, resumeAll, removeFile,
    retryFailed, cancelAll, clearCompleted and the steps of the
    scheduler, the active file, the abort controllers and the running
    upload agree.  In every state reached from a new manager by these
    operations alone (with fresh ids for added files; the variants
    removeFileWithCleanup and cancelAllWithCleanup, which wait for the
    cleanup request half way, and a direct call of abortUpload are not
    among them and are not covered) the ids of the files are distinct
    and the processing flag is set exactly while a call of
    [uploadFile] is in progress.  When a file is active, one call is
    in progress, for that file and not aborted, its controller is the
    only one registered, and only that file can be uploading.  When no
    file is active, no controller is registered, no file is uploading
    and a call still in progress has been aborted. *)
Theorem active_file_matches_the_run (options : Client.Options)
    (trace : list Client.Event) :
  fresh_ids (Client.create options) trace →
  let m := Client.exec (Client.create options) trace in
  NoDup (Client.id <$> Client.files m)
  ∧ (Client.processingQueue m = true ↔ Client.runs m ≠ [])
  ∧ (∀ x, Client.activeFileId m = Some x →
       ∃ r, Client.runs m = [r] ∧ Client.aborted r = false
            ∧ Client.id (Client.run_file r) = x
            ∧ Client.abortControllers m = {[ x := Client.run_id r ]}
            ∧ Forall (λ f, Client.status f = Client.Uploading →
                           Client.id f = x) (Client.files m))
  ∧ (Client.activeFileId m = None →
       Client.abortControllers m = ∅
       ∧ Forall (λ f, Client.status f ≠ Client.Uploading) (Client.files m)
       ∧ Forall (λ r, Client.aborted r = true) (Client.runs m)).
Proof.
  intros Hf m.
  assert (Inv m) as [Hnd Hs] by (apply Inv_exec; [apply Inv_create|done]).
  split; [done|].
  destruct Hs as [Er Ep Ea Ec Hu|r Er Hab Ep Ea Ec Hu|r Er Hab Ep Ea Ec Hu].
  - split_and!.
    + rewrite Er, Ep. by split.
    + intros x. by rewrite Ea.
    + intros _. rewrite Er. by split_and!.
  - split_and!.
    + rewrite Er, Ep. by split.
    + intros x. by rewrite Ea.
    + intros _. rewrite Er. split_and!; [done..|]. by repeat constructor.
  - split_and!.
    + rewrite Er, Ep. by split.
    + intros x. rewrite Ea. intros [= <-]. by exists r.
    + by rewrite Ea.
Qed.

Lemma active_file_matches_the_run_example :
  fresh_ids (Client.create Scenario.options) Trace.sent
  ∧ Client.processingQueue
      (Client.exec (Client.create Scenario.options) Trace.sent) = true
  ∧ NoDup (Client.id
             <$> Client.files
                   (Client.exec (Client.create Scenario.options) Trace.sent)).
Proof.
  assert (fresh_ids (Client.create Scenario.options) Trace.sent) as H.
  { repeat split. apply (bool_decide_unpack _). by vm_compute. }
  split; [exact H|]. split; [by vm_compute|].
  exact (proj1 (active_file_matches_the_run _ _ H)).
Defined.

(** * Pausing during the chunk phase *)

Section pausing.
Import Client.

Lemma find_run_set_stage r s m run :
  find_run r m = Some run →
  find_run r (set_stage r s m)
  = Some (mkRun (run_id run) (run_file run) (aborted run) s).
Proof.
  unfold find_run, set_stage. cbn [runs set_runs].
  induction (runs m) as [|u l IH]; [done|]. cbn [List.find].
  rewrite fmap_cons. cbn [List.find].
  case_bool_decide as E; cbn [run_id].
  - rewrite bool_decide_eq_true_2 by done. by intros [= ->].
  - rewrite bool_decide_eq_false_2 by done. exact IH.
Qed.

End pausing.

(** X16: a pause ends the chunk phase of the file being uploaded.
    When the loop of [uploadChunks] wakes up while the manager is
    paused, with chunks still queued or in flight, [uploadChunks]
    returns and [uploadFile] goes on to send the completion request
    for the file; no file is changed by that step. *)
Theorem pause_sends_the_completion_request (t delay : nat)
    (m : Client.Manager) (run : Client.Run) (q : list Client.Chunk)
    (a : list nat) (res : list Client.ChunkResult) :
  Client.find_task t m = Some (Client.LoopWake (Client.run_id run) delay) →
  Client.find_run (Client.run_id run) m = Some run →
  Client.stage run = Client.UploadingChunks q a res →
  q ≠ [] ∨ a ≠ [] →
  Client.paused m = true →
  Client.aborted run = false →
  let m' := Client.fire t Client.Succeeds m in
  Client.requests m'
  = Client.requests m
    ++ [Client.CompleteCall (Client.complete_request (Client.run_file run))]
  ∧ Client.files m' = Client.files m
  ∧ Client.stage <$> Client.find_run (Client.run_id run) m'
    = Some Client.AwaitComplete
  ∧ Client.tasks m'
    = filter (λ e, e.1 ≠ t) (Client.tasks m)
      ++ [(Client.next_id m, Client.CompleteFetch (Client.run_id run))].
Proof.
  intros Ht Hr Hs Hqa Hp Ha m'. subst m'.
  unfold Client.fire. rewrite Ht. cbv zeta.
  rewrite find_run_set_tasks, Hr, Hs. unfold Client.uploadChunks_loop.
  assert ((0 <? length q) || (0 <? length a) = true) as ->.
  { destruct Hqa as [H|H]; [destruct q|destruct a]; try done.
    simpl. by rewrite orb_true_r. }
  cbn [Client.paused Client.set_tasks]. rewrite Hp. cbn [orb].
  unfold Client.start_complete. rewrite Ha.
  split_and!; try done.
  cbn [Client.add_task Client.log_request Client.find_run Client.runs].
  change (Client.stage
            <$> Client.find_run (Client.run_id run)
                  (Client.set_stage (Client.run_id run) Client.AwaitComplete
                     (Client.set_tasks
                        (filter (λ e, e.1 ≠ t) (Client.tasks m)) m))
          = Some Client.AwaitComplete).
  rewrite (find_run_set_stage _ _ _ run); [done|].
  by rewrite find_run_set_tasks.
Qed.

Lemma pause_sends_the_completion_request_example :
  Client.paused
    (Client.exec (Client.create Scenario.options) (take 4 Trace.busy)) = true
  ∧ length
      (Client.requests
         (Client.fire 5 Client.Succeeds
            (Client.exec (Client.create Scenario.options)
               (take 4 Trace.busy)))) = 5
  ∧ Client.stage
      <$> Client.find_run 1
            (Client.fire 5 Client.Succeeds
               (Client.exec (Client.create Scenario.options)
                  (take 4 Trace.busy)))
    = Some Client.AwaitComplete.
Proof.
  split; [by vm_compute|]. split; [by vm_compute|].
  refine (proj1 (proj2 (proj2 (pause_sends_the_completion_request 5 100
    (Client.exec (Client.create Scenario.options) (take 4 Trace.busy))
    (Client.mkRun 1 (queued_at 0 Scenario.chunked) false
       (Client.UploadingChunks [] [0; 1; 2]
          [Client.ResultNull; Client.ResultNull; Client.ResultNull]))
    [] [0; 1; 2] [Client.ResultNull; Client.ResultNull; Client.ResultNull]
    _ _ _ _ _ _)))); try (by vm_compute). by right.
Defined.

(** * An upload that was aborted *)

Section aborting.
Import Client.
Implicit Types (m : Manager).

Lemma end_run_effect r m :
  restated [Queued] (files m) (files (end_run r m))
  ∧ processingQueue (end_run r m) = false
  ∧ r ∉ run_id <$> runs (end_run r m).
Proof.
  unfold end_run. split_and!.
  - apply (restated_resume_processQueue [Queued]
             (set_runs (filter (λ run, run_id run ≠ r) (runs m)) m)).
    by left.
  - done.
  - set (m0 := set_runs (filter (λ run, run_id run ≠ r) (runs m)) m).
    assert (runs (resume_processQueue m0) = runs m0) as ->.
    { unfold resume_processQueue. cbv zeta. cbn [runs set_processingQueue
        add_task].
      by destruct (quiet_updateQueuePositions
                     (set_activeFileId None
                        (set_uploadQueue (tail (uploadQueue m0)) m0)))
        as [(-> & _) _]. }
    subst m0. cbn [runs set_runs].
    intros (u & E & Hu)%list_elem_of_fmap.
    by apply list_elem_of_filter in Hu as [Hne _].
Qed.

End aborting.

(** X17: once its controller was aborted (the file was removed, or
    everything was cancelled), an upload ends without a verdict.
    Whatever the answer to the init or completion request that is
    still pending, even a success, the call of [uploadFile] returns
    and the processing flag is cleared, and no file is marked
    completed or failed: the files hold what they held and a status
    can only have moved to queued. *)
Theorem aborted_upload_ends_silently (t : nat) (o : Client.Outcome)
    (m : Client.Manager) (run : Client.Run) :
  Client.find_run (Client.run_id run) m = Some run →
  Client.aborted run = true →
  (Client.find_task t m = Some (Client.InitFetch (Client.run_id run))
   ∧ Client.stage run = Client.AwaitInit)
  ∨ (Client.find_task t m = Some (Client.CompleteFetch (Client.run_id run))
     ∧ Client.stage run = Client.AwaitComplete) →
  let m' := Client.fire t o m in
  restated [Client.Queued] (Client.files m) (Client.files m')
  ∧ Client.processingQueue m' = false
  ∧ Client.run_id run ∉ Client.run_id <$> Client.runs m'.
Proof.
  intros Hr Ha Ht m'. subst m'. unfold Client.fire.
  destruct Ht as [[-> Hs]|[-> Hs]]; cbv zeta;
    rewrite find_run_set_tasks, Hr, Hs.
  - unfold Client.init_settled. rewrite Ha.
    apply (end_run_effect (Client.run_id run)
             (Client.set_tasks (filter (λ e, e.1 ≠ t) (Client.tasks m)) m)).
  - unfold Client.complete_settled. rewrite Ha.
    apply (end_run_effect (Client.run_id run)
             (Client.set_tasks (filter (λ e, e.1 ≠ t) (Client.tasks m)) m)).
Qed.

Lemma aborted_upload_ends_silently_example :
  Client.find_task 8
    (Client.exec (Client.create Scenario.options) (take 9 Trace.busy))
  = Some (Client.CompleteFetch 1)
  ∧ Client.processingQueue
      (Client.fire 8 Client.Succeeds
         (Client.exec (Client.create Scenario.options) (take 9 Trace.busy)))
    = false.
Proof.
  split; [by vm_compute|].
  refine (proj1 (proj2 (aborted_upload_ends_silently 8 Client.Succeeds
    (Client.exec (Client.create Scenario.options) (take 9 Trace.busy))
    (Client.mkRun 1 (queued_at 0 Scenario.chunked) true Client.AwaitComplete)
    _ _ _))); [by vm_compute..|].
  right. split; by vm_compute.
Defined.

(** * The retries on record *)

Section retries_bound.
Import Client.
Variable o : Options.
Implicit Types (m : Manager) (fs : list ChunkedFile) (f : ChunkedFile).

Lemma bounded_set_files fs m :
  bounded o m → Forall (within_retries (maxRetries o)) fs →
  bounded o (set_files fs m).
Proof. intros [Ho _] H. by split. Qed.

Lemma bounded_same m m' :
  options m' = options m → files m' = files m → bounded o m → bounded o m'.
Proof. intros Eo Ef [Ho H]. split; [congruence|by rewrite Ef]. Qed.

Lemma bounded_map_file x h m :
  (∀ f, within_retries (maxRetries o) f → within_retries (maxRetries o) (h f)) →
  bounded o m → bounded o (set_files (map_file x h (files m)) m).
Proof.
  intros Hh [Ho H]. split; [done|]. cbn [files set_files].
  unfold map_file. apply Forall_fmap.
  eapply Forall_impl; [exact H|]. intros f Hf. simpl.
  case_bool_decide; auto.
Qed.

Lemma bounded_updateFileStatus x s q m :
  bounded o m → bounded o (updateFileStatus x s q m).
Proof. intros H. by apply bounded_map_file. Qed.

Lemma bounded_updateChunkStatus x i s m :
  bounded o m → bounded o (updateChunkStatus x i s m).
Proof.
  intros H. apply bounded_map_file; [|done]. intros f Hf.
  unfold within_retries. cbn [chunks with_chunks].
  apply Forall_alter; [done|]. by intros c _ Hc.
Qed.

Lemma bounded_updateChunkRetries x i n m :
  n ≤ maxRetries o → bounded o m → bounded o (updateChunkRetries x i n m).
Proof.
  intros Hn H. apply bounded_map_file; [|done]. intros f Hf.
  unfold within_retries. cbn [chunks with_chunks].
  apply Forall_alter; [done|]. by intros c _ Hc.
Qed.

Lemma bounded_updateFileProgress x m :
  bounded o m → bounded o (updateFileProgress x m).
Proof.
  intros H. unfold updateFileProgress. destruct (find_file _ _); [|done].
  by apply bounded_map_file.
Qed.

Lemma bounded_add_task t m : bounded o m → bounded o (add_task t m).
Proof. by apply bounded_same. Qed.

Lemma bounded_enqueue k f m : bounded o m → bounded o (enqueue k f m).
Proof.
  intros H. unfold enqueue. cbv zeta.
  apply bounded_map_file; [done|].
  case_bool_decide.
  - by apply bounded_updateFileStatus, (bounded_same m).
  - by apply (bounded_same m).
Qed.

Lemma bounded_enqueue_all q k m : bounded o m → bounded o (enqueue_all k q m).
Proof.
  revert k m. induction q as [|f q IH]; intros k m H; [done|].
  simpl. by apply IH, bounded_enqueue.
Qed.

Lemma bounded_updateQueuePositions m :
  bounded o m → bounded o (updateQueuePositions m).
Proof.
  intros H. unfold updateQueuePositions. cbv zeta.
  match goal with
  | |- context [enqueue_all 0 ?q ?m0] =>
      assert (bounded o (enqueue_all 0 q m0)) as H'
        by (by apply bounded_enqueue_all, (bounded_same m))
  end.
  destruct (_ && _); [by apply bounded_add_task|done].
Qed.

Lemma bounded_resume_processQueue m :
  bounded o m → bounded o (resume_processQueue m).
Proof.
  intros H. unfold resume_processQueue. cbv zeta.
  eapply bounded_same; [| |apply bounded_updateQueuePositions]; [done..|].
  by apply (bounded_same m).
Qed.

Lemma bounded_end_run r m : bounded o m → bounded o (end_run r m).
Proof.
  intros H. apply bounded_resume_processQueue. by apply (bounded_same m).
Qed.

Lemma bounded_fail_upload run message m :
  bounded o m → bounded o (fail_upload run message m).
Proof.
  intros H. unfold fail_upload. cbv zeta. apply bounded_end_run.
  eapply bounded_same; [| |apply (bounded_updateFileStatus
    (id (run_file run)) Error (Some (Message message)) m H)]; done.
Qed.

Lemma bounded_finish_upload run m :
  bounded o m → bounded o (finish_upload run m).
Proof.
  intros H. unfold finish_upload. cbv zeta. apply bounded_end_run.
  eapply bounded_same; [| |apply (bounded_updateFileStatus
    (id (run_file run)) Completed None m H)]; done.
Qed.

Lemma bounded_start_complete run m :
  bounded o m → bounded o (start_complete run m).
Proof.
  intros H. unfold start_complete.
  destruct (aborted run); by apply (bounded_same m).
Qed.

Lemma bounded_uploadChunk r x i m :
  bounded o m → bounded o (uploadChunk r x i m).
Proof.
  intros H. unfold uploadChunk. destruct (find_file _ _); [|by apply bounded_add_task].
  cbv zeta. apply bounded_add_task.
  eapply bounded_same; [| |apply (bounded_updateChunkStatus x i ChunkUploading m H)];
    done.
Qed.

Lemma bounded_fill r x q a m : bounded o m → bounded o (fill r x q a m).2.
Proof.
  revert a m. induction q as [|c q IH]; intros a m H; simpl; [done|].
  destruct (_ <? _); [|done]. by apply IH, bounded_uploadChunk.
Qed.

Lemma bounded_uploadChunks_loop run q a res m :
  bounded o m → bounded o (uploadChunks_loop run q a res m).
Proof.
  intros H. unfold uploadChunks_loop. destruct (_ || _).
  - destruct (_ || _); [by apply bounded_start_complete|].
    pose proof (bounded_fill (run_id run) (id (run_file run)) q a m H) as H'.
    destruct (fill _ _ _ _ _) as [[q' a'] m']. cbn [snd] in H'.
    apply bounded_add_task. by apply (bounded_same m').
  - cbv zeta. destruct (_ <? _);
      [by apply bounded_fail_upload|by apply bounded_start_complete].
Qed.

Lemma bounded_uploadChunks run m :
  bounded o m → bounded o (uploadChunks run m).
Proof.
  intros H. unfold uploadChunks.
  destruct (find_file _ _); [|by apply bounded_start_complete].
  by apply bounded_uploadChunks_loop.
Qed.

Lemma bounded_update_locals r g m :
  bounded o m → bounded o (update_locals r g m).
Proof.
  intros H. unfold update_locals. destruct (find_run r m) as [u|]; [|done].
  destruct (stage u); by try apply (bounded_same m).
Qed.

Lemma bounded_chunk_rejected r x i m :
  bounded o m → bounded o (chunk_rejected r x i m).
Proof.
  intros H. unfold chunk_rejected. cbv zeta.
  pose proof (bounded_update_locals r
    (λ q a res, UploadingChunks q (set_delete i a)
                  (<[i := ResultError]> res)) m H) as H'.
  destruct (find_file _ _) as [uf|]; [|done].
  destruct (_ !! _) as [uc|]; [|done].
  destruct (Nat.ltb_spec (chunk_retries uc) (maxRetries (options (update_locals r
    (λ q a res, UploadingChunks q (set_delete i a)
                  (<[i := ResultError]> res)) m)))) as [Hlt|_]; [|done].
  apply bounded_add_task, bounded_updateChunkRetries; [|done].
  destruct H' as [<- _]. lia.
Qed.

Lemma bounded_chunk_settled r x i out m :
  bounded o m → bounded o (chunk_settled r x i out m).
Proof.
  intros H. unfold chunk_settled. destruct out; cbv zeta.
  - by apply bounded_update_locals, bounded_updateFileProgress,
      bounded_updateChunkStatus.
  - by apply bounded_chunk_rejected, bounded_updateChunkStatus,
      bounded_updateFileProgress, bounded_updateChunkStatus.
  - by apply bounded_chunk_rejected, bounded_updateChunkStatus.
  - by apply bounded_chunk_rejected, bounded_updateChunkStatus.
Qed.

Lemma bounded_retry_due r c m : bounded o m → bounded o (retry_due r c m).
Proof.
  intros H. unfold retry_due. destruct (find_run r m); [|done].
  destruct (_ && _); [|done]. by apply bounded_update_locals.
Qed.

Lemma bounded_init_settled run out m :
  bounded o m → bounded o (init_settled run out m).
Proof.
  intros H. unfold init_settled.
  destruct (aborted run); [by apply bounded_end_run|].
  destruct out.
  - by apply bounded_uploadChunks.
  - by apply bounded_uploadChunks.
  - by apply bounded_fail_upload.
  - by apply bounded_fail_upload.
Qed.

Lemma bounded_complete_settled run out m :
  bounded o m → bounded o (complete_settled run out m).
Proof.
  intros H. unfold complete_settled.
  destruct (aborted run); [by apply bounded_end_run|].
  destruct out.
  - by apply bounded_finish_upload.
  - by apply bounded_fail_upload.
  - by apply bounded_fail_upload.
  - by apply bounded_fail_upload.
Qed.

Lemma bounded_uploadFile x m : bounded o m → bounded o (uploadFile x m).
Proof.
  intros H. unfold uploadFile.
  destruct (find_file _ _); [|by apply bounded_resume_processQueue].
  destruct (_ || _); [by apply bounded_resume_processQueue|].
  cbv zeta. apply bounded_add_task.
  eapply bounded_same;
    [| |apply (bounded_updateFileStatus x Uploading None m H)]; done.
Qed.

Lemma bounded_processQueue m : bounded o m → bounded o (processQueue m).
Proof.
  intros H. unfold processQueue.
  destruct (_ || _); [done|]. destruct (_ =? _); [done|].
  destruct (truthy _); [done|]. destruct (uploadQueue m) as [|next rest]; [done|].
  destruct (Server.falsy _); [done|].
  by apply bounded_uploadFile, (bounded_same m).
Qed.

Lemma bounded_fire t out m : bounded o m → bounded o (fire t out m).
Proof.
  intros H. unfold fire. destruct (find_task t m) as [task|]; [|done].
  cbv zeta.
  assert (bounded o (set_tasks (filter (λ e, e.1 ≠ t) (tasks m)) m)) as H'
    by (by apply (bounded_same m)).
  destruct task as [d|r|r d|r x i|r x i|r d c|r];
    rewrite ?find_run_set_tasks.
  - by apply bounded_processQueue.
  - destruct (find_run _ _) as [u|]; [|done].
    destruct (stage u); try done. by apply bounded_init_settled.
  - destruct (find_run _ _) as [u|]; [|done].
    destruct (stage u); try done. by apply bounded_uploadChunks_loop.
  - by apply bounded_chunk_settled.
  - by apply bounded_chunk_rejected.
  - by apply bounded_retry_due.
  - destruct (find_run _ _) as [u|]; [|done].
    destruct (stage u); try done. by apply bounded_complete_settled.
Qed.

Lemma bounded_addFiles nfs m : bounded o m → bounded o (addFiles nfs m).1.
Proof.
  intros [Ho H]. unfold addFiles. cbv zeta. cbn [fst].
  apply bounded_updateQueuePositions. split; [done|].
  cbn [files set_files]. apply Forall_app. split; [done|].
  apply Forall_fmap, Forall_forall. intros nf _.
  unfold within_retries, new_chunked_file. cbn [chunks].
  apply Forall_fmap, Forall_forall. intros i _. simpl. lia.
Qed.

Lemma bounded_abortUpload x m : bounded o m → bounded o (abortUpload x m).
Proof.
  intros H. unfold abortUpload. cbv zeta.
  assert (∀ m', bounded o m' →
                bounded o (if bool_decide
                                (Some x = activeFileId
                                            (updateFileStatus x Pending None m'))
                           then set_activeFileId None
                                  (updateFileStatus x Pending None m')
                           else updateFileStatus x Pending None m')) as Hm.
  { intros m' H'. pose proof (bounded_updateFileStatus x Pending None m' H').
    case_bool_decide; [|done].
    by apply (bounded_same (updateFileStatus x Pending None m')). }
  apply Hm. destruct (_ !! _); [|done]. by apply (bounded_same m).
Qed.

Lemma bounded_removeFile x m : bounded o m → bounded o (removeFile x m).
Proof.
  intros H. unfold removeFile. cbv zeta.
  match goal with
  | |- context [updateQueuePositions ?m0] =>
      assert (bounded o (updateQueuePositions m0)) as H'
  end.
  { apply bounded_updateQueuePositions.
    assert (∀ m', bounded o m' →
                  bounded o (set_files (filter (λ f, id f ≠ x) (files m')) m'))
      as Hm.
    { intros m' [Ho' H']. split; [done|]. by apply Forall_filter_sub. }
    apply Hm. destruct (find_file _ _); [|done].
    case_bool_decide; [|done].
    apply (bounded_same (abortUpload x m)); [done..|].
    by apply bounded_abortUpload. }
  destruct (_ && _); [by apply bounded_processQueue|done].
Qed.

Lemma bounded_pauseAll m : bounded o m → bounded o (pauseAll m).
Proof.
  intros H. unfold pauseAll. cbv zeta.
  assert (bounded o (set_paused true m)) as H' by (by apply (bounded_same m)).
  destruct (activeFileId _); [|done]. destruct (truthy _); [|done].
  by apply bounded_updateFileStatus.
Qed.

Lemma bounded_resumeAll m : bounded o m → bounded o (resumeAll m).
Proof.
  intros H. unfold resumeAll. cbv zeta. apply bounded_processQueue.
  assert (bounded o (set_paused false m)) as H' by (by apply (bounded_same m)).
  destruct (activeFileId _); [|done]. destruct (truthy _); [|done].
  destruct (find_file _ _); [|done]. case_bool_decide; [|done].
  by apply bounded_updateFileStatus.
Qed.

Lemma bounded_startUpload m : bounded o m → bounded o (startUpload m).
Proof.
  intros H. apply bounded_processQueue, bounded_updateQueuePositions.
  by apply (bounded_same m).
Qed.

Lemma bounded_reset_failed_chunks x i cs m :
  bounded o m → bounded o (reset_failed_chunks x i cs m).
Proof.
  revert i m. induction cs as [|c cs IH]; intros i m H; [done|].
  simpl. apply IH. case_bool_decide; [|done].
  by apply bounded_updateChunkStatus.
Qed.

Lemma bounded_retryFailed m : bounded o m → bounded o (retryFailed m).
Proof.
  intros H. unfold retryFailed. cbv zeta.
  apply bounded_processQueue, bounded_updateQueuePositions.
  generalize (filter (λ f, status f = Error) (files m)). intros l.
  revert m H. induction l as [|f l IH]; intros m H; [done|].
  simpl. apply IH. unfold retry_file.
  by apply bounded_reset_failed_chunks, bounded_updateFileStatus.
Qed.

Lemma bounded_cancelAll m : bounded o m → bounded o (cancelAll m).
Proof.
  intros H. unfold cancelAll. cbv zeta.
  apply bounded_updateQueuePositions.
  assert (∀ l m', bounded o m' → bounded o (foldl reset_status m' l)) as Hl.
  { induction l as [|f l IH]; intros m' H'; [done|].
    simpl. apply IH. unfold reset_status.
    destruct (_ || _); [by apply bounded_updateFileStatus|done]. }
  eapply bounded_same; [| |apply (Hl (files m)
    (set_abortControllers ∅ (abort_all m)))]; [done..|].
  by apply (bounded_same m).
Qed.

Lemma bounded_clearCompleted m : bounded o m → bounded o (clearCompleted m).
Proof.
  intros [Ho H]. unfold clearCompleted. apply bounded_updateQueuePositions.
  split; [done|]. by apply Forall_filter_sub.
Qed.

Lemma bounded_step e m : bounded o m → bounded o (step m e).
Proof.
  intros H. destruct e; simpl.
  - by apply bounded_addFiles.
  - by apply bounded_startUpload.
  - by apply bounded_pauseAll.
  - by apply bounded_resumeAll.
  - by apply bounded_removeFile.
  - by apply bounded_retryFailed.
  - by apply bounded_cancelAll.
  - by apply bounded_clearCompleted.
  - by apply bounded_fire.
Qed.

Lemma bounded_exec trace m : bounded o m → bounded o (exec m trace).
Proof.
  revert m. induction trace as [|e trace IH]; intros m H; [done|].
  simpl. by apply IH, bounded_step.
Qed.

End retries_bound.

(** X18: the retries on record never exceed [maxRetries].  After any
    sequence of operations and scheduler steps, with any outcome of
    the requests, the options are those the manager was created with
    and no chunk of any file has a retry count above [maxRetries]. *)
Theorem retries_stay_within_maxRetries (options : Client.Options)
    (trace : list Client.Event) :
  let m := Client.exec (Client.create options) trace in
  Client.options m = options
  ∧ Forall (λ f, Forall (λ c, Client.chunk_retries c
                              ≤ Client.maxRetries options) (Client.chunks f))
      (Client.files m).
Proof.
  apply (bounded_exec options trace (Client.create options)).
  split; [done|constructor].
Qed.

(** * The count of uploaded chunks, in every state *)

(** X19: [uploadedChunks] is always the number of completed chunks.
    In every state the manager reaches by operations and scheduler
    steps, with any outcome of the requests and fresh ids for the
    files added, each file's [uploadedChunks] is the number of chunks
    of its chunk list with status completed. *)
Theorem uploadedChunks_is_the_completed_count (options : Client.Options)
    (trace : list Client.Event) :
  fresh_ids (Client.create options) trace →
  Forall (λ f, Client.uploadedChunks f
               = Client.completed_count (Client.chunks f))
    (Client.files (Client.exec (Client.create options) trace)).
Proof.
  intros Hf.
  apply (counted_exec trace (Client.create options));
    [apply Inv_create|done|constructor].
Qed.

Lemma uploadedChunks_is_the_completed_count_example :
  fresh_ids (Client.create Scenario.options) Trace.unread
  ∧ Client.uploadedChunks
      <$> Client.files
            (Client.exec (Client.create Scenario.options) Trace.unread)
    = Client.completed_count ∘ Client.chunks
        <$> Client.files
              (Client.exec (Client.create Scenario.options) Trace.unread).
Proof.
  assert (fresh_ids (Client.create Scenario.options) Trace.unread) as H.
  { repeat split. apply (bool_decide_unpack _). by vm_compute. }
  split; [exact H|].
  apply list_fmap_ext. intros i f Hi.
  pose proof (uploadedChunks_is_the_completed_count _ _ H) as Hall.
  rewrite Forall_lookup in Hall. exact (Hall i f Hi).
Defined.

(** * Retrying the failed files *)

Section retrying.
Import Client.
Implicit Types (m : Manager) (fs : list ChunkedFile) (f g : ChunkedFile).

Lemma updateChunkStatus_lookup_ne x i s m p f :
  files m !! p = Some f → id f ≠ x →
  files (updateChunkStatus x i s m) !! p = Some f.
Proof.
  intros. unfold updateChunkStatus. cbn [files set_files].
  by apply map_file_lookup_ne.
Qed.

Lemma reset_failed_chunks_other x i cs m p f :
  files m !! p = Some f → id f ≠ x →
  files (reset_failed_chunks x i cs m) !! p = Some f.
Proof.
  revert i m. induction cs as [|c cs IH]; intros i m Hp Hx; [done|].
  simpl. apply IH; [|done]. case_bool_decide; [|done].
  by apply updateChunkStatus_lookup_ne.
Qed.

Lemma unfail_alter (cs : list Chunk) i c rest :
  drop i cs = c :: rest →
  (if bool_decide (chunk_status c = ChunkError)
   then alter (set_chunk_status ChunkPending) i cs else cs)
  = take i cs ++ unfail c :: rest.
Proof.
  intros Hd.
  assert (length (take i cs) = i) as Hl.
  { apply length_take_le. apply (f_equal length) in Hd.
    rewrite length_drop in Hd. simpl in Hd. lia. }
  assert (cs = take i cs ++ c :: rest) as Hcs
    by (by rewrite <- Hd, take_drop).
  revert Hl Hcs. generalize (take i cs). intros l1 Hl ->. subst i.
  unfold unfail. case_bool_decide as E.
  - rewrite decide_True by done.
    replace (length l1) with (length l1 + 0) by lia.
    by rewrite alter_app_r.
  - by rewrite decide_False.
Qed.

Lemma reset_failed_chunks_same cs : ∀ i m p f,
  files m !! p = Some f → drop i (chunks f) = cs →
  ∃ f', files (reset_failed_chunks (id f) i cs m) !! p = Some f'
        ∧ id f' = id f ∧ status f' = status f
        ∧ chunks f' = take i (chunks f) ++ (unfail <$> cs).
Proof.
  induction cs as [|c cs IH]; intros i m p f Hp Hd.
  - exists f. split_and!; try done. simpl. rewrite app_nil_r.
    rewrite <- (take_drop i (chunks f)) at 1. by rewrite Hd, app_nil_r.
  - simpl.
    set (m1 := if bool_decide (chunk_status c = ChunkError)
               then updateChunkStatus (id f) i ChunkPending m else m).
    set (cs1 := if bool_decide (chunk_status c = ChunkError)
                then alter (set_chunk_status ChunkPending) i (chunks f)
                else chunks f).
    assert (∃ f1, files m1 !! p = Some f1 ∧ id f1 = id f
                  ∧ status f1 = status f ∧ chunks f1 = cs1)
      as (f1 & Hp1 & Ei & Es & Ec).
    { subst m1 cs1. case_bool_decide.
      - eexists. split.
        + unfold updateChunkStatus. cbn [files set_files].
          apply map_file_lookup_eq; [exact Hp|done].
        + by destruct f.
      - by exists f. }
    pose proof (unfail_alter (chunks f) i c cs Hd) as Hcs1. fold cs1 in Hcs1.
    assert (length (take i (chunks f)) = i) as Hl.
    { apply length_take_le. apply (f_equal length) in Hd.
      rewrite length_drop in Hd. simpl in Hd. lia. }
    assert (length (take i (chunks f) ++ [unfail c]) = S i) as Hl'
      by (rewrite length_app, Hl; simpl; lia).
    rewrite (cons_middle (unfail c)), (assoc_L (++)) in Hcs1.
    destruct (IH (S i) m1 p f1 Hp1) as (f' & Hp' & Ei' & Es' & Ec').
    { rewrite Ec, Hcs1. by apply drop_app_length'. }
    rewrite Ei in Hp'. exists f'. split_and!; [done|congruence..|].
    rewrite Ec', Ec, Hcs1.
    rewrite <- Hl' at 1. rewrite take_app_length.
    by rewrite <- (assoc_L (++)).
Qed.

Lemma retry_file_other m g p f :
  files m !! p = Some f → id f ≠ id g →
  files (retry_file m g) !! p = Some f.
Proof.
  intros Hp Hne. unfold retry_file.
  apply reset_failed_chunks_other; [|done].
  unfold updateFileStatus. cbn [files set_files].
  by apply map_file_lookup_ne.
Qed.

Lemma retry_file_same m p f :
  files m !! p = Some f →
  ∃ f', files (retry_file m f) !! p = Some f'
        ∧ id f' = id f ∧ status f' = Pending
        ∧ chunks f' = unfail <$> chunks f.
Proof.
  intros Hp. unfold retry_file.
  destruct (reset_failed_chunks_same (chunks f) 0
              (updateFileStatus (id f) Pending None m) p
              (with_status Pending None f))
    as (f' & Hp' & Ei & Es & Ec).
  { unfold updateFileStatus. cbn [files set_files].
    apply map_file_lookup_eq; [exact Hp|done]. }
  { done. }
  exists f'. by split_and!.
Qed.

Lemma fold_retry_other l : ∀ m p f,
  files m !! p = Some f → id f ∉ id <$> l →
  files (foldl retry_file m l) !! p = Some f.
Proof.
  induction l as [|g l IH]; intros m p f Hp Hn; [done|].
  rewrite fmap_cons in Hn. apply not_elem_of_cons in Hn as [Hg Hn].
  simpl. apply IH; [|done]. by apply retry_file_other.
Qed.

Lemma fold_retry_same l : ∀ m p f,
  NoDup (id <$> l) → files m !! p = Some f → f ∈ l →
  (∀ g, g ∈ l → id g = id f → g = f) →
  ∃ f', files (foldl retry_file m l) !! p = Some f'
        ∧ id f' = id f ∧ status f' = Pending
        ∧ chunks f' = unfail <$> chunks f.
Proof.
  induction l as [|g l IH]; intros m p f Hnd Hp Hin Hsame;
    [by apply elem_of_nil in Hin|].
  rewrite fmap_cons in Hnd. apply NoDup_cons in Hnd as [Hg Hnd]. simpl.
  destruct (decide (id g = id f)) as [E|E].
  - assert (g = f) as -> by (apply Hsame; [by left|done]).
    destruct (retry_file_same m p f Hp) as (f1 & Hp1 & Ei & Es & Ec).
    exists f1. split; [|done]. apply fold_retry_other; [done|].
    by rewrite Ei.
  - apply IH; try done.
    + by apply retry_file_other.
    + apply elem_of_cons in Hin as [->|Hin]; [done|done].
    + intros g' Hg'. apply Hsame. by right.
Qed.

Lemma retryFailed_lookup m p f :
  NoDup (id <$> files m) → files m !! p = Some f →
  ∃ f', files (retryFailed m) !! p = Some f' ∧ id f' = id f
        ∧ (status f = Error →
           status f' ∈ [Pending; Queued; Uploading]
           ∧ chunks f' = unfail <$> chunks f)
        ∧ (status f ≠ Error →
           content f' = content f
           ∧ (status f' = status f ∨ status f' ∈ [Queued; Uploading])).
Proof.
  intros Hnd Hp. unfold retryFailed. cbv zeta.
  set (l := filter (λ f, status f = Error) (files m)).
  set (m1 := foldl retry_file m l).
  assert (restated [Queued; Uploading] (files m1)
            (files (processQueue (updateQueuePositions m1)))) as Hre.
  { eapply restated_trans;
      [apply restated_updateQueuePositions
      |apply restated_processQueue]; apply list_elem_of_In; simpl; tauto. }
  assert (∃ f1, files m1 !! p = Some f1 ∧ id f1 = id f
                ∧ (status f = Error →
                   status f1 = Pending ∧ chunks f1 = unfail <$> chunks f)
                ∧ (status f ≠ Error → f1 = f)) as (f1 & Hp1 & Ei & He & Hn).
  { apply list_elem_of_lookup_2 in Hp as Hin.
    destruct (decide (status f = Error)) as [E|E].
    - destruct (fold_retry_same l m p f) as (f1 & Hp1 & Ei & Es & Ec);
        try done.
      + by apply NoDup_filter_ids_sub.
      + by apply list_elem_of_filter.
      + intros g [_ Hg]%list_elem_of_filter Eg.
        by apply (ids_inj (files m)).
      + exists f1. by split_and!.
    - exists f. split_and!; try done.
      apply fold_retry_other; [done|].
      intros (g & Eg & Hg)%list_elem_of_fmap.
      apply list_elem_of_filter in Hg as [Hs Hg].
      by rewrite (ids_inj (files m) f g Hnd Hin Hg Eg) in E. }
  destruct (Forall2_lookup_l _ _ _ _ _ Hre Hp1) as (f' & Hp' & Hc & Hs).
  exists f'. split; [done|].
  assert (id f' = id f1) as Ei'
    by (change (id (content f') = id (content f1)); by rewrite Hc).
  assert (chunks f' = chunks f1) as Ec'
    by (change (chunks (content f') = chunks (content f1)); by rewrite Hc).
  split_and!; [congruence| |].
  - intros E. destruct (He E) as [Es Ec]. split; [|congruence].
    rewrite Es in Hs. destruct Hs as [->|Hs]; [by left|].
    apply elem_of_cons in Hs as [->|Hs]; [right; by left|].
    apply list_elem_of_singleton in Hs as ->. right. right. by left.
  - intros E. rewrite (Hn E) in *. done.
Qed.

End retrying.

(** X20: what [retryFailed] does to the files, for distinct ids.  A
    file that had failed is pending again, or already queued or
    uploading, and of its chunks exactly the failed ones are reset to
    pending: the completed chunks stay completed (they are not sent
    again) and the retry counts are kept.  Every other file holds
    what it held, with its status unchanged or moved to queued or
    uploading.  No file is dropped or moved. *)
Theorem retryFailed_resets_the_failed_chunks (m : Client.Manager) :
  NoDup (Client.id <$> Client.files m) →
  ∀ p f, Client.files m !! p = Some f →
    ∃ f', Client.files (Client.retryFailed m) !! p = Some f'
          ∧ Client.id f' = Client.id f
          ∧ (Client.status f = Client.Error →
             Client.status f'
               ∈ [Client.Pending; Client.Queued; Client.Uploading]
             ∧ Client.chunks f' = unfail <$> Client.chunks f)
          ∧ (Client.status f ≠ Client.Error →
             content f' = content f
             ∧ (Client.status f' = Client.status f
                ∨ Client.status f' ∈ [Client.Queued; Client.Uploading])).
Proof. intros Hnd p f. by apply retryFailed_lookup. Qed.

Lemma retryFailed_resets_the_failed_chunks_example :
  NoDup (Client.id
           <$> Client.files
                 (Client.exec (Client.create Scenario.options) Retry.failed))
  ∧ ∃ f', Client.files
            (Client.retryFailed
               (Client.exec (Client.create Scenario.options) Retry.failed))
          !! 0 = Some f'
          ∧ Client.chunk_status <$> Client.chunks f'
            = [Client.ChunkPending; Client.ChunkCompleted;
               Client.ChunkCompleted]
          ∧ Client.chunk_retries <$> Client.chunks f' = [1; 0; 0].
Proof.
  assert (NoDup (Client.id
                   <$> Client.files
                         (Client.exec (Client.create Scenario.options)
                            Retry.failed))) as H
    by (apply (bool_decide_unpack _); by vm_compute).
  split; [exact H|].
  pose (f := default Scenario.chunked
               (Client.files
                  (Client.exec (Client.create Scenario.options) Retry.failed)
                !! 0)).
  assert (Client.files
            (Client.exec (Client.create Scenario.options) Retry.failed) !! 0
          = Some f) as E by (by vm_compute).
  destruct (retryFailed_resets_the_failed_chunks _ H 0 f E)
    as (f' & Hp & _ & He & _).
  assert (Client.status f = Client.Error) as Es by (by vm_compute).
  destruct (He Es) as [_ Ec].
  exists f'. split; [exact Hp|]. rewrite Ec. split; by vm_compute.
Defined.

(** * The init request of a new file *)

Lemma ceil_div_pos a b : 0 < b → 0 < a → 0 < Client.ceil_div a b.
Proof.
  intros Hb Ha. unfold Client.ceil_div.
  destruct (Nat.eqb_spec (a mod b) 0) as [E|E]; [|lia].
  pose proof (Nat.div_mod_eq a b) as Hdm. rewrite E in Hdm.
  destruct (a / b) as [|q] eqn:Eq; [|lia]. lia.
Qed.

(** X21: which files the init route accepts.  For a positive chunk
    size, the init request that the client builds for a newly added
    file is accepted by the init route exactly when the file has a
    name, a type and at least one byte; a file whose type is the empty
    string is rejected for its missing fields like one without bytes.
    The answer to an accepted request repeats the id, the name, the
    type, the size and the chunk count of the file. *)
Theorem init_accepts_named_typed_files (m : Client.Manager)
    (nf : Client.NewFile) :
  0 < Client.opt_chunkSize (Client.options m) →
  let f := Client.new_chunked_file m nf in
  let answer := Server.init (Client.init_request f) in
  (Server.init_ok answer = true
   ↔ Client.f_name (Client.nf_file nf) ≠ []
     ∧ Client.f_type (Client.nf_file nf) ≠ []
     ∧ Client.f_bytes (Client.nf_file nf) ≠ [])
  ∧ (Server.init_ok answer = false → answer = Server.InitMissingFields)
  ∧ (Server.init_ok answer = true →
     answer = Server.Initialized (Client.id f) (Client.name f)
                (Client.type f) (Client.size f) (Client.totalChunks f)).
Proof.
  intros Hc f answer. subst answer. unfold Server.init.
  assert (Server.falsy (Server.i_uploadId (Client.init_request f)) = false)
    as Hid.
  { unfold Server.falsy. apply bool_decide_eq_false_2.
    subst f. unfold Client.init_request, Client.new_chunked_file.
    cbn [Server.i_uploadId Client.id]. unfold Client.new_id.
    intros E. apply (f_equal length) in E.
    rewrite !length_app in E. simpl in E. lia. }
  rewrite Hid, orb_false_r.
  subst f. unfold Client.init_request, Client.new_chunked_file. cbv zeta.
  cbn [Server.i_filename Server.i_contentType Server.i_totalSize
       Server.i_totalChunks Server.i_uploadId Client.id Client.name
       Client.type Client.size Client.totalChunks].
  unfold Server.falsy.
  destruct (Client.nf_file nf) as [name type bytes].
  cbn [Client.f_name Client.f_type Client.f_bytes].
  destruct (decide (name = [])) as [En|En].
  { rewrite bool_decide_eq_true_2 by done. simpl. split_and!; try done.
    split; [done|]. by intros [? _]. }
  rewrite (bool_decide_eq_false_2 _ En).
  destruct (decide (type = [])) as [Et|Et].
  { rewrite bool_decide_eq_true_2 by done. simpl. split_and!; try done.
    split; [done|]. by intros (_ & ? & _). }
  rewrite (bool_decide_eq_false_2 _ Et).
  destruct bytes as [|b bytes].
  { simpl. split_and!; try done. split; [done|]. by intros (_ & _ & ?). }
  assert (0 < Client.ceil_div (length (b :: bytes))
                (Client.opt_chunkSize (Client.options m))) as Hk
    by (apply ceil_div_pos; [done|simpl; lia]).
  destruct (Nat.eqb_spec (Client.ceil_div (length (b :: bytes))
                            (Client.opt_chunkSize (Client.options m))) 0)
    as [E|E]; [lia|].
  cbn [length Nat.eqb orb Server.init_ok]. split_and!; try done.
Qed.

Lemma init_accepts_named_typed_files_example :
  0 < Client.opt_chunkSize (Client.options (Client.create Scenario.options))
  ∧ Server.init
      (Client.init_request
         (Client.new_chunked_file (Client.create Scenario.options)
            Scenario.photo))
    = Server.Initialized (Client.new_id Scenario.photo)
        (Client.f_name (Client.nf_file Scenario.photo))
        (Client.f_type (Client.nf_file Scenario.photo)) 5 3.
Proof.
  assert (0 < Client.opt_chunkSize
                (Client.options (Client.create Scenario.options))) as H
    by (vm_compute; lia).
  split; [exact H|].
  destruct (init_accepts_named_typed_files (Client.create Scenario.options)
              Scenario.photo H) as (Hiff & _ & Hok).
  rewrite Hok; [reflexivity|]. apply Hiff. by vm_compute.
Defined.
